(** * Hex-binned stacked-area visualiser: a shallow embedding of [src/main.ts]

    The TypeScript program turns a table of numeric series into per-sample
    shares, bins the shares into hex columns at two row parities, fixes one
    global stacking order, allocates every row slot of every column to one
    series and lays the result out as hex cells with a hit-test index.

    The numeric stages are embedded twice.  What a stage computes (the
    shares of the Normalizer, the windows and bins of the Binning Engine,
    the totals behind the Global Order, the cumulative vector of the
    Allocation Engine, the crossings of the hit test) is stated over
    binary64 numbers, in the module [B64] further down.  What depends on
    no more than the order of numbers, the shape of the arrays and the
    state of the page (the bands and the coverage of an allocation, the
    choice of the active order, the grid, the handlers) is stated over the
    embedding that comes first, in which a number is an exact rational.

    Conventions of the embedding over rationals.
    - A JavaScript [number] that carries data is read as an exact rational
      ([Q]): there is no rounding, no overflow and no [NaN].
    - [x / 0] is [0] in [Q] where JavaScript gives [Infinity] or [NaN].
      The program divides by a sum only after testing it positive, and by
      counts that are at least one; [render] divides by the hex width and
      row step, which are zero only for a hex radius of zero.
    - A JavaScript [number] that is an array length, an index or a loop
      counter is a [nat]; integers obtained with [Math.floor], [Math.ceil]
      and [Math.round] are in [Z].
    - Arrays are lists.  [a[i] ?? 0] is [get a i].  The allocation tables,
      made with [new Array(n)] and read by a later stage, keep their holes
      as [None]; a local array whose every slot is written before it is
      read has [0] for its holes.
    - [for] loops are left folds over [seq]; in-place writes [m[r][c] = v]
      are [set2], [m[r][c] += v] is [add2].
    - [throw] is the [Throw] constructor of [result]. *)

From Stdlib Require Import QArith Qround Qminmax Lqa Lia ZArith String.
From stdpp Require Import base list sorting.

(** ** Numbers and arrays *)

Definition num_of_nat (n : nat) : Q := inject_Z (Z.of_nat n).

(** [a < b] and [a > b] on numbers, as booleans. *)
Definition Qltb (a b : Q) : bool := negb (Qle_bool b a).
Definition Qgtb (a b : Q) : bool := Qltb b a.

(** [Math.max(0, v)] *)
Definition clamp0 (v : Q) : Q := Qmax 0 v.

(** [Math.round]: the nearest integer, halves going up. *)
Definition Math_round (q : Q) : Z := Qfloor (q + (1 # 2)).

(** [a[i] ?? 0] *)
Definition get (a : list Q) (i : nat) : Q := default 0%Q (a !! i).

(** [m[r][c] ?? 0] for a rectangular table read inside its bounds. *)
Definition get2 (m : list (list Q)) (r c : nat) : Q :=
  get (default [] (m !! r)) c.

(** [m[r][c] = v] *)
Definition set2 (m : list (list Q)) (r c : nat) (v : Q) : list (list Q) :=
  alter (fun row => <[c := v]> row) r m.

(** [m[r][c] += v] *)
Definition add2 (m : list (list Q)) (r c : nat) (v : Q) : list (list Q) :=
  alter (fun row => alter (fun x => (x + v)%Q) c row) r m.

(** [a.reduce((p, q) => p + q, 0)] *)
Definition Qsum (a : list Q) : Q := foldl Qplus 0%Q a.

(** [for (let i = lo; i < hi; i++) st = body(st, i)] *)
Definition for_loop {S : Type} (lo hi : nat) (body : S -> nat -> S) (st : S) : S :=
  foldl body st (seq lo (hi - lo)).

(** The column [i] of a series-major table: one entry per series. *)
Definition column (m : list (list Q)) (i : nat) : list Q :=
  map (fun row => get row i) m.

Inductive result (A : Type) : Type :=
  | Ok (a : A)
  | Throw (msg : string).
Arguments Ok {A} a.
Arguments Throw {A} msg.

(** ** Data model *)

Record Mock := { x : list Q; series : list (list Q) }.
Record MockSeries := { name : string; values : list Q }.
Record MockData := { md_values : list Q; md_series : list MockSeries }.

(** ** Normalizer: [transformToMock] *)

Definition transformToMock (data : MockData) : result (Mock * list string) :=
  if (length (md_series data) =? 0)%nat then
    Throw "Invalid MockData: missing values/series."
  else
    let L := length (md_values data) in
    if negb (forallb (fun s => (length (values s) =? L)%nat) (md_series data)) then
      Throw "Invalid MockData: each series.values length must equal values length."
    else
      let sCount := length (md_series data) in
      let seriesVals := map (fun s => map clamp0 (values s)) (md_series data) in
      let seriesNorm0 := replicate sCount (replicate L 0%Q) in
      let seriesNorm :=
        for_loop 0 L (fun seriesNorm i =>
          let sum := for_loop 0 sCount (fun sum s => (sum + get2 seriesVals s i)%Q) 0%Q in
          if Qle_bool sum 0 then
            let v := (1 / num_of_nat sCount)%Q in
            for_loop 0 sCount (fun seriesNorm s => set2 seriesNorm s i v) seriesNorm
          else
            for_loop 0 sCount (fun seriesNorm s =>
              set2 seriesNorm s i (get2 seriesVals s i / sum)%Q) seriesNorm)
        seriesNorm0 in
      let mockX := map num_of_nat (seq 0 L) in
      Ok ({| x := mockX; series := seriesNorm |}, map name (md_series data)).

(** ** Smoothing: [movingAverage]

    [windowSamples] is always an integer: its only caller passes
    [Math.max(1, Math.round(...))].  [new Array(n)] is filled at every index
    before it is returned, so its holes are never read and the placeholder
    [0] stands for them. *)

Definition movingAverage (arr : list Q) (windowSamples : Z) : list Q :=
  let n := length arr in
  if (windowSamples <=? 1)%Z then arr
  else
    let half := Z.to_nat (windowSamples / 2) in
    let pref :=
      for_loop 0 n (fun pref i => <[S i := (get pref i + get arr i)%Q]> pref)
        (replicate (n + 1) 0%Q) in
    for_loop 0 n (fun out i =>
      let start := Nat.max 0 (i - half) in
      let end_ := Nat.min (n - 1) (i + half) in
      let sum := (get pref (end_ + 1) - get pref start)%Q in
      <[i := (sum / num_of_nat (end_ - start + 1))%Q]> out)
      (replicate n 0%Q).

(** ** Binning Engine: [aggregateBins] *)

(** The sample window of bin [b]: [start] and [end] of the source. *)
Definition binSize (points columns : nat) : Q :=
  (num_of_nat points / num_of_nat columns)%Q.

Definition binOffset (points columns : nat) (shiftHalfBin : bool) : Q :=
  if shiftHalfBin then (binSize points columns * (1 # 2))%Q else 0%Q.

Definition binStart (points columns : nat) (shiftHalfBin : bool) (b : nat) : nat :=
  let startF := (num_of_nat b * binSize points columns
                 + binOffset points columns shiftHalfBin)%Q in
  Z.to_nat (Z.max 0 (Qfloor startF)).

Definition binEnd (points columns : nat) (shiftHalfBin : bool) (b : nat) : nat :=
  let endF := ((num_of_nat b + 1) * binSize points columns
               + binOffset points columns shiftHalfBin)%Q in
  Z.to_nat (Z.min (Z.of_nat points) (Qceiling endF)).

Definition aggregateBins (data : Mock) (columns : nat) (shiftHalfBin : bool)
  : list (list Q) :=
  let sCount := length (series data) in
  let points := length (x data) in
  let bins0 := replicate columns (replicate sCount 0%Q) in
  for_loop 0 columns (fun bins b =>
    let start := binStart points columns shiftHalfBin b in
    let end_ := binEnd points columns shiftHalfBin b in
    let bins1 :=
      for_loop start end_ (fun bins i =>
        for_loop 0 sCount (fun bins s =>
          let v := clamp0 (get2 (series data) s i) in
          add2 bins b s v) bins) bins in
    let sum := for_loop 0 sCount (fun sum s => (sum + get2 bins1 b s)%Q) 0%Q in
    if Qle_bool sum 0 then
      let v := (1 / num_of_nat sCount)%Q in
      for_loop 0 sCount (fun bins s => set2 bins b s v) bins1
    else
      for_loop 0 sCount (fun bins s => set2 bins b s (get2 bins b s / sum)%Q) bins1)
    bins0.

(** ** Global Order Resolver: [computeGlobalOrder]

    [Array.prototype.sort] is stable and orders by the sign of the
    comparator.  For a comparator that is a total preorder the outcome is
    the same for every conforming engine; the embedding computes it by
    stable insertion: a later element goes in front of the first element it
    is strictly smaller than. *)

Fixpoint sort_insert (cmp : nat -> nat -> Q) (v : nat) (sorted : list nat) : list nat :=
  match sorted with
  | [] => [v]
  | u :: rest =>
      if Qltb (cmp v u) 0 then v :: u :: rest
      else u :: sort_insert cmp v rest
  end.

Definition Array_sort (cmp : nat -> nat -> Q) (a : list nat) : list nat :=
  foldl (fun sorted v => sort_insert cmp v sorted) [] a.

(** The inner [addBins] closure: [col[s] || 0] is [col[s]] for a number and
    [0] for a missing entry. *)
Definition addBins (sCount : nat) (bins : list (list Q)) (totals : list Q) : list Q :=
  for_loop 0 (length bins) (fun totals c =>
    let col := default [] (bins !! c) in
    for_loop 0 sCount (fun totals s =>
      alter (fun t => (t + get col s)%Q) s totals) totals) totals.

Definition globalTotals (binsEven binsOdd : list (list Q)) (sCount : nat) : list Q :=
  addBins sCount binsOdd (addBins sCount binsEven (replicate sCount 0%Q)).

Definition computeGlobalOrder (binsEven binsOdd : list (list Q)) (sCount : nat)
  : list nat :=
  let totals := globalTotals binsEven binsOdd sCount in
  Array_sort (fun a b => (get totals b - get totals a)%Q) (seq 0 sCount).

(** ** Allocation Engine: [buildAllocations] *)

(** The defensive renormalisation of one column. *)
Definition allocShares (dist : list Q) (sCount : nat) : list Q :=
  let raw := map (fun i => clamp0 (get dist i)) (seq 0 sCount) in
  let sum := Qsum raw in
  if Qgtb sum 0 then map (fun v => (v / sum)%Q) raw
  else replicate sCount (1 / num_of_nat (Nat.max 1 sCount))%Q.

(** Cumulative shares from bottom to top, the last one forced to [1].
    [order] only holds indices below [sCount] in every call of the program,
    so [shares[s]] is always a number. *)
Definition allocCum (shares : list Q) (order : list nat) : list Q :=
  let sCount := length order in
  let sharesOrdered := map (fun s => get shares s) order in
  let '(_, cum) :=
    for_loop 0 sCount (fun '(acc, cum) i =>
      let acc' := (acc + get sharesOrdered i)%Q in
      (acc', <[i := acc']> cum)) (0%Q, replicate sCount 0%Q) in
  <[sCount - 1 := 1%Q]> cum.

(** [while (k < sCount - 1 && yFromBottom > cum[k]) k++], with the number
    of iterations left as fuel. *)
Fixpoint while_k (fuel sCount : nat) (cum : list Q) (yFromBottom : Q) (k : nat) : nat :=
  match fuel with
  | O => k
  | S fuel' =>
      if (k <? sCount - 1)%nat && Qgtb yFromBottom (get cum k)
      then while_k fuel' sCount cum yFromBottom (S k)
      else k
  end.

Definition yFromBottom (r rowsForParity : nat) : Q :=
  let yFromTop := ((num_of_nat r + (1 # 2)) / num_of_nat (Nat.max 1 rowsForParity))%Q in
  (1 - yFromTop)%Q.

Definition allocColumn (dist : list Q) (rowsForParity : nat) (order : list nat)
  : list (option nat) :=
  let sCount := length order in
  let shares := allocShares dist sCount in
  let cum := allocCum shares order in
  for_loop 0 rowsForParity (fun colAlloc r =>
    let k := while_k sCount sCount cum (yFromBottom r rowsForParity) 0 in
    <[r := order !! k]> colAlloc) (replicate rowsForParity None).

Definition buildAllocations (distTable : list (list Q)) (rowsForParity : nat)
    (order : list nat) : list (option (list (option nat))) :=
  let cols := length distTable in
  for_loop 0 cols (fun allocations c =>
    let dist := default [] (distTable !! c) in
    <[c := Some (allocColumn dist rowsForParity order)]> allocations)
    (replicate cols None).

(** ** Geometry: [hexPolygon] and [pointInPoly]

    [Math.PI], [Math.cos], [Math.sin] and [Math.sqrt] have no rational
    values; the host's implementation of them is an interface the program
    is written against.  [getColors] (palette strings for drawing) is kept
    behind the same interface. *)

Class Host := {
  Math_PI : Q;
  Math_cos : Q -> Q;
  Math_sin : Q -> Q;
  Math_sqrt : Q -> Q;
  getColors : nat -> list string;
}.

Abbreviation point := (Q * Q)%type (only parsing).

Definition HEX_GAP : Q := 1 # 2.

Definition hexPolygon `{Host} (cx cy r : Q) : list point :=
  let innerR := Qmax 0 (r - HEX_GAP) in
  for_loop 0 6 (fun pts i =>
    let angle := (((60 * num_of_nat i - 30) * Math_PI) / 180)%Q in
    pts ++ [((cx + innerR * Math_cos angle)%Q, (cy + innerR * Math_sin angle)%Q)]) [].

(** [poly[i]] for an index inside the polygon. *)
Definition vertex (poly : list point) (i : nat) : point :=
  default (0%Q, 0%Q) (poly !! i).

(** One turn of the ray-casting loop: does the edge from [poly[j]] to
    [poly[i]] cross the horizontal ray to the right of [(x, y)]?  The
    quotient is evaluated only when the two ends lie on different sides
    of the ray, as with [&&] in the source. *)
Definition intersect (x y : Q) (pi pj : point) : bool :=
  let '(xi, yi) := pi in
  let '(xj, yj) := pj in
  negb (Bool.eqb (Qgtb yi y) (Qgtb yj y))
  && Qltb x (((xj - xi) * (y - yi)) / (yj - yi) + xi)%Q.

Definition pointInPoly (x y : Q) (poly : list point) : bool :=
  fst (for_loop 0 (length poly) (fun '(inside, j) i =>
         let inside' :=
           if intersect x y (vertex poly i) (vertex poly j)
           then negb inside else inside in
         (inside', i))
       (false, (length poly - 1)%nat)).

(** ** Grid Layout: [buildCellMap] *)

Record Cell := { c_x : Q; c_y : Q; c_series : nat; c_col : nat }.

Definition AllocTable : Type := list (option (list (option nat))).

(** [allocTable[col]?.[rowInParity] ?? 0] *)
Definition allocAt (allocTable : AllocTable) (col rowInParity : nat) : nat :=
  match allocTable !! col with
  | Some (Some colAlloc) =>
      match colAlloc !! rowInParity with
      | Some (Some s) => s
      | _ => 0%nat
      end
  | _ => 0%nat
  end.

(** [canvas.clientWidth] is read from the page; it is the first argument. *)
Definition buildCellMap (clientWidth : Q) (cols rows : nat)
    (startXEven hexWidth firstY vertStep : Q) (allocEven allocOdd : AllocTable)
  : list (list Cell) :=
  for_loop 0 rows (fun cellMap row =>
    let y := (firstY + num_of_nat row * vertStep)%Q in
    let isEven := (row mod 2 =? 0)%nat in
    let startX := if isEven then startXEven else (startXEven + hexWidth / 2)%Q in
    let rowInParity := (row / 2)%nat in
    let allocTable := if isEven then allocEven else allocOdd in
    for_loop 0 cols (fun cellMap col =>
      let x := (startX + num_of_nat col * hexWidth)%Q in
      if Qltb x (20 + hexWidth * (1 # 4))%Q
         || Qgtb x ((clientWidth - 20) - hexWidth * (1 # 4))%Q
      then cellMap
      else
        let chosen := allocAt allocTable col rowInParity in
        alter (fun cells =>
                 cells ++ [{| c_x := x; c_y := y; c_series := chosen; c_col := col |}])
              row cellMap) cellMap)
    (replicate rows []).

(** ** Hex cells, bounding boxes and the page state *)

(** The bounding box starts from [Infinity] and [-Infinity]. *)
Inductive ext : Type :=
  | NegInfinity
  | Fin (q : Q)
  | Infinity.

Definition ext_ltb (a b : ext) : bool :=
  match a, b with
  | NegInfinity, NegInfinity => false
  | NegInfinity, _ => true
  | Fin _, NegInfinity => false
  | Fin p, Fin q => Qltb p q
  | Fin _, Infinity => true
  | Infinity, _ => false
  end.

Record BBox := { minX : ext; minY : ext; maxX : ext; maxY : ext }.

Record HexCell := {
  poly : list point;
  cx : Q;
  cy : Q;
  hc_series : nat;
  counts : list Z;
  samples : Z;
  bbox : option BBox;
}.

(** The [for (const [px, py] of poly)] loop of [render]. *)
Definition polyBBox (poly : list point) : BBox :=
  foldl (fun b '(px, py) =>
    let minX' := if ext_ltb (Fin px) (minX b) then Fin px else minX b in
    let minY' := if ext_ltb (Fin py) (minY b) then Fin py else minY b in
    let maxX' := if ext_ltb (maxX b) (Fin px) then Fin px else maxX b in
    let maxY' := if ext_ltb (maxY b) (Fin py) then Fin py else maxY b in
    {| minX := minX'; minY := minY'; maxX := maxX'; maxY := maxY' |})
    {| minX := Infinity; minY := Infinity; maxX := NegInfinity; maxY := NegInfinity |}
    poly.

Record Plot := { left : Q; top : Q; right : Q; bottom : Q }.

(** The module-level variables of the page, and what [renderGlobalOrderUI]
    last put on display. *)
Record State := {
  userOrder : option (list nat);
  rawData : option MockData;
  seriesNames : list string;
  graphData : option Mock;
  showHex : bool;
  hexCells : list HexCell;
  cachedColors : list string;
  renderQueued : bool;
  lastPlot : option Plot;
  globalOrderUI : list nat;
}.

(** What [render] reads from the page: the canvas size and the two sliders,
    already through [parseInt]. *)
Record Page := {
  clientWidth : Z;
  clientHeight : Z;
  hexSize : Z;
  smoothPercent : Z;
}.

(** ** The hex path of [render]

    The local constants of [render] that the later stages and the
    properties below refer to, under the names they have in the source. *)
Record HexFrame := {
  plot : Plot;
  cols : nat;
  rows : nat;
  smoothedGraph : Mock;
  binsEven : list (list Q);
  binsOdd : list (list Q);
  computedGlobalOrder : list nat;
  activeOrder : list nat;
  allocEven : AllocTable;
  allocOdd : AllocTable;
  cellMap : list (list Cell);
  cells : list HexCell;
}.

(** [userOrder && userOrder.length === computedGlobalOrder.length
     ? userOrder : computedGlobalOrder] *)
Definition chooseOrder (userOrder : option (list nat)) (computedGlobalOrder : list nat)
  : list nat :=
  match userOrder with
  | Some u =>
      if (length u =? length computedGlobalOrder)%nat then u else computedGlobalOrder
  | None => computedGlobalOrder
  end.

(** The smoothing step of [render]. *)
Definition smoothGraph (graphData : Mock) (smoothPercent : Z) : Mock :=
  if (smoothPercent >? 2)%Z then
    let smoothWindowFrac := (inject_Z smoothPercent / 100)%Q in
    let windowSamples :=
      Z.max 1 (Math_round (num_of_nat (length (x graphData)) * smoothWindowFrac)) in
    {| x := x graphData;
       series := map (fun s => movingAverage s windowSamples) (series graphData) |}
  else graphData.

(** The loop of [render] that turns the cell map into hex cells. *)
Definition buildHexCells `{Host} (hexR : Q) (seriesLen : nat)
    (binsEven binsOdd : list (list Q)) (cellMap : list (list Cell)) : list HexCell :=
  for_loop 0 (length cellMap) (fun hexCells r =>
    let isEven := (r mod 2 =? 0)%nat in
    let distTable := if isEven then binsEven else binsOdd in
    foldl (fun hexCells c =>
      let col := c_col c in
      let dist := default (replicate seriesLen 0%Q) (distTable !! col) in
      let '(counts, samples) :=
        for_loop 0 seriesLen (fun '(counts, samples) s =>
          let vv := clamp0 (get dist s) in
          let ct := Math_round (vv * 1000) in
          (<[s := ct]> counts, (samples + ct)%Z))
          (replicate seriesLen 0%Z, 0%Z) in
      let poly := hexPolygon (c_x c) (c_y c) hexR in
      hexCells ++ [{| poly := poly; cx := c_x c; cy := c_y c;
                      hc_series := c_series c; counts := counts;
                      samples := samples; bbox := Some (polyBBox poly) |}])
      hexCells (default [] (cellMap !! r))) [].

Definition render_hex `{Host} (page : Page) (graphData : Mock)
    (userOrder : option (list nat)) : HexFrame :=
  let w := inject_Z (clientWidth page) in
  let h := inject_Z (clientHeight page) in
  let hexR := inject_Z (hexSize page) in
  let seriesLen := length (series graphData) in
  let plot := {| left := 20; top := 20; right := w - 20; bottom := h - 20 |}%Q in
  let hexWidth := (Math_sqrt 3 * hexR)%Q in
  let vertStep := ((3 # 2) * hexR)%Q in
  let plotW := Qmax 1 (right plot - left plot) in
  let cols := Z.to_nat (Z.max 1 (Qfloor (plotW / hexWidth))) in
  let smoothedGraph := smoothGraph graphData (smoothPercent page) in
  let binsEven := aggregateBins smoothedGraph cols false in
  let binsOdd := aggregateBins smoothedGraph cols true in
  let firstY := (top plot + hexR)%Q in
  let lastY := (bottom plot - hexR)%Q in
  let rows := Z.to_nat (Z.max 1 (Qfloor ((lastY - firstY) / vertStep) + 1)) in
  let evenRowCount := Z.to_nat (Qceiling (num_of_nat rows / 2)) in
  let oddRowCount := Z.to_nat (Qfloor (num_of_nat rows / 2)) in
  let computedGlobalOrder := computeGlobalOrder binsEven binsOdd seriesLen in
  let activeOrder := chooseOrder userOrder computedGlobalOrder in
  let allocEven := buildAllocations binsEven evenRowCount activeOrder in
  let allocOdd := buildAllocations binsOdd oddRowCount activeOrder in
  let startXEven := (left plot + hexWidth / 2)%Q in
  let cellMap :=
    buildCellMap w cols rows startXEven hexWidth firstY vertStep allocEven allocOdd in
  {| plot := plot; cols := cols; rows := rows; smoothedGraph := smoothedGraph;
     binsEven := binsEven; binsOdd := binsOdd;
     computedGlobalOrder := computedGlobalOrder; activeOrder := activeOrder;
     allocEven := allocEven; allocOdd := allocOdd; cellMap := cellMap;
     cells := buildHexCells hexR seriesLen binsEven binsOdd cellMap |}.

(** [render]: what it leaves in the module-level variables.  Canvas drawing
    (fills, legend, axes) writes to the screen only and is left out. *)
Definition render `{Host} (page : Page) (st : State) : State :=
  match graphData st with
  | None => st
  | Some g =>
      let seriesLen := length (series g) in
      let colors :=
        if (length (cachedColors st) =? seriesLen)%nat then cachedColors st
        else getColors seriesLen in
      if negb (showHex st) then
        {| userOrder := userOrder st; rawData := rawData st;
           seriesNames := seriesNames st; graphData := graphData st;
           showHex := showHex st; hexCells := []; cachedColors := colors;
           renderQueued := renderQueued st; lastPlot := lastPlot st;
           globalOrderUI := globalOrderUI st |}
      else
        let f := render_hex page g (userOrder st) in
        {| userOrder := userOrder st; rawData := rawData st;
           seriesNames := seriesNames st; graphData := graphData st;
           showHex := showHex st; hexCells := cells f; cachedColors := colors;
           renderQueued := renderQueued st; lastPlot := Some (plot f);
           globalOrderUI := activeOrder f |}
  end.

(** ** Event handlers *)

Definition set_renderQueued (b : bool) (st : State) : State :=
  {| userOrder := userOrder st; rawData := rawData st;
     seriesNames := seriesNames st; graphData := graphData st;
     showHex := showHex st; hexCells := hexCells st;
     cachedColors := cachedColors st; renderQueued := b;
     lastPlot := lastPlot st; globalOrderUI := globalOrderUI st |}.

Definition set_userOrder (o : option (list nat)) (st : State) : State :=
  {| userOrder := o; rawData := rawData st;
     seriesNames := seriesNames st; graphData := graphData st;
     showHex := showHex st; hexCells := hexCells st;
     cachedColors := cachedColors st; renderQueued := renderQueued st;
     lastPlot := lastPlot st; globalOrderUI := globalOrderUI st |}.

Definition scheduleRender (st : State) : State :=
  if renderQueued st then st else set_renderQueued true st.

(** The callback [scheduleRender] hands to [requestAnimationFrame]. *)
Definition animationFrame `{Host} (page : Page) (st : State) : State :=
  render page (set_renderQueued false st).

(** The click handler of the reset button. *)
Definition resetOrder_click (st : State) : State :=
  scheduleRender (set_userOrder None st).

(** [mx < b.minX || mx > b.maxX || my < b.minY || my > b.maxY] *)
Definition bboxExcludes (b : BBox) (mx my : Q) : bool :=
  ext_ltb (Fin mx) (minX b) || ext_ltb (maxX b) (Fin mx)
  || ext_ltb (Fin my) (minY b) || ext_ltb (maxY b) (Fin my).

(** The linear scan of the [mousemove] handler: [continue] on a bounding
    box that excludes the pointer, [break] on the first polygon hit. *)
Fixpoint hitScan (hexCells : list HexCell) (mx my : Q) : option HexCell :=
  match hexCells with
  | [] => None
  | c :: rest =>
      if match bbox c with Some b => bboxExcludes b mx my | None => false end
      then hitScan rest mx my
      else if pointInPoly mx my (poly c) then Some c
      else hitScan rest mx my
  end.

(** The same scan without the bounding-box test. *)
Fixpoint polyScan (hexCells : list HexCell) (mx my : Q) : option HexCell :=
  match hexCells with
  | [] => None
  | c :: rest =>
      if pointInPoly mx my (poly c) then Some c else polyScan rest mx my
  end.

(** * Specification vocabulary

    The notions the properties are stated with.  They follow the wording
    of the design document and are compared with the code further down. *)

(** A Series Table: [sCount] series, each of the common length [L], which is
    also the length of the x-axis values. *)
Definition seriesTable (data : MockData) (sCount L : nat) : Prop :=
  length (md_series data) = sCount /\ length (md_values data) = L /\
  forall s ser, md_series data !! s = Some ser -> length (values ser) = L.

(** The value of one series at one sample, clamped to [>= 0]. *)
Definition clampedValue (ser : MockSeries) (i : nat) : Q :=
  Qmax 0 (get (values ser) i).

(** The sum over all series of the clamped values at sample [i]. *)
Definition sampleSum (data : MockData) (i : nat) : Q :=
  Qsum (map (fun ser => clampedValue ser i) (md_series data)).

(** The [seriesVals] table of [transformToMock]. *)
Definition seriesVals_of (data : MockData) : list (list Q) :=
  map (fun s => map clamp0 (values s)) (md_series data).

(** The value the Normalizer computes for series [s] at sample [i], from the
    table of clamped values. *)
Definition normShare (seriesVals : list (list Q)) (s i : nat) : Q :=
  let sum := Qsum (column seriesVals i) in
  if Qle_bool sum 0 then (1 / num_of_nat (length seriesVals))%Q
  else (get2 seriesVals s i / sum)%Q.

(** ** Sample inputs *)

(** Two series over two samples; the second sample has no positive value. *)
Definition sampleTable : MockData :=
  {| md_values := [1; 2]%Q;
     md_series := [ {| name := "a"; values := [1; 0]%Q |};
                    {| name := "b"; values := [3; -2]%Q |} ] |}.

(** ** Global order *)

(** A series' total share, over all bins of both parity tables. *)
Definition totalShare (binsEven binsOdd : list (list Q)) (s : nat) : Q :=
  (Qsum (column binsEven s) + Qsum (column binsOdd s))%Q.

(** [a] is ranked before [b] under the totals [t]: the larger total first,
    and the smaller index first among equal totals. *)
Definition ranksBefore (t : nat -> Q) (a b : nat) : Prop :=
  (t b < t a)%Q \/ ((t a == t b)%Q /\ (a < b)%nat).

(** ** Binning *)

(** What [aggregateBins] accumulates for series [s] over the samples
    [lo .. hi - 1], and the row it leaves for one bin. *)
Definition binRaw (data : Mock) (lo hi s : nat) : Q :=
  for_loop lo hi (fun acc i => (acc + clamp0 (get2 (series data) s i))%Q) 0%Q.

Definition binRow (data : Mock) (lo hi : nat) : list Q :=
  let sCount := length (series data) in
  let sum := for_loop 0 sCount (fun sum s => (sum + binRaw data lo hi s)%Q) 0%Q in
  map (fun s => if Qle_bool sum 0 then (1 / num_of_nat sCount)%Q
                else (binRaw data lo hi s / sum)%Q) (seq 0 sCount).

(** The sample window of bin [b] in the words of the design document:
    [floor(b * binSize + offset)] to [ceil((b + 1) * binSize + offset)],
    both ends clamped to [0 .. L]; [offset] is [0] for the even parity and
    [binSize / 2] for the odd one. *)
Definition parityOffset (L columns : nat) (odd : bool) : Q :=
  if odd then (binSize L columns / 2)%Q else 0%Q.

Definition clampIndex (L : nat) (z : Z) : nat :=
  Z.to_nat (Z.min (Z.of_nat L) (Z.max 0 z)).

Definition windowLo (L columns : nat) (odd : bool) (b : nat) : nat :=
  clampIndex L (Qfloor (num_of_nat b * binSize L columns + parityOffset L columns odd)).

Definition windowHi (L columns : nat) (odd : bool) (b : nat) : nat :=
  clampIndex L (Qceiling ((num_of_nat b + 1) * binSize L columns
                          + parityOffset L columns odd)).

(** The sum of series [s]'s shares over the samples [lo .. hi - 1], and the
    sum of these sums over all series. *)
Definition windowShare (m : list (list Q)) (lo hi s : nat) : Q :=
  Qsum (map (fun i => get2 m s i) (seq lo (hi - lo))).

Definition windowTotal (m : list (list Q)) (lo hi : nat) : Q :=
  Qsum (map (windowShare m lo hi) (seq 0 (length m))).

(** Two series over four samples. *)
Definition sampleShares : Mock :=
  {| x := [0; 1; 2; 3]%Q;
     series := [[1; 1 # 2; 0; 1 # 4]; [0; 1 # 2; 1; 3 # 4]]%Q |}.

(** ** Allocation *)

(** One column of a Bin Distribution Table: [sCount] shares, none negative,
    adding up to one. *)
Definition distribution (dist : list Q) (sCount : nat) : Prop :=
  length dist = sCount /\ Forall (fun v => (0 <= v)%Q) dist /\ (Qsum dist == 1)%Q.

(** The cumulative vector in the words of the design document: the shares
    of the column reordered by [order], summed from the bottom up to
    position [k], the last entry being exactly [1]. *)
Definition cumulativeShare (dist : list Q) (order : list nat) (k : nat) : Q :=
  if (k =? length order - 1)%nat then 1%Q
  else Qsum (map (fun s => get dist s) (take (S k) order)).

(** The running sum [acc] of the loop that fills [cum], after [i] turns. *)
Definition prefixSum (sharesOrdered : list Q) (i : nat) : Q :=
  for_loop 0 i (fun acc j => (acc + get sharesOrdered j)%Q) 0%Q.

(** Two columns of a Bin Distribution Table over two series. *)
Definition sampleBins : list (list Q) := [[1 # 4; 3 # 4]; [1 # 2; 1 # 2]]%Q.

(** ** A host and two page states *)

(** A host whose [Math] functions are crude rational approximations; the
    properties below hold for every host. *)
Definition sampleHost : Host :=
  {| Math_PI := 355 # 113;
     Math_cos := fun a => (1 - a * a / 2 + a * a * a * a / 24)%Q;
     Math_sin := fun a => (a - a * a * a / 6 + a * a * a * a * a / 120)%Q;
     Math_sqrt := fun q => ((q + 1) / 2)%Q;
     getColors := fun n => replicate n "#888"%string |}.

Definition samplePage : Page :=
  {| clientWidth := 200; clientHeight := 120; hexSize := 20; smoothPercent := 0 |}.

(** The same data and settings, with different left-overs of earlier
    renders in the caches. *)
Definition sampleState1 : State :=
  {| userOrder := None; rawData := None; seriesNames := ["a"; "b"]%string;
     graphData := Some sampleShares; showHex := true; hexCells := [];
     cachedColors := []; renderQueued := false; lastPlot := None;
     globalOrderUI := [] |}.

(** ** Hit test *)

(** The index [j] that the ray-casting loop pairs with [i]: the previous
    vertex, and the last one for the first. *)
Definition prevIndex (n i : nat) : nat :=
  if (i =? 0)%nat then (n - 1)%nat else (i - 1)%nat.

(** A hex cell whose bounding box, when it has one, is the one [render]
    computes from its polygon. *)
Definition bboxOfPoly (c : HexCell) : Prop :=
  bbox c = None \/ bbox c = Some (polyBBox (poly c)).

(** A hexagon around the origin. *)
Definition sampleHexagon : list point :=
  [(4, 0); (2, 3); (-2, 3); (-4, 0); (-2, -3); (2, -3)]%Q.

(** * More of the program: reordering, loading, frames and the tooltip *)

(** ** [arrayMove] and the drop handler of the order list

    [splice] reads an integer [start] relative to the end of the array when
    it is negative and clamps it to the array.  An array may hold
    [undefined] once [splice] has found nothing to remove, so the entries
    are options. *)

Definition spliceStart (len : nat) (start : Z) : nat :=
  if (start <? 0)%Z then Z.to_nat (Z.max (Z.of_nat len + start) 0)
  else Z.to_nat (Z.min start (Z.of_nat len)).

Definition arrayMove {A : Type} (arr : list (option A)) (from to : Z)
  : list (option A) :=
  if (from =? to)%Z then arr
  else
    let i := spliceStart (length arr) from in
    let v := mjoin (arr !! i) in
    let arr1 := delete i arr in
    let j := spliceStart (length arr1) to in
    take j arr1 ++ v :: drop j arr1.

Definition set_globalOrderUI (o : list nat) (st : State) : State :=
  {| userOrder := userOrder st; rawData := rawData st;
     seriesNames := seriesNames st; graphData := graphData st;
     showHex := showHex st; hexCells := hexCells st;
     cachedColors := cachedColors st; renderQueued := renderQueued st;
     lastPlot := lastPlot st; globalOrderUI := o |}.

(** What the [drop] handler of the item at position [toPos] does before it
    asks for a render.  [fromPos] is the dragged text through [Number]:
    [None] when it is not finite, an integer otherwise (the items of the
    list put their own position there; a number with a fraction is left
    out).  The list shown on
    the page is the [order] the items were made for.  The result is [None]
    when the moved array holds [undefined], which [userOrder] of [State]
    has no value for; this happens only for a [fromPos] outside the
    list. *)
Definition order_drop_update (fromPos : option Z) (toPos : nat) (st : State)
  : option State :=
  match fromPos with
  | None => Some st
  | Some from =>
      let base := match userOrder st with
                  | Some u => u
                  | None => globalOrderUI st
                  end in
      let moved := arrayMove (map Some base) from (Z.of_nat toPos) in
      match mapM id moved with
      | Some o => Some (set_globalOrderUI o (set_userOrder (Some o) st))
      | None => None
      end
  end.

Definition order_drop (fromPos : option Z) (toPos : nat) (st : State)
  : option State :=
  match fromPos with
  | None => Some st
  | Some _ => scheduleRender <$> order_drop_update fromPos toPos st
  end.

(** ** Loading data: [setRawDataAndRender]

    The assignments before [transformToMock] stay when it throws.  The
    write to the series-count input of the page is left out. *)

Definition set_rawData (data : MockData) (names : list string) (st : State) : State :=
  {| userOrder := userOrder st; rawData := Some data;
     seriesNames := names; graphData := graphData st;
     showHex := showHex st; hexCells := hexCells st;
     cachedColors := cachedColors st; renderQueued := renderQueued st;
     lastPlot := lastPlot st; globalOrderUI := globalOrderUI st |}.

Definition set_graphData (g : Mock) (names : list string) (st : State) : State :=
  {| userOrder := userOrder st; rawData := rawData st;
     seriesNames := names; graphData := Some g;
     showHex := showHex st; hexCells := hexCells st;
     cachedColors := cachedColors st; renderQueued := renderQueued st;
     lastPlot := lastPlot st; globalOrderUI := globalOrderUI st |}.

(** The state changes of [setRawDataAndRender] up to its last line, and
    whether that line, [scheduleRender()], is reached. *)
Definition setRawData_update (data : MockData) (st : State) : State * option string :=
  let st1 := set_rawData data (map name (md_series data)) st in
  match transformToMock data with
  | Throw msg => (st1, Some msg)
  | Ok (mock, names) => (set_graphData mock names st1, None)
  end.

Definition setRawDataAndRender (data : MockData) (st : State) : State * option string :=
  match setRawData_update data st with
  | (st', None) => (scheduleRender st', None)
  | (st', Some msg) => (st', Some msg)
  end.

Definition set_showHex (b : bool) (st : State) : State :=
  {| userOrder := userOrder st; rawData := rawData st;
     seriesNames := seriesNames st; graphData := graphData st;
     showHex := b; hexCells := hexCells st;
     cachedColors := cachedColors st; renderQueued := renderQueued st;
     lastPlot := lastPlot st; globalOrderUI := globalOrderUI st |}.

(** ** Frames: the page with its queue of frame callbacks *)

Record Browser := { page_state : State; pendingFrames : nat }.

Definition on_state (f : State -> State) (b : Browser) : Browser :=
  {| page_state := f (page_state b); pendingFrames := pendingFrames b |}.

(** [window.requestAnimationFrame(callback)] *)
Definition requestAnimationFrame (b : Browser) : Browser :=
  {| page_state := page_state b; pendingFrames := S (pendingFrames b) |}.

(** [scheduleRender], with the callback it queues. *)
Definition scheduleRender_queue (b : Browser) : Browser :=
  if renderQueued (page_state b) then b
  else requestAnimationFrame (on_state (set_renderQueued true) b).

(** What can happen to the page.  [DataInput] is the timer of the text
    area firing, with what [safeParseMockData] returned ([None]: it threw);
    [Regenerate] is a click on the regenerate button, with the table that
    [generateMock] drew, which may be any table here; [AnimationFrame] is
    the browser running one queued callback, with the page as it is
    then. *)
Inductive Event : Type :=
  | HexSizeInput
  | SmoothPercentInput
  | ToggleView
  | WindowResize
  | ResetOrder
  | OrderDrop (fromPos : option Z) (toPos : nat)
  | DataInput (parsed : option MockData)
  | Regenerate (next : MockData)
  | AnimationFrame (page : Page).

Definition handle `{Host} (ev : Event) (b : Browser) : option Browser :=
  match ev with
  | HexSizeInput | SmoothPercentInput | WindowResize => Some (scheduleRender_queue b)
  | ToggleView =>
      Some (scheduleRender_queue
              (on_state (fun st => set_showHex (negb (showHex st)) st) b))
  | ResetOrder => Some (scheduleRender_queue (on_state (set_userOrder None) b))
  | OrderDrop fromPos toPos =>
      match fromPos with
      | None => Some b
      | Some _ =>
          match order_drop_update fromPos toPos (page_state b) with
          | Some st' => Some (scheduleRender_queue (on_state (fun _ => st') b))
          | None => None
          end
      end
  | DataInput None => Some b
  | DataInput (Some data) | Regenerate data =>
      match setRawData_update data (page_state b) with
      | (st', None) => Some (scheduleRender_queue (on_state (fun _ => st') b))
      | (st', Some _) => Some (on_state (fun _ => st') b)
      end
  | AnimationFrame page =>
      match pendingFrames b with
      | O => Some b
      | S n => Some {| page_state := animationFrame page (page_state b);
                       pendingFrames := n |}
      end
  end.

(** A run of events from left to right; [None] once a drop has left the
    states of the model. *)
Fixpoint run `{Host} (evs : list Event) (b : Browser) : option Browser :=
  match evs with
  | [] => Some b
  | ev :: rest =>
      match handle ev b with
      | Some b' => run rest b'
      | None => None
      end
  end.

(** ** The tooltip of the [mousemove] handler

    The numbers the handler computes before it formats them as text.
    [mx] and [my] are the pointer relative to the canvas; the size of the
    canvas is read only when no plot has been laid out yet.  [tt_name] is
    [None] where the handler falls back to [Series n]; [tt_value] is the
    raw value or, without raw values, the percentage; [tt_majority] is
    [None] where [hit.counts[sIdx]] is [undefined] and the quotient is
    [NaN]. *)

Record Tooltip := {
  tt_series : nat;
  tt_name : option string;
  tt_t : Q;
  tt_idx : Z;
  tt_value : Q + Z;
  tt_share : Q;
  tt_majority : option Q;
}.

Definition mousemove (st : State) (rect_width rect_height mx my : Q)
  : option Tooltip :=
  match graphData st with
  | None => None
  | Some g =>
      if negb (showHex st) then None
      else
        match hitScan (hexCells st) mx my with
        | None => None
        | Some hit =>
            let plot :=
              default {| left := 20; top := 20;
                         right := rect_width - 20; bottom := rect_height - 20 |}%Q
                      (lastPlot st) in
            let plotW := Qmax 1 (right plot - left plot) in
            let t := Qmin 1 (Qmax 0 ((mx - left plot) / plotW)) in
            let points := Z.of_nat (length (x g)) in
            let idx := Z.max 0 (Z.min (points - 1)
                                      (Math_round (t * inject_Z (points - 1)))) in
            let value :=
              match rawData st with
              | Some raw =>
                  let len := Z.of_nat (length (md_values raw)) in
                  if (len =? 0)%Z then inr (Math_round (t * 100))
                  else
                    let yi := Z.max 0 (Z.min (len - 1)
                                             (Math_round (t * inject_Z (len - 1)))) in
                    inl (get (md_values raw) (Z.to_nat yi))
              | None => inr (Math_round (t * 100))
              end in
            let sIdx := hc_series hit in
            let share := get2 (series g) sIdx (Z.to_nat idx) in
            let majority :=
              if (samples hit >? 0)%Z
              then (fun ct => (inject_Z ct / inject_Z (samples hit))%Q)
                     <$> counts hit !! sIdx
              else Some 0%Q in
            let name :=
              match seriesNames st !! sIdx with
              | Some n => if String.eqb n "" then None else Some n
              | None => None
              end in
            Some {| tt_series := sIdx; tt_name := name; tt_t := t; tt_idx := idx;
                    tt_value := value; tt_share := share; tt_majority := majority |}
        end
  end.

(** ** Reading a table from tab-separated text: [parseTsvToMockData]

    The string functions of the host are assumed, not modelled:
    [normalizeNewlines] is [tsv.replace(/\r\n?/g, '\n')], [String_split sep s]
    is [s.split(sep)], and [Number_parseFloat] is [Number.parseFloat]
    followed by the [Number.isFinite] test, [None] standing for [NaN] and
    the infinities.  Strings are strings of bytes. *)

Class TextHost := {
  normalizeNewlines : string -> string;
  String_trim : string -> string;
  String_split : string -> string -> list string;
  Number_parseFloat : string -> option Q;
}.

Definition tab : string := String (Ascii.ascii_of_nat 9) EmptyString.
Definition newline : string := String (Ascii.ascii_of_nat 10) EmptyString.

(** [row.split('\t').map(c => c.trim())] *)
Definition splitRow `{TextHost} (row : string) : list string :=
  map String_trim (String_split tab row).

(** [a[i] ?? ''] on an array of strings *)
Definition cell (cells : list string) (i : nat) : string :=
  default EmptyString (cells !! i).

(** The name of a series: the header cell without a prefix such as [AA:]. *)
Definition seriesNameOf `{TextHost} (h : string) : string :=
  match String.index 0 ":" h with
  | Some colon =>
      String_trim (String.substring (S colon) (String.length h - S colon) h)
  | None => h
  end.

(** The lines of the text that are not blank. *)
Definition tsvLines `{TextHost} (tsv : string) : list string :=
  let text := String_trim (normalizeNewlines tsv) in
  List.filter (fun l => (0 <? String.length (String_trim l))%nat)
              (String_split newline text).

Definition parseTsvToMockData `{TextHost} (tsv : string) : result MockData :=
  let lines := tsvLines tsv in
  if (length lines <? 2)%nat then
    Throw "TSV must include a header and at least one data row."
  else
    let headerCells := splitRow (cell lines 0) in
    if (length headerCells <? 2)%nat then
      Throw "Header must include an index column and at least one series column."
    else
      let seriesNames := map seriesNameOf (drop 1 headerCells) in
      let '(vals, seriesValues) :=
        for_loop 1 (length lines) (fun '(vals, seriesValues) r =>
          let cells := splitRow (cell lines r) in
          let xRaw := cell cells 0 in
          let vals' :=
            vals ++ [match Number_parseFloat xRaw with
                     | Some xVal => xVal
                     | None => num_of_nat r
                     end] in
          let seriesValues' :=
            for_loop 0 (length seriesNames) (fun seriesValues s =>
              let raw := cell cells (s + 1) in
              alter (fun col => col ++ [default 0%Q (Number_parseFloat raw)])
                    s seriesValues) seriesValues in
          (vals', seriesValues'))
          ([], replicate (length seriesNames) []) in
      let series :=
        imap (fun i nm => {| name := nm; values := default [] (seriesValues !! i) |})
             seriesNames in
      let L := length vals in
      if forallb (fun s => (length (values s) =? L)%nat) series then
        Ok {| md_values := vals; md_series := series |}
      else Throw "Irregular row widths detected while parsing TSV.".

(** ** The x-axis ticks of [drawAxes]

    For each of the six ticks, where it is drawn and what its label
    shows: a value of the table ([None] where [values[yi]] is
    [undefined]), or a percentage when there are no values. *)

Definition xTickIndex (len i : nat) : Z :=
  Math_round (num_of_nat i / 5 * (num_of_nat len - 1)).

Definition xTicks (w pad : Q) (vals : option (list Q))
  : list (Q * (option Q + Q)) :=
  map (fun i =>
         let t := (num_of_nat i / 5)%Q in
         let x := (pad + t * (w - pad * 2))%Q in
         let label :=
           match vals with
           | Some vs =>
               if (0 <? length vs)%nat
               then inl (match xTickIndex (length vs) i with
                         | Z.neg _ => None
                         | yi => vs !! Z.to_nat yi
                         end)
               else inr (t * 100)%Q
           | None => inr (t * 100)%Q
           end in
         (x, label)) (seq 0 6).

(** [Math.abs] *)
Definition Math_abs (q : Q) : Q := if Qltb q 0 then (- q)%Q else q.

(** ** Mock data: [randomName] and [generateMock]

    [Math.random()] is an oracle: [rnd k] is the result of the call number
    [k] that [generateMock] makes, counted from 0 in the order of the
    calls.  A [seriesCount] below zero runs the loop zero times, as 0
    does. *)

Definition names : list string :=
  ["Rose"; "Tulip"; "Daffodil"; "Lily"; "Orchid"; "Sunflower"; "Daisy";
   "Marigold"; "Peony"; "Iris"; "Lavender"; "Carnation"; "Chrysanthemum";
   "Gardenia"; "Hydrangea"]%string.

Definition randomName (i : nat) : string :=
  default EmptyString (names !! (i mod length names)).

Definition generateMock `{Host} (rnd : nat -> Q) (seriesCount : nat)
    (valuesLen : option nat) : MockData :=
  let '(L, k0) :=
    match valuesLen with
    | Some L => (L, 0%nat)
    | None => (Z.to_nat (25 + Qfloor (rnd 0%nat * 25)), 1%nat)
    end in
  let startValue := 1%Q in
  let vals := map (fun i => (startValue + num_of_nat i)%Q) (seq 0 L) in
  let '(series, _) :=
    for_loop 0 seriesCount (fun '(series, k) s =>
      let base := (rnd k * (5 # 10) + (2 # 10) + num_of_nat s * (3 # 100))%Q in
      let phase := (rnd (k + 1)%nat * Math_PI * 2)%Q in
      let freq := (3 + rnd (k + 2)%nat * 4)%Q in
      let arr :=
        map (fun i =>
               let t := (num_of_nat i / num_of_nat (Nat.max 1 (L - 1)))%Q in
               Qmax 0 (base + (7 # 10) * Math_abs (Math_sin (t * freq + phase))
                       + (25 # 100) * (rnd (k + 3 + i)%nat - (5 # 10)))%Q)
            (seq 0 L) in
      (series ++ [{| name := randomName s; values := arr |}], (k + 3 + L)%nat))
      ([], k0) in
  {| md_values := vals; md_series := series |}.

(** ** Colours: [hslToHex] and [getColors]

    [render] reaches [getColors] through the host; this is the function of
    the source itself.  [a % m] on numbers is the remainder of the division
    truncated towards zero.  [toString(16)] is modelled for integers. *)

Module Palette.

Definition Qtrunc (q : Q) : Z := if Qltb q 0 then Qceiling q else Qfloor q.

(** [a % m] *)
Definition Qrem (a m : Q) : Q := (a - m * inject_Z (Qtrunc (a / m)))%Q.

Definition hexDigit (d : nat) : string :=
  match String.get d "0123456789abcdef" with
  | Some a => String a EmptyString
  | None => EmptyString
  end.

Fixpoint hexDigits (fuel n : nat) : string :=
  match fuel with
  | O => EmptyString
  | S fuel' =>
      if (n <? 16)%nat then hexDigit n
      else (hexDigits fuel' (n / 16) ++ hexDigit (n mod 16))%string
  end.

(** [v.toString(16)] for an integer [v] *)
Definition toString16 (v : Z) : string :=
  if (v <? 0)%Z then ("-" ++ hexDigits (S (Z.to_nat (- v))) (Z.to_nat (- v)))%string
  else hexDigits (S (Z.to_nat v)) (Z.to_nat v).

(** [s.padStart(2, '0')] *)
Definition padStart2 (s : string) : string :=
  match String.length s with
  | 0%nat => "00"%string
  | 1%nat => ("0" ++ s)%string
  | _ => s
  end.

Definition hslToHex (h s l : Q) : string :=
  let c := ((1 - Math_abs (2 * l - 1)) * s)%Q in
  let hp := (h / 60)%Q in
  let x := (c * (1 - Math_abs (Qrem hp 2 - 1)))%Q in
  let '(r, g, b) :=
    if Qle_bool 0 hp && Qltb hp 1 then (c, x, 0%Q)
    else if Qltb hp 2 then (x, c, 0%Q)
    else if Qltb hp 3 then (0%Q, c, x)
    else if Qltb hp 4 then (0%Q, x, c)
    else if Qltb hp 5 then (x, 0%Q, c)
    else (c, 0%Q, x) in
  let m := (l - c / 2)%Q in
  let to255 := fun v : Q => Math_round ((v + m) * 255) in
  let rr := padStart2 (toString16 (to255 r)) in
  let gg := padStart2 (toString16 (to255 g)) in
  let bb := padStart2 (toString16 (to255 b)) in
  ("#" ++ rr ++ gg ++ bb)%string.

Definition stylish : list string :=
  ["#2563eb"; "#7c3aed"; "#ec4899"; "#ef4444";
   "#f59e0b"; "#10b981"; "#06b6d4"; "#374151"]%string.

(** The colour that the loop of [getColors] pushes at index [i]. *)
Definition generated (i : nat) : string :=
  let golden := (137508 # 1000)%Q in
  let baseOffset := 0%Q in
  let idx := (i - length stylish)%nat in
  let h := Qrem (baseOffset + num_of_nat idx * golden) 360 in
  let satVariants := [60 # 100; 66 # 100; 54 # 100]%Q in
  let lightVariants := [52 # 100; 58 # 100; 46 # 100; 40 # 100]%Q in
  let s := get satVariants (idx mod length satVariants) in
  let l := get lightVariants (idx mod length lightVariants) in
  hslToHex h s l.

Definition getColors (n : nat) : list string :=
  if (n <=? length stylish)%nat then take n stylish
  else for_loop (length stylish) n (fun result i => result ++ [generated i]) stylish.

End Palette.

(** ** Vocabulary for the further properties *)

(** A table with a series that is too short. *)
Definition raggedTable : MockData :=
  {| md_values := [1; 2]%Q;
     md_series := [ {| name := "a"; values := [1; 0]%Q |};
                    {| name := "b"; values := [3]%Q |} ] |}.

Definition Zsum (l : list Z) : Z := foldl Z.add 0%Z l.

(** A hex cell as the tooltip and the fill loop need it: its series is one
    of the [seriesLen] series, it has one count per series, none negative,
    and [samples] is their total. *)
Definition validCell (seriesLen : nat) (c : HexCell) : Prop :=
  (hc_series c < seriesLen)%nat /\
  length (counts c) = seriesLen /\
  Forall (fun ct => (0 <= ct)%Z) (counts c) /\
  samples c = Zsum (counts c).

(** A page state with one hand-made cell under the pointer at [(1, 1)]. *)
Definition hoverState : State :=
  {| userOrder := None; rawData := None; seriesNames := ["a"; "b"]%string;
     graphData := Some sampleShares; showHex := true;
     hexCells := [ {| poly := sampleHexagon; cx := 0; cy := 0; hc_series := 1%nat;
                      counts := [250; 750]%Z; samples := 1000;
                      bbox := Some (polyBBox sampleHexagon) |} ];
     cachedColors := []; renderQueued := false;
     lastPlot := Some {| left := 20; top := 20; right := 180; bottom := 100 |}%Q;
     globalOrderUI := [1; 0]%nat |}.

(** The frame queue agrees with the flag: one callback is waiting when
    [renderQueued] is set, none otherwise. *)
Definition framesMatch (b : Browser) : Prop :=
  pendingFrames b = if renderQueued (page_state b) then 1%nat else 0%nat.

(** What every page state reached by the handlers satisfies: the user
    order and the displayed order are permutations of their own positions,
    a loaded graph has at least one series, and the stored cells are valid
    for some number of series. *)
Definition orderly (st : State) : Prop :=
  (forall u, userOrder st = Some u -> u ≡ₚ seq 0 (length u)) /\
  globalOrderUI st ≡ₚ seq 0 (length (globalOrderUI st)) /\
  (forall g, graphData st = Some g -> (1 <= length (series g))%nat) /\
  exists n, Forall (validCell n) (hexCells st).

(** The page before the first frame, with the sample graph loaded. *)
Definition idleBrowser : Browser :=
  {| page_state := sampleState1; pendingFrames := 0 |}.

(** A resize, the frame it asked for, a drop on the order the frame put on
    display, the frame after the drop, and a slider input. *)
Definition sampleRun : list Event :=
  [WindowResize; AnimationFrame samplePage; OrderDrop (Some 0%Z) 1;
   AnimationFrame samplePage; SmoothPercentInput].

(** What [buildCellMap] is to put into row [r]: a cell of column [c_col]
    sits at the centre the grid gives that column, inside the clip bounds
    of the canvas, and shows the series the allocation table of the
    row's parity has for it. *)
Definition gridCell (clientWidth : Q) (cols : nat) (startXEven hexWidth firstY vertStep : Q)
    (allocEven allocOdd : AllocTable) (r : nat) (c : Cell) : Prop :=
  let isEven := (r mod 2 =? 0)%nat in
  (c_col c < cols)%nat /\
  c_y c = (firstY + num_of_nat r * vertStep)%Q /\
  c_x c = ((if isEven then startXEven else (startXEven + hexWidth / 2)%Q)
           + num_of_nat (c_col c) * hexWidth)%Q /\
  (20 + hexWidth * (1 # 4) <= c_x c <= (clientWidth - 20) - hexWidth * (1 # 4))%Q /\
  c_series c = allocAt (if isEven then allocEven else allocOdd) (c_col c) (r / 2).

(** The cells of a row stand in strictly increasing column order. *)
Definition byColumn (cells : list Cell) : Prop :=
  StronglySorted (fun a b => (c_col a < c_col b)%nat) cells.

(** A host for the examples: no trimming, a splitter on a one-byte
    separator, and a [parseFloat] that reads one decimal digit. *)
Fixpoint splitOn (sep : Ascii.ascii) (acc s : string) : list string :=
  match s with
  | EmptyString => [acc]
  | String a rest =>
      if Ascii.eqb a sep then acc :: splitOn sep EmptyString rest
      else splitOn sep (acc ++ String a EmptyString)%string rest
  end.

Definition digitOf (s : string) : option Q :=
  match s with
  | String a EmptyString =>
      let n := Ascii.nat_of_ascii a in
      if ((48 <=? n) && (n <=? 57))%nat then Some (num_of_nat (n - 48)) else None
  | _ => None
  end.

Definition sampleText : TextHost :=
  {| normalizeNewlines := fun s => s;
     String_trim := fun s => s;
     String_split := fun sep s =>
       match sep with
       | String a EmptyString => splitOn a EmptyString s
       | _ => [s]
       end;
     Number_parseFloat := digitOf |}.

(** A header and two rows, the second one short. *)
Definition sampleTsv : string :=
  ("t" ++ tab ++ "a" ++ tab ++ "b" ++ newline
   ++ "1" ++ tab ++ "3" ++ tab ++ "5" ++ newline
   ++ "x" ++ tab ++ "4")%string.

(** The number that [parseTsvToMockData] stores for a cell of a data row:
    the parsed text, or [0] where the cell is missing or not a finite
    number. *)
Definition tsvValue `{TextHost} (tsv : string) (r s : nat) : Q :=
  default 0%Q (Number_parseFloat (cell (splitRow (cell (tsvLines tsv) r)) (s + 1))).

(** The x value of a data row: the first cell, or the row number. *)
Definition tsvX `{TextHost} (tsv : string) (r : nat) : Q :=
  match Number_parseFloat (cell (splitRow (cell (tsvLines tsv) r)) 0) with
  | Some xVal => xVal
  | None => num_of_nat r
  end.

(** * The numeric stages over binary64 numbers

    The definitions above read a JavaScript [number] as an exact rational,
    which is enough for what depends on order and structure only.  The
    module [B64] embeds the numeric stages of the pipeline once more, with
    every [number] that carries data as an IEEE 754 binary64 value
    ([PrimFloat.float]): sums, quotients and comparisons round, overflow
    and propagate [NaN] as they do in the program.  The statements about
    what these stages compute are made over [B64].

    Conventions of [B64].
    - [+], [-], [*], [/], [<], [<=] are the binary64 operations.
    - Array lengths, indices and loop counters are [nat], as before; a
      counter enters the arithmetic through [num_of_nat].  Array lengths
      are below [2^32], where this conversion is exact.
    - [Math.floor], [Math.ceil] and [Math.round] are computed from the
      exact value of their argument and give a [Z]; they are applied to
      finite numbers only (a product or quotient of lengths and counters).
    - [a[i] ?? 0] is [get a i]; [a[i]] read without a fallback is
      [a !! i], and [undefined] in an addition gives [NaN]. *)

From Stdlib Require Floats.

Module B64.
Import Floats.

(** ** Numbers and arrays *)

Definition num_of_Z (z : Z) : float :=
  SF2Prim (binary_normalize prec emax z 0 false).

Definition num_of_nat (n : nat) : float := num_of_Z (Z.of_nat n).

(** The mantissa of a finite number with its sign. *)
Definition signed (s : bool) (m : positive) : Z := if s then Z.neg m else Z.pos m.

Definition Math_floor (v : float) : Z :=
  match Prim2SF v with
  | S754_finite s m e =>
      if (0 <=? e)%Z then (signed s m * 2 ^ e)%Z else (signed s m / 2 ^ (- e))%Z
  | _ => 0%Z
  end.

Definition Math_ceil (v : float) : Z :=
  match Prim2SF v with
  | S754_finite s m e =>
      if (0 <=? e)%Z then (signed s m * 2 ^ e)%Z
      else (- ((- signed s m) / 2 ^ (- e)))%Z
  | _ => 0%Z
  end.

(** [Math.round]: the nearest integer, halves going up. *)
Definition Math_round (v : float) : Z :=
  match Prim2SF v with
  | S754_finite s m e =>
      if (0 <=? e)%Z then (signed s m * 2 ^ e)%Z
      else ((2 * signed s m + 2 ^ (- e)) / 2 ^ (- e + 1))%Z
  | _ => 0%Z
  end.

(** [Math.max(a, b)]: [NaN] if one of them is, and [+0] above [-0]. *)
Definition Math_max (a b : float) : float :=
  if is_nan a || is_nan b then nan
  else if (a <? b)%float then b
  else if (b <? a)%float then a
  else if is_zero a && get_sign a then b else a.

(** [Math.max(0, v)] *)
Definition clamp0 (v : float) : float := Math_max 0%float v.

(** [a[i] ?? 0] *)
Definition get (a : list float) (i : nat) : float := default 0%float (a !! i).

(** [m[r][c] ?? 0] for a rectangular table read inside its bounds. *)
Definition get2 (m : list (list float)) (r c : nat) : float :=
  get (default [] (m !! r)) c.

(** [m[r][c] = v] *)
Definition set2 (m : list (list float)) (r c : nat) (v : float) : list (list float) :=
  alter (fun row => <[c := v]> row) r m.

(** [m[r][c] += v] *)
Definition add2 (m : list (list float)) (r c : nat) (v : float) : list (list float) :=
  alter (fun row => alter (fun x => (x + v)%float) c row) r m.

(** [a.reduce((p, q) => p + q, 0)] *)
Definition Fsum (a : list float) : float := foldl PrimFloat.add 0%float a.

(** The column [i] of a series-major table: one entry per series. *)
Definition column (m : list (list float)) (i : nat) : list float :=
  map (fun row => get row i) m.

(** ** Data model *)

Record Mock := { x : list float; series : list (list float) }.
Record MockSeries := { name : string; values : list float }.
Record MockData := { md_values : list float; md_series : list MockSeries }.

(** ** Normalizer: [transformToMock] *)

Definition transformToMock (data : MockData) : result (Mock * list string) :=
  if (length (md_series data) =? 0)%nat then
    Throw "Invalid MockData: missing values/series."
  else
    let L := length (md_values data) in
    if negb (forallb (fun s => (length (values s) =? L)%nat) (md_series data)) then
      Throw "Invalid MockData: each series.values length must equal values length."
    else
      let sCount := length (md_series data) in
      let seriesVals := map (fun s => map clamp0 (values s)) (md_series data) in
      let seriesNorm0 := replicate sCount (replicate L 0%float) in
      let seriesNorm :=
        for_loop 0 L (fun seriesNorm i =>
          let sum := for_loop 0 sCount (fun sum s => (sum + get2 seriesVals s i)%float)
                       0%float in
          if (sum <=? 0)%float then
            let v := (1 / num_of_nat sCount)%float in
            for_loop 0 sCount (fun seriesNorm s => set2 seriesNorm s i v) seriesNorm
          else
            for_loop 0 sCount (fun seriesNorm s =>
              set2 seriesNorm s i (get2 seriesVals s i / sum)%float) seriesNorm)
        seriesNorm0 in
      let mockX := map num_of_nat (seq 0 L) in
      Ok ({| x := mockX; series := seriesNorm |}, map name (md_series data)).

(** ** Smoothing: [movingAverage] and the smoothing step of [render] *)

Definition movingAverage (arr : list float) (windowSamples : Z) : list float :=
  let n := length arr in
  if (windowSamples <=? 1)%Z then arr
  else
    let half := Z.to_nat (windowSamples / 2) in
    let pref :=
      for_loop 0 n (fun pref i => <[S i := (get pref i + get arr i)%float]> pref)
        (replicate (n + 1) 0%float) in
    for_loop 0 n (fun out i =>
      let start := Nat.max 0 (i - half) in
      let end_ := Nat.min (n - 1) (i + half) in
      let sum := (get pref (end_ + 1) - get pref start)%float in
      <[i := (sum / num_of_nat (end_ - start + 1))%float]> out)
      (replicate n 0%float).

(** [smoothPercent] is the slider value, already through [parseInt]. *)
Definition smoothGraph (graphData : Mock) (smoothPercent : Z) : Mock :=
  if (smoothPercent >? 2)%Z then
    let smoothWindowFrac := (num_of_Z smoothPercent / 100)%float in
    let windowSamples :=
      Z.max 1 (Math_round (num_of_nat (length (x graphData)) * smoothWindowFrac)%float) in
    {| x := x graphData;
       series := map (fun s => movingAverage s windowSamples) (series graphData) |}
  else graphData.

(** ** Binning Engine: [aggregateBins] *)

Definition binSize (points columns : nat) : float :=
  (num_of_nat points / num_of_nat columns)%float.

Definition binOffset (points columns : nat) (shiftHalfBin : bool) : float :=
  if shiftHalfBin then (binSize points columns * 0.5)%float else 0%float.

(** [start] and [end] of the source. *)
Definition binStart (points columns : nat) (shiftHalfBin : bool) (b : nat) : nat :=
  let startF := (num_of_nat b * binSize points columns
                 + binOffset points columns shiftHalfBin)%float in
  Z.to_nat (Z.max 0 (Math_floor startF)).

Definition binEnd (points columns : nat) (shiftHalfBin : bool) (b : nat) : nat :=
  let endF := (num_of_nat (b + 1) * binSize points columns
               + binOffset points columns shiftHalfBin)%float in
  Z.to_nat (Z.min (Z.of_nat points) (Math_ceil endF)).

Definition aggregateBins (data : Mock) (columns : nat) (shiftHalfBin : bool)
  : list (list float) :=
  let sCount := length (series data) in
  let points := length (x data) in
  let bins0 := replicate columns (replicate sCount 0%float) in
  for_loop 0 columns (fun bins b =>
    let start := binStart points columns shiftHalfBin b in
    let end_ := binEnd points columns shiftHalfBin b in
    let bins1 :=
      for_loop start end_ (fun bins i =>
        for_loop 0 sCount (fun bins s =>
          let v := clamp0 (get2 (series data) s i) in
          add2 bins b s v) bins) bins in
    let sum := for_loop 0 sCount (fun sum s => (sum + get2 bins1 b s)%float) 0%float in
    if (sum <=? 0)%float then
      let v := (1 / num_of_nat sCount)%float in
      for_loop 0 sCount (fun bins s => set2 bins b s v) bins1
    else
      for_loop 0 sCount (fun bins s => set2 bins b s (get2 bins b s / sum)%float) bins1)
    bins0.

(** ** Global Order Resolver: [computeGlobalOrder]

    [Array.prototype.sort] is stable and orders by the sign of the
    comparator; the embedding computes it by stable insertion, as before. *)

Fixpoint sort_insert (cmp : nat -> nat -> float) (v : nat) (sorted : list nat)
  : list nat :=
  match sorted with
  | [] => [v]
  | u :: rest =>
      if (cmp v u <? 0)%float then v :: u :: rest
      else u :: sort_insert cmp v rest
  end.

Definition Array_sort (cmp : nat -> nat -> float) (a : list nat) : list nat :=
  foldl (fun sorted v => sort_insert cmp v sorted) [] a.

(** [v || 0]: [0] for a missing entry, for [NaN] and for a zero. *)
Definition orZero (v : option float) : float :=
  match v with
  | Some v => if is_nan v || is_zero v then 0%float else v
  | None => 0%float
  end.

Definition addBins (sCount : nat) (bins : list (list float)) (totals : list float)
  : list float :=
  for_loop 0 (length bins) (fun totals c =>
    let col := default [] (bins !! c) in
    for_loop 0 sCount (fun totals s =>
      alter (fun t => (t + orZero (col !! s))%float) s totals) totals) totals.

Definition globalTotals (binsEven binsOdd : list (list float)) (sCount : nat)
  : list float :=
  addBins sCount binsOdd (addBins sCount binsEven (replicate sCount 0%float)).

Definition computeGlobalOrder (binsEven binsOdd : list (list float)) (sCount : nat)
  : list nat :=
  let totals := globalTotals binsEven binsOdd sCount in
  Array_sort (fun a b => (get totals b - get totals a)%float) (seq 0 sCount).

(** ** Allocation Engine: [buildAllocations] *)

(** The defensive renormalisation of one column. *)
Definition allocShares (dist : list float) (sCount : nat) : list float :=
  let raw := map (fun i => clamp0 (get dist i)) (seq 0 sCount) in
  let sum := Fsum raw in
  if (0 <? sum)%float then map (fun v => (v / sum)%float) raw
  else replicate sCount (1 / num_of_nat (Nat.max 1 sCount))%float.

(** [acc + v] where [v] may be [undefined]. *)
Definition addUndefined (acc : float) (v : option float) : float :=
  match v with
  | Some v => (acc + v)%float
  | None => nan
  end.

(** Cumulative shares from bottom to top, the last one forced to [1]. *)
Definition allocCum (shares : list float) (order : list nat) : list float :=
  let sCount := length order in
  let sharesOrdered := map (fun s => shares !! s) order in
  let '(_, cum) :=
    for_loop 0 sCount (fun '(acc, cum) i =>
      let acc' := addUndefined acc (default None (sharesOrdered !! i)) in
      (acc', <[i := acc']> cum)) (0%float, replicate sCount 0%float) in
  <[sCount - 1 := 1%float]> cum.

(** [while (k < sCount - 1 && yFromBottom > cum[k]) k++], with the number
    of iterations left as fuel. *)
Fixpoint while_k (fuel sCount : nat) (cum : list float) (yFromBottom : float) (k : nat)
  : nat :=
  match fuel with
  | O => k
  | S fuel' =>
      if (k <? sCount - 1)%nat && (get cum k <? yFromBottom)%float
      then while_k fuel' sCount cum yFromBottom (S k)
      else k
  end.

Definition yFromBottom (r rowsForParity : nat) : float :=
  let yFromTop := ((num_of_nat r + 0.5) / num_of_nat (Nat.max 1 rowsForParity))%float in
  (1 - yFromTop)%float.

Definition allocColumn (dist : list float) (rowsForParity : nat) (order : list nat)
  : list (option nat) :=
  let sCount := length order in
  let shares := allocShares dist sCount in
  let cum := allocCum shares order in
  for_loop 0 rowsForParity (fun colAlloc r =>
    let k := while_k sCount sCount cum (yFromBottom r rowsForParity) 0 in
    <[r := order !! k]> colAlloc) (replicate rowsForParity None).

Definition buildAllocations (distTable : list (list float)) (rowsForParity : nat)
    (order : list nat) : list (option (list (option nat))) :=
  let cols := length distTable in
  for_loop 0 cols (fun allocations c =>
    let dist := default [] (distTable !! c) in
    <[c := Some (allocColumn dist rowsForParity order)]> allocations)
    (replicate cols None).

(** ** Hit test: [pointInPoly], the bounding box and the scan *)

Abbreviation point := (float * float)%type (only parsing).

(** [poly[i]] for an index inside the polygon. *)
Definition vertex (poly : list point) (i : nat) : point :=
  default (0%float, 0%float) (poly !! i).

(** One turn of the ray-casting loop. *)
Definition intersect (x y : float) (pi pj : point) : bool :=
  let '(xi, yi) := pi in
  let '(xj, yj) := pj in
  negb (Bool.eqb (y <? yi)%float (y <? yj)%float)
  && (x <? ((xj - xi) * (y - yi)) / (yj - yi) + xi)%float.

Definition pointInPoly (x y : float) (poly : list point) : bool :=
  fst (for_loop 0 (length poly) (fun '(inside, j) i =>
         let inside' :=
           if intersect x y (vertex poly i) (vertex poly j)
           then negb inside else inside in
         (inside', i))
       (false, (length poly - 1)%nat)).

Record BBox := { minX : float; minY : float; maxX : float; maxY : float }.

Record HexCell := {
  poly : list point;
  cx : float;
  cy : float;
  hc_series : nat;
  counts : list float;
  samples : float;
  bbox : option BBox;
}.

(** The [for (const [px, py] of poly)] loop of [render]. *)
Definition polyBBox (poly : list point) : BBox :=
  foldl (fun b '(px, py) =>
    let minX' := if (px <? minX b)%float then px else minX b in
    let minY' := if (py <? minY b)%float then py else minY b in
    let maxX' := if (maxX b <? px)%float then px else maxX b in
    let maxY' := if (maxY b <? py)%float then py else maxY b in
    {| minX := minX'; minY := minY'; maxX := maxX'; maxY := maxY' |})
    {| minX := infinity; minY := infinity;
       maxX := neg_infinity; maxY := neg_infinity |}
    poly.

(** [mx < b.minX || mx > b.maxX || my < b.minY || my > b.maxY] *)
Definition bboxExcludes (b : BBox) (mx my : float) : bool :=
  (mx <? minX b)%float || (maxX b <? mx)%float
  || (my <? minY b)%float || (maxY b <? my)%float.

(** The linear scan of the [mousemove] handler. *)
Fixpoint hitScan (hexCells : list HexCell) (mx my : float) : option HexCell :=
  match hexCells with
  | [] => None
  | c :: rest =>
      if match bbox c with Some b => bboxExcludes b mx my | None => false end
      then hitScan rest mx my
      else if pointInPoly mx my (poly c) then Some c
      else hitScan rest mx my
  end.

(** The same scan without the bounding-box test. *)
Fixpoint polyScan (hexCells : list HexCell) (mx my : float) : option HexCell :=
  match hexCells with
  | [] => None
  | c :: rest =>
      if pointInPoly mx my (poly c) then Some c else polyScan rest mx my
  end.

(** ** Specification vocabulary for the binary64 stages *)

(** The exact value of a finite number. *)
Definition exact (v : float) : Q :=
  match Prim2SF v with
  | S754_finite s m e => (inject_Z (signed s m) * Qpower 2 e)%Q
  | _ => 0%Q
  end.

(** A number's place in the order of binary64 numbers, as three integers
    compared one after the other: sign class, exponent and mantissa. *)
Definition SFkey (v : spec_float) : Z * Z * Z :=
  match v with
  | S754_zero _ => (0, 0, 0)
  | S754_infinity s => (if s then -2 else 2, 0, 0)
  | S754_nan => (0, 0, 0)
  | S754_finite s m e => if s then (-1, - e, Z.neg m) else (1, e, Z.pos m)
  end%Z.

Definition key_compare (a b : Z * Z * Z) : comparison :=
  match (a.1.1 ?= b.1.1)%Z with
  | Eq => match (a.1.2 ?= b.1.2)%Z with
          | Eq => (a.2 ?= b.2)%Z
          | c => c
          end
  | c => c
  end.

Definition key_lt (a b : Z * Z * Z) : Prop :=
  (a.1.1 < b.1.1 \/
   (a.1.1 = b.1.1 /\ (a.1.2 < b.1.2 \/ (a.1.2 = b.1.2 /\ a.2 < b.2))))%Z.

Definition fkey (v : float) : Z * Z * Z := SFkey (Prim2SF v).

Definition SFnan (v : spec_float) : bool :=
  match v with S754_nan => true | _ => false end.

(** Below zero. *)
Definition SFneg (v : spec_float) : bool :=
  match v with
  | S754_infinity true | S754_finite true _ _ => true
  | _ => false
  end.

(** A number that is not below zero: [+0], [-0], a positive number or
    [Infinity]. *)
Definition notNegative (v : float) : Prop :=
  is_nan v = false /\ (v <? 0)%float = false.

(** A Series Table: [sCount] series, each of the common length [L]. *)
Definition seriesTable (data : MockData) (sCount L : nat) : Prop :=
  length (md_series data) = sCount /\ length (md_values data) = L /\
  forall s ser, md_series data !! s = Some ser -> length (values ser) = L.

(** The value of one series at one sample, clamped to [>= 0]. *)
Definition clampedValue (ser : MockSeries) (i : nat) : float :=
  Math_max 0%float (get (values ser) i).

(** The sum over all series of the clamped values at sample [i], added up
    in series order. *)
Definition sampleSum (data : MockData) (i : nat) : float :=
  Fsum (map (fun ser => clampedValue ser i) (md_series data)).

(** The [seriesVals] table of [transformToMock]. *)
Definition seriesVals_of (data : MockData) : list (list float) :=
  map (fun s => map clamp0 (values s)) (md_series data).

Definition normShare (seriesVals : list (list float)) (s i : nat) : float :=
  let sum := Fsum (column seriesVals i) in
  if (sum <=? 0)%float then (1 / num_of_nat (length seriesVals))%float
  else (get2 seriesVals s i / sum)%float.

(** What [aggregateBins] accumulates for series [s] over the samples
    [lo .. hi - 1], and the row it leaves for one bin. *)
Definition binRaw (data : Mock) (lo hi s : nat) : float :=
  for_loop lo hi (fun acc i => (acc + clamp0 (get2 (series data) s i))%float) 0%float.

Definition binRow (data : Mock) (lo hi : nat) : list float :=
  let sCount := length (series data) in
  let sum := for_loop 0 sCount (fun sum s => (sum + binRaw data lo hi s)%float) 0%float in
  map (fun s => if (sum <=? 0)%float then (1 / num_of_nat sCount)%float
                else (binRaw data lo hi s / sum)%float) (seq 0 sCount).

(** The sample window of bin [b]: [floor(b * binSize + offset)] to
    [ceil((b + 1) * binSize + offset)], evaluated in binary64, both ends
    clamped to [0 .. L]. *)
Definition clampIndex (L : nat) (z : Z) : nat :=
  Z.to_nat (Z.min (Z.of_nat L) (Z.max 0 z)).

Definition windowLo (L columns : nat) (odd : bool) (b : nat) : nat :=
  clampIndex L (Math_floor (num_of_nat b * binSize L columns
                            + binOffset L columns odd)%float).

Definition windowHi (L columns : nat) (odd : bool) (b : nat) : nat :=
  clampIndex L (Math_ceil (num_of_nat (b + 1) * binSize L columns
                           + binOffset L columns odd)%float).

(** The sum of series [s]'s shares, each clamped at [0], over the samples
    [lo .. hi - 1], and the sum of these sums over all series. *)
Definition windowShare (m : list (list float)) (lo hi s : nat) : float :=
  Fsum (map (fun i => clamp0 (get2 m s i)) (seq lo (hi - lo))).

Definition windowTotal (m : list (list float)) (lo hi : nat) : float :=
  Fsum (map (windowShare m lo hi) (seq 0 (length m))).

(** A series' total share: the entries of its column in the even table,
    then in the odd one, added up in this order. *)
Definition totalShare (binsEven binsOdd : list (list float)) (s : nat) : float :=
  foldl (fun t col => (t + orZero (col !! s))%float)
    (foldl (fun t col => (t + orZero (col !! s))%float) 0%float binsEven) binsOdd.

(** The same total without rounding: the sum of the exact values of the
    entries. *)
Definition exactTotal (binsEven binsOdd : list (list float)) (s : nat) : Q :=
  Qsum (map (fun col => exact (orZero (col !! s))) (binsEven ++ binsOdd)).

(** [a] is ranked before [b] under the totals [t]: the larger total first,
    and the smaller index first among equal totals. *)
Definition ranksBefore (t : nat -> float) (a b : nat) : Prop :=
  (t b <? t a)%float = true \/ ((t a =? t b)%float = true /\ (a < b)%nat).

(** A table without an entry below zero; [NaN] entries are allowed, they
    count as [0] in the totals. *)
Definition noNegativeEntry (bins : list (list float)) : Prop :=
  forall col v, col ∈ bins -> v ∈ col -> (v <? 0)%float = false.

(** The cumulative vector over [order] of a vector of shares, summed from
    the bottom up to position [k], the last entry being exactly [1]. *)
Definition cumulativeShare (shares : list float) (order : list nat) (k : nat) : float :=
  if (k =? length order - 1)%nat then 1%float
  else foldl addUndefined 0%float (map (fun s => shares !! s) (take (S k) order)).

(** The index [j] that the ray-casting loop pairs with [i]. *)
Definition prevIndex (n i : nat) : nat :=
  if (i =? 0)%nat then (n - 1)%nat else (i - 1)%nat.

(** A hex cell whose bounding box, when it has one, is the one [render]
    computes from its polygon. *)
Definition bboxOfPoly (c : HexCell) : Prop :=
  bbox c = None \/ bbox c = Some (polyBBox (poly c)).





(** ** Sample inputs *)

(** Three series of one sample each, with the raw values [1], [4], [1]. *)
Definition sampleTable : MockData :=
  {| md_values := [0%float];
     md_series := [ {| name := "a"; values := [1%float] |};
                    {| name := "b"; values := [4%float] |};
                    {| name := "c"; values := [1%float] |} ] |}.

(** Three series with the raw values [0.1], [0.2], [0.3]. *)
Definition sampleTenths : MockData :=
  {| md_values := [0%float];
     md_series := [ {| name := "a"; values := [0x1.999999999999ap-4%float] |};
                    {| name := "b"; values := [0x1.999999999999ap-3%float] |};
                    {| name := "c"; values := [0x1.3333333333333p-2%float] |} ] |}.



(** Two series over four samples. *)
Definition sampleShares : Mock :=
  {| x := [0; 1; 2; 3]%float;
     series := [[1; 1; 0; 0.25]; [0; 0; 1; 0.75]]%float |}.

(** A hexagon around the origin. *)
Definition sampleHexagon : list point :=
  [(4, 0); (2, 3); (-2, 3); (-4, 0); (-2, -3); (2, -3)]%float.




(** Three bins in which series 0 and series 1 have the same three shares,
    [0.3], [0.2] and [0.1], met in opposite orders. *)
Definition sampleTies : list (list float) :=
  [[0x1.3333333333333p-2; 0x1.999999999999ap-4; 0x1.3333333333333p-1];
   [0x1.999999999999ap-3; 0x1.999999999999ap-3; 0x1.3333333333333p-1];
   [0x1.999999999999ap-4; 0x1.3333333333333p-2; 0x1.3333333333333p-1]]%float.

End B64.

(** * Properties *)

(** A lookup past the end of a table built with [replicate], [map] or
    [seq] finds nothing. *)
Ltac beyond :=
  rewrite ?lookup_seq_ge by lia;
  rewrite ?lookup_ge_None_2
    by (rewrite ?length_replicate, ?length_map, ?length_seq; lia);
  done.

(** ** Comparisons as booleans *)

Lemma Qle_bool_false (a b : Q) : Qle_bool a b = false -> (b < a)%Q.
Proof.
  intros H. apply Qnot_le_lt. rewrite <- Qle_bool_iff, H. done.
Qed.

(** ** Loops over array slots *)

Section Loops.
Context {A : Type}.
Implicit Types (l m : list A) (body : list A -> nat -> list A).

Lemma for_loop_nil {S : Type} (lo : nat) (body : S -> nat -> S) (st : S) :
  for_loop lo lo body st = st.
Proof. unfold for_loop. by rewrite Nat.sub_diag. Qed.

Lemma for_loop_S {S : Type} (lo hi : nat) (body : S -> nat -> S) (st : S) :
  lo <= hi -> for_loop lo (Datatypes.S hi) body st = body (for_loop lo hi body st) hi.
Proof.
  intros Hle. unfold for_loop.
  replace (Datatypes.S hi - lo) with (Datatypes.S (hi - lo)) by lia.
  rewrite seq_S, foldl_app. simpl. do 2 f_equal. lia.
Qed.

Lemma for_loop_ext {S : Type} (lo hi : nat) (f g : S -> nat -> S) (st : S) :
  (forall s i, lo <= i < hi -> f s i = g s i) ->
  for_loop lo hi f st = for_loop lo hi g st.
Proof.
  intros Hfg. unfold for_loop.
  assert (Hin : forall i, i ∈ seq lo (hi - lo) -> lo <= i < hi).
  { intros i Hi. apply elem_of_seq in Hi. lia. }
  revert st Hin. induction (seq lo (hi - lo)) as [|i idxs IH]; intros st Hin; [done|].
  simpl. rewrite Hfg by (apply Hin; left).
  apply IH. intros j Hj. apply Hin. by right.
Qed.

Lemma alter_as_insert (g : A -> A) l i a :
  l !! i = Some a -> alter g i l = <[i := g a]> l.
Proof.
  intros Hi. apply list_eq. intros j.
  destruct (decide (i = j)) as [<-|Hne].
  - rewrite list_lookup_alter_eq, Hi. simpl.
    by rewrite list_lookup_insert_eq by (by eapply lookup_lt_Some).
  - by rewrite list_lookup_alter_ne, list_lookup_insert_ne.
Qed.

(** A loop whose turn [k] rewrites slot [k] from its own content. *)
Lemma loop_slots body (F : nat -> A -> A) m n :
  (forall k m' a, k < n -> m !! k = Some a -> m' !! k = Some a ->
                  body m' k = <[k := F k a]> m') ->
  n <= length m ->
  forall j, for_loop 0 n body m !! j
            = if decide (j < n) then F j <$> m !! j else m !! j.
Proof.
  intros Hbody. induction n as [|n IH]; intros Hn j.
  - rewrite for_loop_nil. by case_decide; [lia|].
  - rewrite for_loop_S by lia.
    assert (IH' := IH ltac:(intros; apply Hbody; [lia|done..]) ltac:(lia)).
    destruct (lookup_lt_is_Some_2 m n ltac:(lia)) as [a Ha].
    assert (Hn' : for_loop 0 n body m !! n = Some a).
    { rewrite IH'. by case_decide; [lia|]. }
    rewrite (Hbody _ _ a) by (lia || done).
    destruct (decide (j = n)) as [->|Hne].
    + rewrite list_lookup_insert_eq by (by eapply lookup_lt_Some).
      rewrite Ha. by case_decide; [|lia].
    + rewrite list_lookup_insert_ne by done. rewrite IH'.
      repeat case_decide; try lia; done.
Qed.

Lemma loop_slots_all body (F : nat -> A -> A) m n :
  (forall k m' a, k < n -> m !! k = Some a -> m' !! k = Some a ->
                  body m' k = <[k := F k a]> m') ->
  length m = n ->
  forall j, for_loop 0 n body m !! j = F j <$> m !! j.
Proof.
  intros Hbody Hlen j. rewrite (loop_slots body F) by (done || lia).
  case_decide; [done|]. by rewrite lookup_ge_None_2 by lia.
Qed.

Lemma lookup_fmap_length (g : nat -> A -> A) l l' :
  (forall j, l' !! j = g j <$> l !! j) -> length l' = length l.
Proof.
  intros H.
  destruct (Nat.lt_trichotomy (length l') (length l)) as [Hlt|[->|Hlt]]; [|done|].
  - destruct (lookup_lt_is_Some_2 l (length l') Hlt) as [a Ha].
    specialize (H (length l')). rewrite Ha, lookup_ge_None_2 in H by lia. done.
  - destruct (lookup_lt_is_Some_2 l' (length l) Hlt) as [a Ha].
    specialize (H (length l)). rewrite Ha, lookup_ge_None_2 in H by lia. done.
Qed.

(** A loop whose every turn maps all slots: each slot sees its own fold. *)
Lemma loop_pointwise (body : list A -> nat -> list A) (G : nat -> nat -> A -> A)
    (len lo hi : nat) m :
  (forall i m', length m' = len -> forall j, body m' i !! j = G i j <$> m' !! j) ->
  length m = len ->
  forall j, for_loop lo hi body m !! j
            = (fun a => for_loop lo hi (fun a i => G i j a) a) <$> m !! j.
Proof.
  intros Hbody. unfold for_loop. generalize (seq lo (hi - lo)) as idxs.
  intros idxs. revert m. induction idxs as [|i idxs IH]; intros m Hlen j; simpl.
  - by destruct (m !! j).
  - rewrite IH.
    + rewrite Hbody by done. by destruct (m !! j).
    + rewrite <- Hlen. eapply (lookup_fmap_length (G i)). by apply Hbody.
Qed.
End Loops.

(** ** Sums of numbers *)

Lemma foldl_Qplus_acc (a : Q) (l : list Q) : (foldl Qplus a l == a + Qsum l)%Q.
Proof.
  unfold Qsum. revert a. induction l as [|v l IH]; intros a; simpl.
  - ring.
  - rewrite (IH (a + v)%Q), (IH (0 + v)%Q). ring.
Qed.

Lemma Qsum_cons (v : Q) (l : list Q) : (Qsum (v :: l) == v + Qsum l)%Q.
Proof. unfold Qsum at 1. simpl. rewrite foldl_Qplus_acc. ring. Qed.

Lemma Qsum_snoc (l : list Q) (v : Q) : Qsum (l ++ [v]) = (Qsum l + v)%Q.
Proof. unfold Qsum. by rewrite foldl_snoc. Qed.

Lemma Qsum_nonneg (l : list Q) : Forall (fun v => 0 <= v)%Q l -> (0 <= Qsum l)%Q.
Proof.
  induction 1 as [|v l Hv _ IH]; [done|]. rewrite Qsum_cons. lra.
Qed.

Lemma Qsum_map_div (c : Q) (l : list Q) :
  (Qsum (map (fun v => v / c) l) == Qsum l / c)%Q.
Proof.
  induction l as [|v l IH]; simpl.
  - unfold Qsum, Qdiv. simpl. ring.
  - rewrite !Qsum_cons, IH. unfold Qdiv. ring.
Qed.

Lemma Qsum_map_const {B : Type} (c : Q) (l : list B) :
  (Qsum (map (fun _ => c) l) == num_of_nat (length l) * c)%Q.
Proof.
  induction l as [|v l IH]; simpl length; simpl map.
  - unfold Qsum. simpl. unfold num_of_nat. simpl. ring.
  - rewrite Qsum_cons, IH. unfold num_of_nat.
    rewrite Nat2Z.inj_succ, <- Z.add_1_r, inject_Z_plus. ring.
Qed.

Lemma num_of_nat_pos (n : nat) : (1 <= n)%nat -> (0 < num_of_nat n)%Q.
Proof.
  intros Hn. unfold num_of_nat. change 0%Q with (inject_Z 0).
  rewrite <- Zlt_Qlt. lia.
Qed.

(** The [sum += a[s]] loop is the sum of the list it reads. *)
Lemma for_loop_sum_from (g : nat -> Q) (l : list Q) (a : Q) :
  (forall s v, l !! s = Some v -> g s = v) ->
  for_loop 0 (length l) (fun sum s => (sum + g s)%Q) a = foldl Qplus a l.
Proof.
  induction l as [|v l IH] using rev_ind; intros Hg.
  - by rewrite for_loop_nil.
  - rewrite length_app. simpl. rewrite Nat.add_1_r, for_loop_S by lia.
    rewrite IH, foldl_snoc.
    + f_equal. apply Hg. rewrite lookup_app_r by lia.
      by rewrite Nat.sub_diag.
    + intros s w Hs. apply Hg. rewrite lookup_app_l; [done|].
      by eapply lookup_lt_Some.
Qed.

Lemma for_loop_sum (g : nat -> Q) (l : list Q) :
  (forall s v, l !! s = Some v -> g s = v) ->
  for_loop 0 (length l) (fun sum s => (sum + g s)%Q) 0%Q = Qsum l.
Proof. apply for_loop_sum_from. Qed.

Lemma clamp0_nonneg (v : Q) : (0 <= clamp0 v)%Q.
Proof. apply Q.le_max_l. Qed.

Lemma clamp0_id (v : Q) : (0 <= v)%Q -> (clamp0 v == v)%Q.
Proof. apply Q.max_r. Qed.

(** ** Tables filled slot by slot *)

Lemma set2_as_insert (m : list (list Q)) (r c : nat) (v : Q) (row : list Q) :
  m !! r = Some row -> set2 m r c v = <[r := <[c := v]> row]> m.
Proof. intros Hr. unfold set2. by apply alter_as_insert. Qed.

Lemma fill_row (f : nat -> Q) (C : nat) :
  for_loop 0 C (fun row i => <[i := f i]> row) (replicate C 0%Q) = map f (seq 0 C).
Proof.
  apply list_eq. intros i.
  rewrite (loop_slots_all _ (fun i _ => f i)); [|done|by rewrite length_replicate].
  rewrite list_lookup_fmap.
  destruct (decide (i < C)) as [Hi|Hi].
  - rewrite lookup_replicate_2, lookup_seq_lt by lia. reflexivity.
  - beyond.
Qed.

Lemma fill_by_columns (f : nat -> nat -> Q) (R C : nat) :
  for_loop 0 C (fun m i => for_loop 0 R (fun m s => set2 m s i (f s i)) m)
    (replicate R (replicate C 0%Q))
  = map (fun s => map (fun i => f s i) (seq 0 C)) (seq 0 R).
Proof.
  apply list_eq. intros s.
  rewrite (loop_pointwise _ (fun i s row => <[i := f s i]> row) R);
    [| |by rewrite length_replicate].
  - rewrite list_lookup_fmap.
    destruct (decide (s < R)) as [Hs|Hs].
    + rewrite lookup_replicate_2, lookup_seq_lt by done. simpl.
      by rewrite fill_row.
    + beyond.
  - intros i m' Hlen j.
    apply (loop_slots_all _ (fun s row => <[i := f s i]> row)); [|done].
    intros k m'' a _ _ Hk. by apply set2_as_insert.
Qed.

Lemma get2_lookup (m : list (list Q)) (r c : nat) (row : list Q) :
  m !! r = Some row -> get2 m r c = get row c.
Proof. intros Hr. unfold get2. by rewrite Hr. Qed.

Lemma column_sum_loop (m : list (list Q)) (i : nat) :
  for_loop 0 (length m) (fun sum s => (sum + get2 m s i)%Q) 0%Q = Qsum (column m i).
Proof.
  rewrite <- (for_loop_sum (fun s => get2 m s i) (column m i)).
  - unfold column. by rewrite length_map.
  - intros s v. unfold column. rewrite list_lookup_fmap.
    destruct (m !! s) as [row|] eqn:Hs; [|done].
    simpl. intros [= <-]. by apply get2_lookup.
Qed.

(** ** Normalizer *)

Lemma transformToMock_closed (data : MockData) (sCount L : nat) :
  seriesTable data sCount L -> (1 <= sCount)%nat ->
  transformToMock data
  = Ok ({| x := map num_of_nat (seq 0 L);
           series := map (fun s => map (fun i => normShare (seriesVals_of data) s i)
                                       (seq 0 L)) (seq 0 sCount) |},
        map name (md_series data)).
Proof.
  intros (Hs & Hl & Hlen) Hpos. unfold transformToMock.
  rewrite Hs, Hl.
  destruct (Nat.eqb_spec sCount 0) as [?|_]; [lia|].
  assert (Hall : forallb (fun s => (length (values s) =? L)%nat) (md_series data) = true).
  { apply forallb_forall. intros ser Hin. apply Nat.eqb_eq.
    apply list_elem_of_In, list_elem_of_lookup in Hin as [s Hin]. eauto. }
  rewrite Hall. simpl. do 3 f_equal.
  rewrite <- fill_by_columns. apply for_loop_ext. intros m i _.
  fold (seriesVals_of data).
  assert (Hn : length (seriesVals_of data) = sCount).
  { unfold seriesVals_of. by rewrite length_map. }
  assert (Hsum : for_loop 0 sCount
                    (fun sum s => (sum + get2 (seriesVals_of data) s i)%Q) 0%Q
                  = Qsum (column (seriesVals_of data) i)).
  { rewrite <- Hn. apply column_sum_loop. }
  rewrite !Hsum. unfold normShare. rewrite Hn.
  destruct (Qle_bool (Qsum (column (seriesVals_of data) i)) 0); done.
Qed.

(** Dividing by the total, or falling back to equal parts, gives parts
    that add up to one. *)
Lemma normalize_sum (l : list Q) :
  (1 <= length l)%nat ->
  (Qsum (map (fun v => if Qle_bool (Qsum l) 0
                       then 1 / num_of_nat (length l) else v / Qsum l) l) == 1)%Q.
Proof.
  intros Hn. destruct (Qle_bool (Qsum l) 0) eqn:Hle.
  - rewrite Qsum_map_const. pose proof (num_of_nat_pos _ Hn). field. lra.
  - rewrite Qsum_map_div.
    apply Qle_bool_false in Hle. field. lra.
Qed.

Lemma map_seq_lookup {B : Type} (d : B) (f : nat -> B) (l : list B) :
  (forall s v, l !! s = Some v -> f s = v) ->
  map f (seq 0 (length l)) = l.
Proof.
  intros Hf. apply list_eq. intros s. rewrite list_lookup_fmap.
  destruct (l !! s) as [v|] eqn:Hs.
  - rewrite lookup_seq_lt by (by eapply lookup_lt_Some). simpl. f_equal. by apply Hf.
  - rewrite lookup_seq_ge; [done|]. by apply lookup_ge_None.
Qed.

(** ** Smoothing *)

(** C7, as the code has it.  [movingAverage] hands back its input
    unchanged for every window of at most one sample. *)
Theorem movingAverage_window_le_1 (arr : list Q) (windowSamples : Z) :
  (windowSamples <= 1)%Z -> movingAverage arr windowSamples = arr.
Proof.
  intros Hw. unfold movingAverage.
  destruct (Z.leb_spec windowSamples 1) as [_|Hgt]; [reflexivity|lia].
Qed.

Lemma movingAverage_window_le_1_witness :
  movingAverage [0; 3]%Q 1 = [0; 3]%Q.
Proof. apply (movingAverage_window_le_1 [0; 3]%Q 1). lia. Defined.

(** C7, as stated, fails at window size 2: the half-width is then
    [floor(2 / 2) = 1] and every sample is averaged with its neighbours. *)
Lemma movingAverage_window_2_changes :
  (2 <= 2)%Z /\
  movingAverage [0; 3]%Q 2 = [3 # 2; 3 # 2]%Q /\
  movingAverage [0; 3]%Q 2 <> [0; 3]%Q.
Proof. split; [lia|]. split; [reflexivity|discriminate]. Qed.

(** ** Global order: the sort *)

Section Sort.
Variable t : nat -> Q.
Let cmp (a b : nat) : Q := (t b - t a)%Q.

Lemma sort_insert_perm (v : nat) (l : list nat) : sort_insert cmp v l ≡ₚ v :: l.
Proof.
  induction l as [|u l IH]; simpl; [done|].
  destruct (Qltb (cmp v u) 0); [done|].
  rewrite IH. apply Permutation_swap.
Qed.

Lemma Array_sort_perm (l : list nat) : Array_sort cmp l ≡ₚ l.
Proof.
  unfold Array_sort.
  enough (H : forall acc, foldl (fun sorted v => sort_insert cmp v sorted) acc l ≡ₚ l ++ acc).
  { rewrite H. by rewrite app_nil_r. }
  induction l as [|v l IH]; intros acc; simpl; [done|].
  rewrite IH, sort_insert_perm. by rewrite Permutation_middle.
Qed.

Lemma StronglySorted_lookup {B : Type} (R : relation B) (l : list B) (i j : nat) (a b : B) :
  StronglySorted R l -> (i < j)%nat ->
  l !! i = Some a -> l !! j = Some b -> R a b.
Proof.
  intros Hs. revert i j. induction Hs as [|u l Hl IH Hu]; intros i j Hij Hi Hj.
  - done.
  - destruct j as [|j]; [lia|]. simpl in Hj.
    destruct i as [|i]; simpl in Hi.
    + injection Hi as ->. eapply Forall_forall in Hu; [done|].
      by eapply list_elem_of_lookup_2.
    + apply (IH i j); [lia|done..].
Qed.
End Sort.

(** ** Global order: the totals *)

Lemma computeGlobalOrder_perm (binsEven binsOdd : list (list Q)) (sCount : nat) :
  computeGlobalOrder binsEven binsOdd sCount ≡ₚ seq 0 sCount.
Proof. unfold computeGlobalOrder. apply Array_sort_perm. Qed.

Lemma computeGlobalOrder_length (binsEven binsOdd : list (list Q)) (sCount : nat) :
  length (computeGlobalOrder binsEven binsOdd sCount) = sCount.
Proof. by rewrite computeGlobalOrder_perm, length_seq. Qed.

(** ** Binning Engine *)

(** Turns of a loop that all rewrite the same slot. *)
Lemma loop_alter_row {B : Type} (g : nat -> B -> B) (b lo hi : nat) (m : list B) :
  for_loop lo hi (fun m k => alter (g k) b m) m
  = alter (fun row => for_loop lo hi (fun row k => g k row) row) b m.
Proof.
  unfold for_loop. generalize (seq lo (hi - lo)) as idxs. intros idxs.
  revert m. induction idxs as [|k idxs IH]; intros m; simpl.
  - apply list_eq. intros j. rewrite list_lookup_alter.
    case_decide; [subst; by destruct (m !! j)|done].
  - by rewrite IH, list_alter_alter_eq.
Qed.

Lemma set2_self (m : list (list Q)) (b s : nat) (sum : Q) :
  set2 m b s (get2 m b s / sum)%Q
  = alter (fun row => <[s := (get row s / sum)%Q]> row) b m.
Proof.
  unfold set2, get2. apply list_eq. intros j. rewrite !list_lookup_alter.
  case_decide; [|done]. by destruct (m !! b).
Qed.

Lemma accumulate_row (v : nat -> nat -> Q) (sCount lo hi : nat) (row : list Q) (s : nat) :
  length row = sCount ->
  for_loop lo hi (fun row i =>
    for_loop 0 sCount (fun row s => alter (fun x => (x + v s i)%Q) s row) row) row !! s
  = (fun x => for_loop lo hi (fun x i => (x + v s i)%Q) x) <$> row !! s.
Proof.
  intros Hlen.
  apply (loop_pointwise _ (fun i s x => (x + v s i)%Q) sCount); [|done].
  intros i row' Hlen' j.
  apply (loop_slots_all _ (fun s x => (x + v s i)%Q)); [|done].
  intros k row'' a _ _ Hk.
  by apply (alter_as_insert (fun x => (x + v k i)%Q)).
Qed.

Lemma normalize_row (sum : Q) (sCount : nat) (row : list Q) (s : nat) :
  length row = sCount ->
  for_loop 0 sCount (fun row s => <[s := (get row s / sum)%Q]> row) row !! s
  = (fun x => (x / sum)%Q) <$> row !! s.
Proof.
  intros Hlen. apply (loop_slots_all _ (fun _ x => (x / sum)%Q)); [|done].
  intros k row' a _ _ Hk. unfold get. by rewrite Hk.
Qed.

Lemma uniform_row (v : Q) (sCount : nat) (row : list Q) (s : nat) :
  length row = sCount ->
  for_loop 0 sCount (fun row s => <[s := v]> row) row !! s
  = (fun _ => v) <$> row !! s.
Proof.
  intros Hlen. by apply (loop_slots_all _ (fun _ _ => v)).
Qed.

(** One turn of the outer loop of [aggregateBins], for a table that has a
    row of zeros at [b]. *)
Lemma aggregateBins_turn (data : Mock) (lo hi b : nat) (bins : list (list Q)) :
  let sCount := length (series data) in
  bins !! b = Some (replicate sCount 0%Q) ->
  (let bins1 :=
     for_loop lo hi (fun bins i =>
       for_loop 0 sCount (fun bins s =>
         let v := clamp0 (get2 (series data) s i) in
         add2 bins b s v) bins) bins in
   let sum := for_loop 0 sCount (fun sum s => (sum + get2 bins1 b s)%Q) 0%Q in
   if Qle_bool sum 0 then
     let v := (1 / num_of_nat sCount)%Q in
     for_loop 0 sCount (fun bins s => set2 bins b s v) bins1
   else
     for_loop 0 sCount (fun bins s => set2 bins b s (get2 bins b s / sum)%Q) bins1)
  = <[b := binRow data lo hi]> bins.
Proof.
  intros sCount Hb. cbv zeta.
  set (v := fun s i => clamp0 (get2 (series data) s i)).
  set (acc := fun row : list Q =>
         for_loop lo hi (fun row i =>
           for_loop 0 sCount (fun row s => alter (fun x => (x + v s i)%Q) s row) row) row).
  assert (Hbins1 :
    for_loop lo hi (fun bins i =>
      for_loop 0 sCount (fun bins s => add2 bins b s (clamp0 (get2 (series data) s i))) bins)
      bins
    = <[b := acc (replicate sCount 0%Q)]> bins).
  { transitivity (alter acc b bins); [|by apply alter_as_insert].
    unfold acc.
    rewrite <- (loop_alter_row (fun i row =>
      for_loop 0 sCount (fun row s => alter (fun x => (x + v s i)%Q) s row) row)).
    apply for_loop_ext. intros m i _.
    apply (loop_alter_row (fun s row => alter (fun x => (x + v s i)%Q) s row)). }
  rewrite Hbins1.
  assert (Hacc : forall s, (s < sCount)%nat ->
            acc (replicate sCount 0%Q) !! s = Some (binRaw data lo hi s)).
  { intros s Hs. unfold acc.
    rewrite (accumulate_row v sCount) by (by rewrite length_replicate).
    by rewrite lookup_replicate_2. }
  assert (Hlen : length (acc (replicate sCount 0%Q)) = sCount).
  { unfold acc. erewrite (lookup_fmap_length (fun s x => for_loop lo hi (fun x i => (x + v s i)%Q) x)).
    - apply length_replicate.
    - intros j. apply accumulate_row, length_replicate. }
  assert (Hin : (b < length bins)%nat) by (by eapply lookup_lt_Some).
  assert (Hrow1 : <[b := acc (replicate sCount 0%Q)]> bins !! b
                  = Some (acc (replicate sCount 0%Q))).
  { by apply list_lookup_insert_eq. }
  assert (Hsum :
    for_loop 0 sCount (fun sum s =>
      (sum + get2 (<[b := acc (replicate sCount 0%Q)]> bins) b s)%Q) 0%Q
    = for_loop 0 sCount (fun sum s => (sum + binRaw data lo hi s)%Q) 0%Q).
  { apply for_loop_ext. intros sum s [_ Hs]. f_equal.
    rewrite (get2_lookup _ _ _ _ Hrow1). unfold get. by rewrite Hacc. }
  rewrite Hsum.
  set (sum := for_loop 0 sCount (fun sum s => (sum + binRaw data lo hi s)%Q) 0%Q).
  assert (Hfinal : forall F : list Q -> list Q,
    (forall s, F (acc (replicate sCount 0%Q)) !! s
               = (binRow data lo hi) !! s) ->
    alter F b (<[b := acc (replicate sCount 0%Q)]> bins) = <[b := binRow data lo hi]> bins).
  { intros F HF. rewrite (alter_as_insert F _ b _ Hrow1).
    rewrite list_insert_insert_eq. f_equal. apply list_eq, HF. }
  destruct (Qle_bool sum 0) eqn:Hle.
  - rewrite (for_loop_ext _ _ _
       (fun bins s => alter (fun row => <[s := (1 / num_of_nat sCount)%Q]> row) b bins))
      by done.
    rewrite (loop_alter_row (fun s row => <[s := (1 / num_of_nat sCount)%Q]> row)).
    apply Hfinal. intros s. rewrite uniform_row by done.
    unfold binRow. fold sCount. fold sum. rewrite Hle, list_lookup_fmap.
    destruct (decide (s < sCount)%nat) as [Hs|Hs].
    + by rewrite Hacc, lookup_seq_lt.
    + beyond.
  - rewrite (for_loop_ext _ _ _
       (fun bins s => alter (fun row => <[s := (get row s / sum)%Q]> row) b bins))
      by (intros; apply set2_self).
    rewrite (loop_alter_row (fun s row => <[s := (get row s / sum)%Q]> row)).
    apply Hfinal. intros s. rewrite normalize_row by done.
    unfold binRow. fold sCount. fold sum. rewrite Hle, list_lookup_fmap.
    destruct (decide (s < sCount)%nat) as [Hs|Hs].
    + by rewrite Hacc, lookup_seq_lt.
    + beyond.
Qed.

Lemma aggregateBins_closed (data : Mock) (columns : nat) (shiftHalfBin : bool) :
  aggregateBins data columns shiftHalfBin
  = map (fun b => binRow data
                    (binStart (length (x data)) columns shiftHalfBin b)
                    (binEnd (length (x data)) columns shiftHalfBin b))
        (seq 0 columns).
Proof.
  unfold aggregateBins. apply list_eq. intros b.
  rewrite (loop_slots_all _ (fun b _ => binRow data
                    (binStart (length (x data)) columns shiftHalfBin b)
                    (binEnd (length (x data)) columns shiftHalfBin b)));
    [| |by rewrite length_replicate].
  - rewrite list_lookup_fmap.
    destruct (decide (b < columns)%nat) as [Hb|Hb].
    + by rewrite lookup_replicate_2, lookup_seq_lt.
    + beyond.
  - intros k bins a Hk Ha Hbins.
    apply lookup_replicate in Ha as [-> _].
    by apply aggregateBins_turn.
Qed.

(** *** The window of a bin *)

Lemma num_of_nat_nonneg (n : nat) : (0 <= num_of_nat n)%Q.
Proof.
  unfold num_of_nat. change 0%Q with (inject_Z 0). rewrite <- Zle_Qle. lia.
Qed.

Lemma num_of_nat_le (n m : nat) : (n <= m)%nat -> (num_of_nat n <= num_of_nat m)%Q.
Proof. intros H. unfold num_of_nat. rewrite <- Zle_Qle. lia. Qed.

Lemma num_of_nat_S (n : nat) : (num_of_nat (S n) == num_of_nat n + 1)%Q.
Proof.
  unfold num_of_nat. rewrite Nat2Z.inj_succ, <- Z.add_1_r, inject_Z_plus. reflexivity.
Qed.

Lemma binSize_nonneg (L columns : nat) : (0 <= binSize L columns)%Q.
Proof.
  unfold binSize, Qdiv. apply Qmult_le_0_compat; [apply num_of_nat_nonneg|].
  apply Qinv_le_0_compat, num_of_nat_nonneg.
Qed.

Lemma binSize_columns (L columns : nat) :
  (1 <= columns)%nat -> (binSize L columns * num_of_nat columns == num_of_nat L)%Q.
Proof.
  intros Hc. pose proof (num_of_nat_pos _ Hc). unfold binSize. field. lra.
Qed.

Lemma parityOffset_eq (L columns : nat) (odd : bool) :
  (binOffset L columns odd == parityOffset L columns odd)%Q.
Proof.
  unfold binOffset, parityOffset. destruct odd; [|reflexivity].
  unfold Qdiv. reflexivity.
Qed.

Lemma parityOffset_bounds (L columns : nat) (odd : bool) :
  (0 <= parityOffset L columns odd
   /\ parityOffset L columns odd <= binSize L columns / 2)%Q.
Proof.
  pose proof (binSize_nonneg L columns). unfold parityOffset.
  destruct odd; cbv beta iota; unfold Qdiv; change (/ 2)%Q with (1 # 2)%Q;
    split; lra.
Qed.

(** *** Bins as renormalised window sums *)

Lemma for_loop_Qsum (g : nat -> Q) (lo hi : nat) :
  for_loop lo hi (fun acc i => (acc + g i)%Q) 0%Q = Qsum (map g (seq lo (hi - lo))).
Proof. unfold for_loop, Qsum. symmetry. apply (foldl_fmap Qplus). Qed.

Lemma Qsum_map_Qeq {B : Type} (f g : B -> Q) (l : list B) :
  (forall v, v ∈ l -> (f v == g v)%Q) -> (Qsum (map f l) == Qsum (map g l))%Q.
Proof.
  induction l as [|v l IH]; intros Hfg; simpl; [reflexivity|].
  assert (Hv : (f v == g v)%Q) by (apply Hfg; by left).
  assert (Hl : (Qsum (map f l) == Qsum (map g l))%Q)
    by (apply IH; intros; apply Hfg; by right).
  rewrite !Qsum_cons, Hv, Hl. reflexivity.
Qed.

Lemma get_nonneg (row : list Q) (i : nat) :
  Forall (fun v => (0 <= v)%Q) row -> (0 <= get row i)%Q.
Proof.
  intros Hrow. unfold get. destruct (row !! i) as [v|] eqn:Hi; simpl; [|lra].
  eapply Forall_forall in Hrow; [exact Hrow|]. by eapply list_elem_of_lookup_2.
Qed.

Lemma binRow_normalized (data : Mock) (lo hi : nat) :
  let raws := map (binRaw data lo hi) (seq 0 (length (series data))) in
  binRow data lo hi
  = map (fun v => if Qle_bool (Qsum raws) 0
                  then (1 / num_of_nat (length raws))%Q else (v / Qsum raws)%Q) raws.
Proof.
  intros raws. unfold binRow. rewrite for_loop_Qsum, Nat.sub_0_r. subst raws.
  by rewrite map_map, length_map, length_seq.
Qed.

Lemma binRaw_nonneg (data : Mock) (lo hi s : nat) : (0 <= binRaw data lo hi s)%Q.
Proof.
  unfold binRaw. rewrite for_loop_Qsum. apply Qsum_nonneg, Forall_forall.
  intros v Hv. apply list_elem_of_In, in_map_iff in Hv as (i & <- & _).
  apply clamp0_nonneg.
Qed.

(** Every bin the Binning Engine returns is a distribution over the
    series, whatever the input table holds. *)
Lemma aggregateBins_distribution (data : Mock) (columns : nat) (odd : bool)
    (b : nat) (bin : list Q) :
  (1 <= length (series data))%nat ->
  aggregateBins data columns odd !! b = Some bin ->
  distribution bin (length (series data)).
Proof.
  intros Hs. rewrite aggregateBins_closed, list_lookup_fmap.
  destruct (seq 0 columns !! b) as [b'|]; [|done]. simpl. intros [= <-].
  rewrite binRow_normalized.
  set (raws := map _ (seq 0 (length (series data)))).
  assert (Hlen : length raws = length (series data))
    by (unfold raws; by rewrite length_map, length_seq).
  assert (Hraws : Forall (fun v => (0 <= v)%Q) raws).
  { apply Forall_forall. intros v Hv.
    apply list_elem_of_In, in_map_iff in Hv as (s & <- & _). apply binRaw_nonneg. }
  split; [by rewrite length_map|]. split; [|apply normalize_sum; lia].
  apply Forall_forall. intros w Hw.
  apply list_elem_of_In, in_map_iff in Hw as (v & <- & Hv).
  apply list_elem_of_In in Hv. eapply Forall_forall in Hraws; [|exact Hv].
  pose proof (num_of_nat_pos (length raws) ltac:(lia)) as Hn.
  destruct (Qle_bool (Qsum raws) 0) eqn:Hle.
  - apply Qle_shift_div_l; [done|]. lra.
  - apply Qle_bool_false in Hle. apply Qle_shift_div_l; lra.
Qed.

(** ** Accepted tables *)

Lemma transformToMock_Ok_table (data : MockData) (r : Mock * list string) :
  transformToMock data = Ok r ->
  seriesTable data (length (md_series data)) (length (md_values data))
  /\ (1 <= length (md_series data))%nat.
Proof.
  unfold transformToMock.
  destruct (Nat.eqb_spec (length (md_series data)) 0) as [?|Hne]; [done|].
  destruct (forallb _ (md_series data)) eqn:Hall; simpl; [|done].
  intros _. split; [|lia]. split; [done|]. split; [done|].
  intros s ser Hs. rewrite forallb_forall in Hall.
  apply Nat.eqb_eq, Hall, list_elem_of_In. by eapply list_elem_of_lookup_2.
Qed.

(** ** Allocation Engine *)

(** *** The [while] loop *)

Lemma Qgtb_true (y c : Q) : Qgtb y c = true <-> (c < y)%Q.
Proof.
  unfold Qgtb, Qltb. rewrite negb_true_iff, <- not_true_iff_false, Qle_bool_iff.
  split; intros H; lra.
Qed.

Lemma Qgtb_false (y c : Q) : Qgtb y c = false <-> (y <= c)%Q.
Proof.
  unfold Qgtb, Qltb. rewrite negb_false_iff, Qle_bool_iff. done.
Qed.

(** With at least [sCount - 1 - k] turns of fuel the loop stops by its own
    condition: every position it passed lies below [yFromBottom], and the
    position it stops at does not, unless it is the last one. *)
Lemma while_k_stops (fuel sCount : nat) (cum : list Q) (y : Q) (k : nat) :
  (sCount - 1 - k <= fuel)%nat -> (k <= sCount - 1)%nat ->
  let k' := while_k fuel sCount cum y k in
  (k <= k' <= sCount - 1)%nat /\
  ((k' < sCount - 1)%nat -> (y <= get cum k')%Q) /\
  (forall j, (k <= j < k')%nat -> (get cum j < y)%Q).
Proof.
  revert k. induction fuel as [|fuel IH]; intros k Hfuel Hk; simpl.
  - split; [lia|]. split; [lia|]. intros j Hj. lia.
  - destruct (Nat.ltb_spec k (sCount - 1)) as [Hlt|Hge]; simpl.
    + destruct (Qgtb y (get cum k)) eqn:Hgt.
      * destruct (IH (S k) ltac:(lia) ltac:(lia)) as (Hr & Hstop & Hpass).
        split; [lia|]. split; [done|].
        intros j Hj. destruct (decide (j = k)) as [->|Hne].
        -- by apply Qgtb_true.
        -- apply Hpass. lia.
      * split; [lia|]. split; [intros _; by apply Qgtb_false|].
        intros j Hj. lia.
    + split; [lia|]. split; [lia|]. intros j Hj. lia.
Qed.

Lemma while_k_mono (sCount : nat) (cum : list Q) (y1 y2 : Q) :
  (y2 <= y1)%Q ->
  (while_k sCount sCount cum y2 0 <= while_k sCount sCount cum y1 0)%nat.
Proof.
  intros Hy.
  destruct (while_k_stops sCount sCount cum y1 0 ltac:(lia) ltac:(lia))
    as (Hr1 & Hstop1 & _).
  destruct (while_k_stops sCount sCount cum y2 0 ltac:(lia) ltac:(lia))
    as (Hr2 & _ & Hpass2).
  cbv zeta in *.
  set (k1 := while_k sCount sCount cum y1 0) in *.
  set (k2 := while_k sCount sCount cum y2 0) in *.
  destruct (Nat.le_gt_cases k2 k1) as [?|Hlt]; [done|].
  pose proof (Hstop1 ltac:(lia)). pose proof (Hpass2 k1 ltac:(lia)). lra.
Qed.

(** *** The cumulative vector *)

Lemma cum_loop (so : list Q) (n i : nat) :
  (i <= n)%nat ->
  for_loop 0 i (fun '(acc, cum) j =>
    let acc' := (acc + get so j)%Q in (acc', <[j := acc']> cum))
    (0%Q, replicate n 0%Q)
  = (prefixSum so i,
     map (fun j => if (j <? i)%nat then prefixSum so (S j) else 0%Q) (seq 0 n)).
Proof.
  induction i as [|i IH]; intros Hi.
  - rewrite for_loop_nil. unfold prefixSum. rewrite for_loop_nil. f_equal.
    apply list_eq. intros j. rewrite list_lookup_fmap.
    destruct (decide (j < n)%nat).
    + by rewrite lookup_replicate_2, lookup_seq_lt.
    + beyond.
  - rewrite for_loop_S, IH by lia. cbv zeta.
    assert (Hacc : (prefixSum so i + get so i)%Q = prefixSum so (S i)).
    { unfold prefixSum. by rewrite (for_loop_S 0 i) by lia. }
    rewrite Hacc. f_equal.
    apply list_eq. intros j. rewrite list_lookup_fmap.
    destruct (decide (j = i)) as [->|Hne].
    + rewrite list_lookup_insert_eq by (rewrite length_map, length_seq; lia).
      rewrite lookup_seq_lt by lia. simpl.
      destruct (Nat.ltb_spec i (S i)); [done|lia].
    + rewrite list_lookup_insert_ne by done. rewrite list_lookup_fmap.
      destruct (seq 0 n !! j) as [j'|] eqn:Hj; [|done]. simpl.
      apply lookup_seq in Hj as [-> _]. simpl.
      destruct (Nat.ltb_spec j i), (Nat.ltb_spec j (S i)); try lia; done.
Qed.

Lemma allocCum_lookup (shares : list Q) (order : list nat) (k : nat) :
  (k < length order)%nat ->
  allocCum shares order !! k
  = Some (if (k =? length order - 1)%nat then 1%Q
          else prefixSum (map (fun s => get shares s) order) (S k)).
Proof.
  intros Hk. unfold allocCum. rewrite cum_loop by lia.
  destruct (Nat.eqb_spec k (length order - 1)) as [->|Hne].
  - rewrite list_lookup_insert_eq; [done|]. rewrite length_map, length_seq. lia.
  - rewrite list_lookup_insert_ne by done.
    rewrite list_lookup_fmap, lookup_seq_lt by done. simpl.
    destruct (Nat.ltb_spec k (length order)); [done|lia].
Qed.

Lemma prefixSum_take (so : list Q) (i : nat) :
  (i <= length so)%nat -> prefixSum so i = Qsum (take i so).
Proof.
  intros Hi. unfold prefixSum.
  rewrite <- (for_loop_sum (fun j => get so j) (take i so)).
  - by rewrite length_take, Nat.min_l.
  - intros j v Hj. unfold get. apply lookup_take_Some in Hj as [Hj _].
    by rewrite Hj.
Qed.

(** *** The defensive renormalisation leaves a distribution as it is *)

Lemma Qsum_clamped (dist : list Q) :
  Forall (fun v => (0 <= v)%Q) dist ->
  (Qsum (map (fun i => clamp0 (get dist i)) (seq 0 (length dist))) == Qsum dist)%Q.
Proof.
  intros Hpos.
  assert (Hmap : map (fun i => get dist i) (seq 0 (length dist)) = dist).
  { apply (map_seq_lookup 0%Q). intros s v Hs. unfold get. by rewrite Hs. }
  transitivity (Qsum (map (fun i => get dist i) (seq 0 (length dist))));
    [|by rewrite Hmap].
  apply Qsum_map_Qeq. intros i _. apply clamp0_id. by apply get_nonneg.
Qed.

Lemma allocShares_distribution (dist : list Q) (sCount s : nat) :
  distribution dist sCount -> (s < sCount)%nat ->
  (get (allocShares dist sCount) s == get dist s)%Q.
Proof.
  intros (Hlen & Hpos & Hsum) Hs. unfold allocShares. cbv zeta.
  rewrite <- Hlen.
  pose proof (Qsum_clamped dist Hpos) as Hraw.
  set (raw := map (fun i => clamp0 (get dist i)) (seq 0 (length dist))) in *.
  assert (Hgt : Qgtb (Qsum raw) 0 = true) by (apply Qgtb_true; lra).
  rewrite Hgt. unfold raw, get at 1.
  rewrite !list_lookup_fmap, lookup_seq_lt by lia. simpl.
  fold raw. rewrite Hraw, Hsum, clamp0_id by (by apply get_nonneg).
  field.
Qed.

Lemma allocCum_cumulative (dist : list Q) (order : list nat) (k : nat) :
  let sCount := length order in
  distribution dist sCount -> Forall (fun s => (s < sCount)%nat) order ->
  (k < sCount)%nat ->
  exists c, allocCum (allocShares dist sCount) order !! k = Some c
            /\ (c == cumulativeShare dist order k)%Q.
Proof.
  intros sCount Hdist Hrange Hk. eexists. split; [by apply allocCum_lookup|].
  unfold cumulativeShare. fold sCount.
  destruct (Nat.eqb_spec k (sCount - 1)); [reflexivity|].
  rewrite prefixSum_take by (rewrite length_map; lia).
  rewrite <- fmap_take. apply Qsum_map_Qeq.
  intros s Hs. apply allocShares_distribution; [done|].
  apply elem_of_take in Hs as (i & Hs & _).
  eapply Forall_forall in Hrange; [exact Hrange|]. by eapply list_elem_of_lookup_2.
Qed.

(** *** The tables [buildAllocations] returns *)

Lemma allocColumn_lookup (dist : list Q) (rows : nat) (order : list nat) (r : nat) :
  (r < rows)%nat ->
  allocColumn dist rows order !! r
  = Some (order !! while_k (length order) (length order)
                     (allocCum (allocShares dist (length order)) order)
                     (yFromBottom r rows) 0).
Proof.
  intros Hr. unfold allocColumn.
  rewrite (loop_slots_all _ (fun r _ =>
             order !! while_k (length order) (length order)
                        (allocCum (allocShares dist (length order)) order)
                        (yFromBottom r rows) 0));
    [|done|by rewrite length_replicate].
  by rewrite lookup_replicate_2.
Qed.

Lemma allocColumn_length (dist : list Q) (rows : nat) (order : list nat) :
  length (allocColumn dist rows order) = rows.
Proof.
  unfold allocColumn.
  set (F := fun r (_ : option nat) =>
             order !! while_k (length order) (length order)
                        (allocCum (allocShares dist (length order)) order)
                        (yFromBottom r rows) 0).
  rewrite (lookup_fmap_length F (replicate rows None)); [apply length_replicate|].
  intros j. apply (loop_slots_all _ F); [done|by rewrite length_replicate].
Qed.

Lemma buildAllocations_lookup (distTable : list (list Q)) (rows : nat)
    (order : list nat) (c : nat) (dist : list Q) :
  distTable !! c = Some dist ->
  buildAllocations distTable rows order !! c
  = Some (Some (allocColumn dist rows order)).
Proof.
  intros Hc. unfold buildAllocations.
  rewrite (loop_slots_all _ (fun c _ =>
             Some (allocColumn (default [] (distTable !! c)) rows order)));
    [|done|by rewrite length_replicate].
  rewrite lookup_replicate_2 by (by eapply lookup_lt_Some). simpl. by rewrite Hc.
Qed.

Lemma buildAllocations_length (distTable : list (list Q)) (rows : nat)
    (order : list nat) :
  length (buildAllocations distTable rows order) = length distTable.
Proof.
  unfold buildAllocations.
  set (F := fun c (_ : option (list (option nat))) =>
             Some (allocColumn (default [] (distTable !! c)) rows order)).
  rewrite (lookup_fmap_length F (replicate (length distTable) None));
    [apply length_replicate|].
  intros j. apply (loop_slots_all _ F); [done|by rewrite length_replicate].
Qed.

Lemma buildAllocations_column (distTable : list (list Q)) (rows : nat)
    (order : list nat) (c : nat) (colAlloc : list (option nat)) :
  buildAllocations distTable rows order !! c = Some (Some colAlloc) ->
  exists dist, distTable !! c = Some dist /\ colAlloc = allocColumn dist rows order.
Proof.
  intros Hc.
  assert (Hlt : (c < length distTable)%nat).
  { rewrite <- (buildAllocations_length distTable rows order). by eapply lookup_lt_Some. }
  destruct (lookup_lt_is_Some_2 _ _ Hlt) as [dist Hdist].
  rewrite (buildAllocations_lookup _ _ _ _ _ Hdist) in Hc.
  exists dist. split; [done|]. congruence.
Qed.

Lemma order_range (order : list nat) :
  order ≡ₚ seq 0 (length order) ->
  Forall (fun s => (s < length order)%nat) order.
Proof.
  intros Hperm. apply Forall_forall. intros s Hs.
  rewrite Hperm in Hs. apply elem_of_seq in Hs. lia.
Qed.

Lemma order_NoDup (order : list nat) :
  order ≡ₚ seq 0 (length order) -> NoDup order.
Proof. intros Hperm. rewrite Hperm. apply NoDup_seq. Qed.

Lemma yFromBottom_le_1 (r rows : nat) : (yFromBottom r rows <= 1)%Q.
Proof.
  unfold yFromBottom. cbv zeta.
  assert (0 <= (num_of_nat r + (1 # 2)) / num_of_nat (Nat.max 1 rows))%Q; [|lra].
  unfold Qdiv. pose proof (num_of_nat_nonneg r).
  apply Qmult_le_0_compat; [lra|]. apply Qinv_le_0_compat, num_of_nat_nonneg.
Qed.

Lemma yFromBottom_mono (r1 r2 rows : nat) :
  (r1 <= r2)%nat -> (yFromBottom r2 rows <= yFromBottom r1 rows)%Q.
Proof.
  intros Hr. unfold yFromBottom. cbv zeta.
  pose proof (num_of_nat_le r1 r2 Hr).
  assert ((num_of_nat r1 + (1 # 2)) / num_of_nat (Nat.max 1 rows)
          <= (num_of_nat r2 + (1 # 2)) / num_of_nat (Nat.max 1 rows))%Q; [|lra].
  unfold Qdiv. apply Qmult_le_compat_r; [lra|].
  apply Qinv_le_0_compat, num_of_nat_nonneg.
Qed.

(** *** The three properties of the Allocation Table *)

Lemma sample_order_perm : [1; 0]%nat ≡ₚ seq 0 2.
Proof. apply Permutation_swap. Qed.

Lemma sample_distribution : distribution [1 # 4; 3 # 4]%Q 2.
Proof.
  split; [reflexivity|]. split; [|reflexivity].
  repeat constructor; discriminate.
Qed.

(** C5.  Within a column, from the bottom row slot to the top one, the
    positions in [order] of the assigned series never decrease: of two row
    slots, the lower one holds a series that stands no later in [order]. *)
Theorem allocation_monotone (distTable : list (list Q)) (rows : nat)
    (order : list nat) (c : nat) (colAlloc : list (option nat))
    (r1 r2 s1 s2 p1 p2 : nat) :
  order ≡ₚ seq 0 (length order) ->
  buildAllocations distTable rows order !! c = Some (Some colAlloc) ->
  (r1 <= r2)%nat -> (r2 < rows)%nat ->
  colAlloc !! r1 = Some (Some s1) -> colAlloc !! r2 = Some (Some s2) ->
  order !! p1 = Some s1 -> order !! p2 = Some s2 ->
  (p2 <= p1)%nat.
Proof.
  intros Hperm Hc Hr Hrows H1 H2 Hp1 Hp2.
  destruct (buildAllocations_column _ _ _ _ _ Hc) as (dist & _ & ->).
  rewrite allocColumn_lookup in H1, H2 by lia.
  injection H1 as H1. injection H2 as H2.
  pose proof (order_NoDup order Hperm) as Hnd.
  rewrite (NoDup_lookup _ _ _ _ Hnd Hp1 H1), (NoDup_lookup _ _ _ _ Hnd Hp2 H2).
  apply while_k_mono. by apply yFromBottom_mono.
Qed.

Lemma allocation_monotone_witness :
  buildAllocations sampleBins 4 [1; 0]%nat !! 0%nat
  = Some (Some [Some 0; Some 1; Some 1; Some 1]%nat) /\ (0 <= 1)%nat.
Proof.
  split; [reflexivity|].
  apply (allocation_monotone sampleBins 4 [1; 0]%nat 0
           [Some 0; Some 1; Some 1; Some 1]%nat 0 1 0 1 1 0
           sample_order_perm eq_refl ltac:(lia) ltac:(lia)
           eq_refl eq_refl eq_refl eq_refl).
Defined.

(** C6.  For a permutation [order] of [sCount >= 1] series and any number
    of rows, every row slot of every column holds exactly one series index
    below [sCount]; with no rows every column is empty. *)
Theorem allocation_coverage (distTable : list (list Q)) (rows : nat)
    (order : list nat) :
  let sCount := length order in
  order ≡ₚ seq 0 sCount -> (1 <= sCount)%nat ->
  length (buildAllocations distTable rows order) = length distTable /\
  forall c, (c < length distTable)%nat ->
    exists colAlloc,
      buildAllocations distTable rows order !! c = Some (Some colAlloc) /\
      length colAlloc = rows /\
      (forall r, (r < rows)%nat ->
         exists s, colAlloc !! r = Some (Some s) /\ (s < sCount)%nat) /\
      (rows = 0%nat -> colAlloc = []).
Proof.
  intros sCount Hperm Hpos. split; [apply buildAllocations_length|].
  intros c Hc. destruct (lookup_lt_is_Some_2 _ _ Hc) as [dist Hdist].
  exists (allocColumn dist rows order).
  split; [by apply buildAllocations_lookup|].
  split; [apply allocColumn_length|]. split.
  - intros r Hr. rewrite allocColumn_lookup by done.
    set (cum := allocCum _ _).
    destruct (while_k_stops sCount sCount cum (yFromBottom r rows) 0
                ltac:(lia) ltac:(lia)) as (Hk & _).
    cbv zeta in Hk. fold sCount.
    destruct (lookup_lt_is_Some_2 order (while_k sCount sCount cum (yFromBottom r rows) 0)
                ltac:(fold sCount; lia)) as [s Hs].
    exists s. split; [by rewrite Hs|].
    pose proof (order_range order Hperm) as Hrange.
    eapply Forall_forall in Hrange; [exact Hrange|]. by eapply list_elem_of_lookup_2.
  - intros ->. apply nil_length_inv, allocColumn_length.
Qed.

Lemma allocation_coverage_witness :
  length (buildAllocations sampleBins 0 [1; 0]%nat) = 2%nat /\
  exists colAlloc,
    buildAllocations sampleBins 0 [1; 0]%nat !! 1%nat = Some (Some colAlloc) /\
    colAlloc = [].
Proof.
  destruct (allocation_coverage sampleBins 0 [1; 0]%nat
              sample_order_perm ltac:(simpl; lia)) as [Hlen Hcols].
  split; [exact Hlen|].
  destruct (Hcols 1%nat ltac:(simpl; lia)) as (colAlloc & Hc & _ & _ & Hempty).
  exists colAlloc. split; [exact Hc|]. by apply Hempty.
Defined.

(** ** The active order and the reset button *)

Section Render.
Context `{Host}.

Lemma render_hex_state (page : Page) (st : State) (g : Mock) :
  graphData st = Some g -> showHex st = true ->
  hexCells (render page st) = cells (render_hex page g (userOrder st)) /\
  globalOrderUI (render page st) = activeOrder (render_hex page g (userOrder st)) /\
  userOrder (render page st) = userOrder st /\
  graphData (render page st) = Some g /\
  showHex (render page st) = true.
Proof.
  intros Hg Hs. unfold render. rewrite Hg, Hs. simpl. auto.
Qed.

(** C8.  The order used for allocation is the user override when one is
    present and as long as the series count, and the computed order in
    every other case; an override of another length is passed over
    without any failure, and after a click on the reset button the next
    frame renders with the computed order. *)
Theorem active_order_override (page : Page) (g : Mock) (uo : option (list nat)) :
  let f := render_hex page g uo in
  let sCount := length (series g) in
  (forall u, uo = Some u -> length u = sCount -> activeOrder f = u) /\
  (forall u, uo = Some u -> length u <> sCount ->
     activeOrder f = computedGlobalOrder f) /\
  (uo = None -> activeOrder f = computedGlobalOrder f) /\
  (exists evenRowCount oddRowCount,
     allocEven f = buildAllocations (binsEven f) evenRowCount (activeOrder f) /\
     allocOdd f = buildAllocations (binsOdd f) oddRowCount (activeOrder f)) /\
  (forall st, graphData st = Some g -> showHex st = true -> userOrder st = uo ->
     globalOrderUI (render page st) = activeOrder f /\
     hexCells (render page st) = cells f) /\
  (forall st, graphData st = Some g -> showHex st = true ->
     let st' := animationFrame page (resetOrder_click st) in
     let f' := render_hex page g None in
     userOrder st' = None /\
     computedGlobalOrder f' = computedGlobalOrder f /\
     activeOrder f' = computedGlobalOrder f /\
     globalOrderUI st' = computedGlobalOrder f /\
     hexCells st' = cells f').
Proof.
  intros f sCount.
  assert (Hlen : length (computedGlobalOrder f) = sCount).
  { unfold f, render_hex. cbn [computedGlobalOrder].
    apply computeGlobalOrder_length. }
  assert (Hact : activeOrder f = chooseOrder uo (computedGlobalOrder f)) by reflexivity.
  split; [|split; [|split; [|split; [|split]]]].
  - intros u -> Hu. rewrite Hact. unfold chooseOrder. rewrite Hlen.
    destruct (Nat.eqb_spec (length u) sCount); [done|lia].
  - intros u -> Hu. rewrite Hact. unfold chooseOrder. rewrite Hlen.
    destruct (Nat.eqb_spec (length u) sCount); [lia|done].
  - by intros ->.
  - eexists _, _. split; reflexivity.
  - intros st Hg Hs <-.
    destruct (render_hex_state page st g Hg Hs) as (Hc & Hui & _). done.
  - intros st Hg Hs st' f'.
    assert (Hst : exists q, set_renderQueued false (resetOrder_click st)
                            = set_renderQueued q (set_userOrder None st)).
    { unfold resetOrder_click, scheduleRender.
      destruct (renderQueued (set_userOrder None st)); eexists; reflexivity. }
    destruct Hst as [q Hst].
    destruct (render_hex_state page (set_renderQueued q (set_userOrder None st)) g Hg Hs)
      as (Hc & Hui & Huo & _).
    unfold st', animationFrame. rewrite Hst.
    split; [exact Huo|]. split; [reflexivity|]. split; [reflexivity|].
    split; [exact Hui|exact Hc].
Qed.
End Render.

Lemma active_order_override_witness :
  activeOrder (@render_hex sampleHost samplePage sampleShares (Some [0; 1]%nat))
  = [0; 1]%nat /\
  activeOrder (@render_hex sampleHost samplePage sampleShares (Some [0; 1; 2]%nat))
  = computedGlobalOrder
      (@render_hex sampleHost samplePage sampleShares (Some [0; 1; 2]%nat)).
Proof.
  split.
  - apply (proj1 (@active_order_override sampleHost samplePage sampleShares
                    (Some [0; 1]%nat)) [0; 1]%nat eq_refl eq_refl).
  - apply (proj1 (proj2 (@active_order_override sampleHost samplePage sampleShares
                           (Some [0; 1; 2]%nat))) [0; 1; 2]%nat eq_refl).
    simpl. lia.
Defined.

(** ** Loops as folds *)

Lemma foldl_invariant {A B : Type} (P : A -> Prop) (f : A -> B -> A) (l : list B) (a : A) :
  P a -> (forall a b, P a -> P (f a b)) -> P (foldl f a l).
Proof.
  intros Ha Hf. revert a Ha. induction l as [|b l IH]; intros a Ha; simpl; [done|].
  apply IH, Hf, Ha.
Qed.

(** * Further properties of the pipeline *)

(** ** The Normalizer: what it rejects and what it returns *)

(** X1.  [transformToMock] throws for an empty list of series and for a
    series whose length differs from that of the x-axis values, each with
    its own message, and accepts every other table; what it then returns
    keeps the names in order, has the x positions [0 .. L - 1] and one row
    of [L] shares per series. *)
Theorem transformToMock_rejects (data : MockData) :
  let L := length (md_values data) in
  (md_series data = [] ->
     transformToMock data = Throw "Invalid MockData: missing values/series.") /\
  (forall ser, ser ∈ md_series data -> length (values ser) <> L ->
     transformToMock data
     = Throw "Invalid MockData: each series.values length must equal values length.") /\
  (md_series data <> [] ->
   (forall ser, ser ∈ md_series data -> length (values ser) = L) ->
   exists mock,
     transformToMock data = Ok (mock, map name (md_series data)) /\
     x mock = map num_of_nat (seq 0 L) /\
     length (series mock) = length (md_series data) /\
     forall row, row ∈ series mock -> length row = L).
Proof.
  intros L. split; [|split].
  - intros Hnil. unfold transformToMock. by rewrite Hnil.
  - intros ser Hin Hbad. unfold transformToMock.
    destruct (Nat.eqb_spec (length (md_series data)) 0) as [Hz|_].
    + apply nil_length_inv in Hz. rewrite Hz in Hin. by apply elem_of_nil in Hin.
    + destruct (forallb _ (md_series data)) eqn:Hall; [|done].
      rewrite forallb_forall in Hall.
      apply list_elem_of_In, Hall, Nat.eqb_eq in Hin. done.
  - intros Hne Hall.
    assert (Htab : seriesTable data (length (md_series data)) L).
    { split; [done|]. split; [done|]. intros s ser Hs.
      apply Hall. by eapply list_elem_of_lookup_2. }
    assert (Hpos : (1 <= length (md_series data))%nat).
    { destruct (md_series data); simpl; [done|lia]. }
    rewrite (transformToMock_closed _ _ _ Htab Hpos).
    eexists. split; [reflexivity|]. simpl. split; [done|].
    split; [by rewrite length_map, length_seq|].
    intros row Hrow. apply list_elem_of_fmap in Hrow as (s & -> & _).
    by rewrite length_map, length_seq.
Qed.

Lemma transformToMock_rejects_witness :
  transformToMock {| md_values := [1]%Q; md_series := [] |}
  = Throw "Invalid MockData: missing values/series." /\
  transformToMock raggedTable
  = Throw "Invalid MockData: each series.values length must equal values length.".
Proof.
  split.
  - apply (proj1 (transformToMock_rejects {| md_values := [1]%Q; md_series := [] |})).
    reflexivity.
  - apply (proj1 (proj2 (transformToMock_rejects raggedTable))
             {| name := "b"; values := [3]%Q |}).
    + right. left.
    + simpl. lia.
Defined.

(** ** Sums over two functions *)

Lemma Qsum_map_plus {B : Type} (f g : B -> Q) (l : list B) :
  (Qsum (map (fun b => f b + g b) l) == Qsum (map f l) + Qsum (map g l))%Q.
Proof.
  induction l as [|b l IH]; simpl.
  - unfold Qsum. simpl. ring.
  - rewrite !Qsum_cons, IH. ring.
Qed.

(** ** Which samples the bins read *)

Lemma num_of_nat_max0 (z : Z) : num_of_nat (Z.to_nat (Z.max 0 z)) = inject_Z (Z.max 0 z).
Proof. unfold num_of_nat. by rewrite Z2Nat.id by lia. Qed.

Lemma binOffset_bounds (L columns : nat) (odd : bool) :
  (0 <= binOffset L columns odd)%Q.
Proof.
  rewrite parityOffset_eq. apply parityOffset_bounds.
Qed.

Lemma binStart_from_offset (L columns : nat) (odd : bool) (b : nat) :
  (Z.to_nat (Qfloor (binOffset L columns odd)) <= binStart L columns odd b)%nat.
Proof.
  unfold binStart. cbv zeta. apply Z2Nat.inj_le.
  - apply (Qfloor_resp_le 0). apply binOffset_bounds.
  - lia.
  - etransitivity; [|apply Z.le_max_r]. apply Qfloor_resp_le.
    pose proof (binSize_nonneg L columns). pose proof (num_of_nat_nonneg b).
    assert (0 <= num_of_nat b * binSize L columns)%Q by (by apply Qmult_le_0_compat).
    lra.
Qed.

Lemma binEnd_le (L columns : nat) (odd : bool) (b : nat) :
  (binEnd L columns odd b <= L)%nat.
Proof. unfold binEnd. cbv zeta. lia. Qed.

Lemma bin_of_sample (L columns : nat) (odd : bool) (i : nat) :
  (1 <= columns)%nat -> (i < L)%nat ->
  (Z.to_nat (Qfloor (binOffset L columns odd)) <= i)%nat ->
  exists b, (b < columns)%nat /\
    (binStart L columns odd b <= i < binEnd L columns odd b)%nat.
Proof.
  intros Hc Hi Hoff.
  set (q := binSize L columns). set (o := binOffset L columns odd) in *.
  assert (Hq : (0 < q)%Q).
  { unfold q, binSize. apply Qlt_shift_div_l; [by apply num_of_nat_pos|].
    pose proof (num_of_nat_pos L ltac:(lia)). lra. }
  assert (Hqc : (q * num_of_nat columns == num_of_nat L)%Q) by (by apply binSize_columns).
  assert (Ho : (0 <= o)%Q) by apply binOffset_bounds.
  set (d := ((num_of_nat i - o) / q)%Q).
  assert (Hd : (d * q == num_of_nat i - o)%Q) by (unfold d; field; lra).
  pose proof (Qfloor_le d) as Hfl. pose proof (Qlt_floor d) as Hfl'.
  rewrite inject_Z_plus in Hfl'. change (inject_Z 1) with 1%Q in Hfl'.
  set (z := Qfloor d) in *.
  assert (HiL : (num_of_nat i + 1 <= num_of_nat L)%Q).
  { rewrite <- num_of_nat_S. apply num_of_nat_le. lia. }
  assert (Hzc : (z < Z.of_nat columns)%Z).
  { rewrite Zlt_Qlt. fold (num_of_nat columns).
    assert (d < num_of_nat columns)%Q; [|lra].
    apply Qmult_lt_r with (z := q); [done|]. rewrite Hd. lra. }
  exists (Z.to_nat (Z.max 0 z)). split; [lia|].
  unfold binStart, binEnd. cbv zeta. fold q o.
  rewrite num_of_nat_max0. split.
  - apply Nat2Z.inj_le. rewrite Z2Nat.id by lia.
    apply Z.max_lub; [lia|].
    destruct (Z.max_spec 0 z) as [[Hz ->]|[Hz ->]].
    + rewrite Zle_Qle. fold (num_of_nat i).
      pose proof (Qfloor_le (inject_Z z * q + o)).
      assert (inject_Z z * q <= d * q)%Q by (apply Qmult_le_compat_r; lra).
      lra.
    + assert (Heq : (inject_Z 0 * q + o == o)%Q) by (change (inject_Z 0) with 0%Q; ring).
      rewrite (Qfloor_comp _ _ Heq).
      pose proof (Qfloor_resp_le 0 o Ho) as H0. change (Qfloor 0) with 0%Z in H0.
      lia.
  - apply Nat2Z.inj_lt. rewrite Z2Nat.id.
    + apply Z.min_glb_lt; [lia|].
      rewrite Zlt_Qlt. fold (num_of_nat i).
      pose proof (Qle_ceiling ((inject_Z (Z.max 0 z) + 1) * q + o)) as Hce.
      assert (inject_Z z <= inject_Z (Z.max 0 z))%Q by (rewrite <- Zle_Qle; lia).
      assert (d * q < (inject_Z (Z.max 0 z) + 1) * q)%Q
        by (apply Qmult_lt_compat_r; lra).
      lra.
    + apply Z.min_glb; [lia|].
      rewrite Zle_Qle. change (inject_Z 0) with 0%Q.
      pose proof (Qle_ceiling ((inject_Z (Z.max 0 z) + 1) * q + o)) as Hce.
      assert (0 <= inject_Z (Z.max 0 z))%Q
        by (change 0%Q with (inject_Z 0); rewrite <- Zle_Qle; lia).
      assert (0 <= (inject_Z (Z.max 0 z) + 1) * q)%Q
        by (apply Qmult_le_0_compat; lra).
      lra.
Qed.

(** X6.  Every bin reads samples inside the table only, and none before
    sample [floor(offset)]; from there on every sample is read by some bin.
    With the even parity (offset 0) that is every sample; with the odd
    parity the first [floor(binSize / 2)] samples are read by no bin. *)
Theorem bins_cover_samples (L columns : nat) (odd : bool) :
  (1 <= columns)%nat ->
  let first := Z.to_nat (Qfloor (binOffset L columns odd)) in
  (forall b, (first <= binStart L columns odd b)%nat
             /\ (binEnd L columns odd b <= L)%nat) /\
  (forall i, (first <= i < L)%nat ->
     exists b, (b < columns)%nat /\
       (binStart L columns odd b <= i < binEnd L columns odd b)%nat) /\
  (odd = false -> first = 0%nat).
Proof.
  intros Hc first. split; [|split].
  - intros b. split; [apply binStart_from_offset|apply binEnd_le].
  - intros i [Hlo Hhi]. by apply bin_of_sample.
  - intros ->. reflexivity.
Qed.

Lemma bins_cover_samples_witness :
  exists b, (b < 3)%nat /\ (binStart 10 3 true b <= 9 < binEnd 10 3 true b)%nat.
Proof.
  apply (proj1 (proj2 (bins_cover_samples 10 3 true ltac:(lia))) 9%nat).
  vm_compute. split; [lia|]. reflexivity.
Defined.

(** * Further properties of the allocation and of the hex cells *)

(** ** A series without a share gets no row slot *)

Lemma Qsum_Permutation (l k : list Q) : l ≡ₚ k -> (Qsum l == Qsum k)%Q.
Proof.
  induction 1 as [|v l k _ IH|v w l|l k m _ IH1 _ IH2].
  - reflexivity.
  - by rewrite !Qsum_cons, IH.
  - rewrite !Qsum_cons. ring.
  - by rewrite IH1.
Qed.

Lemma Qsum_reordered (dist : list Q) (order : list nat) :
  order ≡ₚ seq 0 (length order) -> length dist = length order ->
  (Qsum (map (fun s => get dist s) order) == Qsum dist)%Q.
Proof.
  intros Hperm Hlen.
  rewrite (Qsum_Permutation _ (map (fun s => get dist s) (seq 0 (length order))))
    by (by apply Permutation_map).
  rewrite <- Hlen. rewrite (map_seq_lookup 0%Q); [reflexivity|].
  intros s v Hs. unfold get. by rewrite Hs.
Qed.

Lemma yFromBottom_pos (r rows : nat) : (r < rows)%nat -> (0 < yFromBottom r rows)%Q.
Proof.
  intros Hr. unfold yFromBottom. cbv zeta. rewrite Nat.max_r by lia.
  assert ((num_of_nat r + (1 # 2)) / num_of_nat rows < 1)%Q; [|lra].
  apply Qlt_shift_div_r; [apply num_of_nat_pos; lia|].
  pose proof (num_of_nat_le (S r) rows ltac:(lia)) as Hle.
  rewrite num_of_nat_S in Hle. lra.
Qed.

Lemma Qsum_take_S (dist : list Q) (order : list nat) (k s : nat) :
  order !! k = Some s ->
  Qsum (map (fun s => get dist s) (take (S k) order))
  = (Qsum (map (fun s => get dist s) (take k order)) + get dist s)%Q.
Proof.
  intros Hk. rewrite (take_S_r _ _ _ Hk), map_app. simpl. apply Qsum_snoc.
Qed.

Lemma allocColumn_positive (dist : list Q) (rows : nat) (order : list nat)
    (r s : nat) :
  order ≡ₚ seq 0 (length order) -> distribution dist (length order) ->
  allocColumn dist rows order !! r = Some (Some s) ->
  (0 < get dist s)%Q.
Proof.
  intros Hperm Hdist Hr.
  assert (Hrows : (r < rows)%nat).
  { rewrite <- (allocColumn_length dist rows order). by eapply lookup_lt_Some. }
  rewrite allocColumn_lookup in Hr by done. injection Hr as Hs.
  set (n := length order) in *.
  set (cum := allocCum (allocShares dist n) order) in *.
  set (y := yFromBottom r rows) in *.
  set (k := while_k n n cum y 0) in *.
  destruct (while_k_stops n n cum y 0 ltac:(lia) ltac:(lia)) as (Hk & Hstop & Hpass).
  cbv zeta in Hk, Hstop, Hpass. fold k in Hk, Hstop, Hpass.
  pose proof (order_range order Hperm) as Hrange. fold n in Hrange.
  assert (Hkn : (k < n)%nat) by (by eapply lookup_lt_Some).
  assert (Hcum : forall j, (j < n)%nat -> (get cum j == cumulativeShare dist order j)%Q).
  { intros j Hj.
    destruct (allocCum_cumulative dist order j Hdist Hrange Hj) as (v & Hv & Heq).
    unfold get, cum. fold n in Hv. by rewrite Hv. }
  pose proof (yFromBottom_pos r rows Hrows) as Hy0. fold y in Hy0.
  pose proof (yFromBottom_le_1 r rows) as Hy1. fold y in Hy1.
  destruct Hdist as (Hlen & Hpos & Hsum).
  pose proof (get_nonneg dist s Hpos) as Hs0.
  destruct (Qlt_le_dec 0 (get dist s)) as [?|Hle]; [done|exfalso].
  set (P := Qsum (map (fun s => get dist s) (take k order))).
  assert (Hlow : (P < y)%Q).
  { destruct k as [|k'] eqn:Hk'; [by unfold P|].
    pose proof (Hpass k' ltac:(lia)) as Hp. rewrite Hcum in Hp by lia.
    unfold cumulativeShare in Hp. fold n in Hp.
    destruct (Nat.eqb_spec k' (n - 1)); [lia|]. done. }
  assert (Hhigh : (y <= P + get dist s)%Q).
  { unfold P. rewrite <- (Qsum_take_S dist order k s Hs).
    destruct (decide (k < n - 1)%nat) as [Hlt|Hlast].
    - pose proof (Hstop Hlt) as Hp. rewrite Hcum in Hp by lia.
      unfold cumulativeShare in Hp. fold n in Hp.
      destruct (Nat.eqb_spec k (n - 1)); [lia|]. done.
    - rewrite take_ge by (fold n; lia).
      rewrite (Qsum_reordered dist order Hperm Hlen). lra. }
  lra.
Qed.

(** X7.  In a column of a Bin Distribution Table, every series that is
    assigned a row slot has a positive share there: a series whose share
    in the column is zero gets no hex of that column. *)
Theorem allocated_series_has_share (distTable : list (list Q)) (rows : nat)
    (order : list nat) (c : nat) (dist : list Q) (colAlloc : list (option nat))
    (r s : nat) :
  order ≡ₚ seq 0 (length order) ->
  distTable !! c = Some dist -> distribution dist (length order) ->
  buildAllocations distTable rows order !! c = Some (Some colAlloc) ->
  colAlloc !! r = Some (Some s) ->
  (0 < get dist s)%Q.
Proof.
  intros Hperm Hc Hdist Halloc Hr.
  rewrite (buildAllocations_lookup _ _ _ _ _ Hc) in Halloc.
  injection Halloc as <-.
  by eapply allocColumn_positive.
Qed.

Lemma allocated_series_has_share_witness :
  (0 < get [1 # 4; 3 # 4]%Q 0)%Q.
Proof.
  apply (allocated_series_has_share sampleBins 4 [1; 0]%nat 0 [1 # 4; 3 # 4]%Q
           [Some 0; Some 1; Some 1; Some 1]%nat 0 0
           sample_order_perm eq_refl sample_distribution eq_refl eq_refl).
Defined.

(** ** The hex cells of a render *)

Lemma foldl_invariant_in {A B : Type} (P : A -> Prop) (f : A -> B -> A)
    (l : list B) (a : A) :
  P a -> (forall a b, b ∈ l -> P a -> P (f a b)) -> P (foldl f a l).
Proof.
  revert a. induction l as [|b l IH]; intros a Ha Hf; simpl; [done|].
  apply IH.
  - apply Hf; [|done]. apply elem_of_cons. by left.
  - intros a' b' Hb'. apply Hf. apply elem_of_cons. by right.
Qed.

Lemma allocAt_range (distTable : list (list Q)) (rows : nat) (order : list nat)
    (n col r : nat) :
  (1 <= n)%nat -> Forall (fun s => (s < n)%nat) order ->
  (allocAt (buildAllocations distTable rows order) col r < n)%nat.
Proof.
  intros Hn Horder. unfold allocAt.
  destruct (_ !! col) as [[colAlloc|]|] eqn:Hcol; [|lia..].
  destruct (buildAllocations_column _ _ _ _ _ Hcol) as (dist & _ & ->).
  destruct (_ !! r) as [[s|]|] eqn:Hr; [|lia..].
  assert (Hrows : (r < rows)%nat).
  { rewrite <- (allocColumn_length dist rows order). by eapply lookup_lt_Some. }
  rewrite allocColumn_lookup in Hr by done. injection Hr as Hs.
  by eapply (Forall_lookup_1 _ _ _ _ Horder).
Qed.

Lemma buildCellMap_cells (n : nat) (cw : Q) (cols rows : nat) (sx hw fy vs : Q)
    (allocEven allocOdd : AllocTable) :
  (forall col r, (allocAt allocEven col r < n)%nat) ->
  (forall col r, (allocAt allocOdd col r < n)%nat) ->
  Forall (Forall (fun c => (c_col c < cols)%nat /\ (c_series c < n)%nat))
         (buildCellMap cw cols rows sx hw fy vs allocEven allocOdd).
Proof.
  intros He Ho. unfold buildCellMap, for_loop.
  apply foldl_invariant; [apply Forall_replicate; constructor|].
  intros cellMap row Hrow. cbv zeta.
  apply foldl_invariant_in; [done|].
  intros cm col Hcol Hcm. apply elem_of_seq in Hcol.
  destruct (_ || _); [done|].
  apply Forall_alter; [done|]. intros cells _ Hcells.
  apply Forall_app. split; [done|]. constructor; [|constructor].
  cbn [c_col c_series]. split; [lia|].
  destruct (row mod 2 =? 0)%nat; [apply He|apply Ho].
Qed.

Lemma Zsum_snoc (l : list Z) (v : Z) : Zsum (l ++ [v]) = (Zsum l + v)%Z.
Proof. unfold Zsum. by rewrite foldl_snoc. Qed.

Lemma Zsum_nonneg (l : list Z) : Forall (fun v => (0 <= v)%Z) l -> (0 <= Zsum l)%Z.
Proof.
  induction l as [|v l IH] using rev_ind; intros Hl; [done|].
  apply Forall_app in Hl as [Hl Hv]. rewrite Zsum_snoc.
  apply Forall_inv in Hv. cbv beta in Hv. specialize (IH Hl). lia.
Qed.

Lemma Zsum_ge_lookup (l : list Z) (i : nat) (v : Z) :
  Forall (fun v => (0 <= v)%Z) l -> l !! i = Some v -> (v <= Zsum l)%Z.
Proof.
  revert i. induction l as [|w l IH] using rev_ind; intros i Hl Hi; [done|].
  apply Forall_app in Hl as [Hl Hw]. apply Forall_inv in Hw. cbv beta in Hw.
  rewrite Zsum_snoc. pose proof (Zsum_nonneg l Hl).
  destruct (decide (i < length l)%nat) as [Hlt|Hge].
  - rewrite lookup_app_l in Hi by done. specialize (IH i Hl Hi). lia.
  - rewrite lookup_app_r in Hi by lia.
    destruct (i - length l)%nat; [|done]. injection Hi as <-. lia.
Qed.

Lemma Zsum_inject {B : Type} (f : B -> Z) (l : list B) :
  (inject_Z (Zsum (map f l)) == Qsum (map (fun b => inject_Z (f b)) l))%Q.
Proof.
  induction l as [|b l IH] using rev_ind; [reflexivity|].
  rewrite !map_app. simpl. rewrite Zsum_snoc, Qsum_snoc, inject_Z_plus, IH. reflexivity.
Qed.

Lemma Qsum_map_le {B : Type} (f g : B -> Q) (l : list B) :
  (forall b, b ∈ l -> (f b <= g b)%Q) -> (Qsum (map f l) <= Qsum (map g l))%Q.
Proof.
  induction l as [|b l IH]; intros Hfg; simpl; [apply Qle_refl|].
  rewrite !Qsum_cons.
  assert (f b <= g b)%Q by (apply Hfg, elem_of_cons; by left).
  assert (Qsum (map f l) <= Qsum (map g l))%Q
    by (apply IH; intros; apply Hfg, elem_of_cons; by right).
  lra.
Qed.

Lemma Qsum_map_scale {B : Type} (c : Q) (f : B -> Q) (l : list B) :
  (Qsum (map (fun b => f b * c) l) == Qsum (map f l) * c)%Q.
Proof.
  induction l as [|b l IH]; simpl.
  - unfold Qsum. simpl. ring.
  - rewrite !Qsum_cons, IH. ring.
Qed.

Lemma Math_round_near (q : Q) :
  (q - (1 # 2) < inject_Z (Math_round q) /\ inject_Z (Math_round q) <= q + (1 # 2))%Q.
Proof.
  unfold Math_round. split.
  - pose proof (Qlt_floor (q + (1 # 2))) as Hlt.
    rewrite inject_Z_plus in Hlt. change (inject_Z 1) with 1%Q in Hlt. lra.
  - apply Qfloor_le.
Qed.

Lemma Math_round_nonneg (q : Q) : (0 <= q)%Q -> (0 <= Math_round q)%Z.
Proof.
  intros Hq. unfold Math_round. apply (Qfloor_resp_le 0). lra.
Qed.

(** The loop of [render] that fills [counts] and adds up [samples]. *)
Lemma counts_loop (body : list Z * Z -> nat -> list Z * Z) (ct : nat -> Z) (n : nat) :
  (forall cs sm s, body (cs, sm) s = (<[s := ct s]> cs, (sm + ct s)%Z)) ->
  for_loop 0 n body (replicate n 0%Z, 0%Z)
  = (map ct (seq 0 n), Zsum (map ct (seq 0 n))).
Proof.
  intros Hbody.
  assert (Hk : forall k, (k <= n)%nat ->
            for_loop 0 k body (replicate n 0%Z, 0%Z)
            = (map ct (seq 0 k) ++ replicate (n - k) 0%Z, Zsum (map ct (seq 0 k)))).
  { induction k as [|k IH]; intros Hle.
    - rewrite for_loop_nil. simpl. by rewrite Nat.sub_0_r.
    - rewrite for_loop_S by lia. rewrite IH by lia. rewrite Hbody.
      rewrite seq_S, map_app. simpl. rewrite Zsum_snoc. f_equal.
      rewrite insert_app_r_alt by (rewrite length_map, length_seq; lia).
      rewrite length_map, length_seq, Nat.sub_diag.
      replace (n - k)%nat with (S (n - S k)) by lia. simpl.
      by rewrite <- app_assoc. }
  rewrite (Hk n) by lia. by rewrite Nat.sub_diag, app_nil_r.
Qed.

Lemma counts_total (dist : list Q) (n : nat) :
  distribution dist n ->
  let ct := fun s => Math_round (clamp0 (get dist s) * 1000) in
  (2 * Z.abs (Zsum (map ct (seq 0 n)) - 1000) <= Z.of_nat n)%Z.
Proof.
  intros (Hlen & Hpos & Hsum) ct.
  assert (Hexact : (Qsum (map (fun s => clamp0 (get dist s) * 1000) (seq 0 n)) == 1000)%Q).
  { rewrite Qsum_map_scale. rewrite <- Hlen, (Qsum_clamped dist Hpos), Hsum. ring. }
  assert (Hn : (Qsum (map (fun _ : nat => 1 # 2) (seq 0 n)) == num_of_nat n * (1 # 2))%Q).
  { by rewrite Qsum_map_const, length_seq. }
  assert (Hup : (inject_Z (Zsum (map ct (seq 0 n))) <= 1000 + num_of_nat n * (1 # 2))%Q).
  { rewrite Zsum_inject, <- Hexact, <- Hn, <- Qsum_map_plus.
    apply Qsum_map_le. intros s _. apply Math_round_near. }
  assert (Hlo : (1000 - num_of_nat n * (1 # 2) <= inject_Z (Zsum (map ct (seq 0 n))))%Q).
  { rewrite Zsum_inject.
    assert (Hm : (Qsum (map (fun s => clamp0 (get dist s) * 1000 + - (1 # 2)) (seq 0 n))
                  == 1000 - num_of_nat n * (1 # 2))%Q).
    { rewrite Qsum_map_plus, Hexact, Qsum_map_const, length_seq. ring. }
    rewrite <- Hm. apply Qsum_map_le. intros s _.
    pose proof (Math_round_near (clamp0 (get dist s) * 1000)) as [Hnear _].
    fold (ct s). unfold ct. lra. }
  set (S := Zsum (map ct (seq 0 n))) in *.
  assert (H2up : (2 * S <= 2000 + Z.of_nat n)%Z).
  { rewrite Zle_Qle, inject_Z_plus, inject_Z_mult.
    change (inject_Z (Z.of_nat n)) with (num_of_nat n).
    change (inject_Z 2) with 2%Q. change (inject_Z 2000) with 2000%Q. lra. }
  assert (H2lo : (2000 - Z.of_nat n <= 2 * S)%Z).
  { rewrite Zle_Qle, inject_Z_mult. unfold Z.sub. rewrite inject_Z_plus, inject_Z_opp.
    change (inject_Z (Z.of_nat n)) with (num_of_nat n).
    change (inject_Z 2) with 2%Q. change (inject_Z 2000) with 2000%Q. lra. }
  lia.
Qed.

Lemma buildHexCells_valid `{Host} (hexR : Q) (n cols : nat)
    (binsEven binsOdd : list (list Q)) (cellMap : list (list Cell)) :
  Forall (Forall (fun c => (c_col c < cols)%nat /\ (c_series c < n)%nat)) cellMap ->
  length binsEven = cols -> length binsOdd = cols ->
  (forall b bin, binsEven !! b = Some bin -> distribution bin n) ->
  (forall b bin, binsOdd !! b = Some bin -> distribution bin n) ->
  Forall (fun c => validCell n c /\
                   (2 * Z.abs (samples c - 1000) <= Z.of_nat n)%Z)
         (buildHexCells hexR n binsEven binsOdd cellMap).
Proof.
  intros Hmap Hle Hlo Hde Hdo. unfold buildHexCells. unfold for_loop at 1.
  apply foldl_invariant; [constructor|].
  intros acc r Hacc. apply foldl_invariant_in; [done|].
  intros acc' c Hc Hacc'.
  assert (Hcell : (c_col c < cols)%nat /\ (c_series c < n)%nat).
  { destruct (cellMap !! r) as [row|] eqn:Hr; simpl in Hc.
    - pose proof (Forall_lookup_1 _ _ _ _ Hmap Hr) as Hrow.
      by apply (proj1 (Forall_forall _ _) Hrow).
    - by apply elem_of_nil in Hc. }
  destruct Hcell as [Hcol Hser].
  set (distTable := if (r mod 2 =? 0)%nat then binsEven else binsOdd).
  assert (Hdist : exists dist, distTable !! c_col c = Some dist /\ distribution dist n).
  { assert (Hlt : (c_col c < length distTable)%nat)
      by (unfold distTable; destruct (r mod 2 =? 0)%nat; lia).
    destruct (lookup_lt_is_Some_2 _ _ Hlt) as [dist Hd]. exists dist. split; [done|].
    unfold distTable in Hd. destruct (r mod 2 =? 0)%nat; eauto. }
  destruct Hdist as (dist & Hd & Hdistr). cbv zeta. fold distTable. rewrite Hd. simpl.
  rewrite (counts_loop _ (fun s => Math_round (clamp0 (get dist s) * 1000)))
    by (intros; reflexivity).
  apply Forall_app. split; [done|]. constructor; [|constructor].
  split; [split; [|split; [|split]]|]; simpl.
  - done.
  - by rewrite length_map, length_seq.
  - apply Forall_forall. intros ct Hct.
    apply list_elem_of_In, in_map_iff in Hct as (s & <- & _).
    apply Math_round_nonneg.
    pose proof (clamp0_nonneg (get dist s)). nra.
  - done.
  - by apply counts_total.
Qed.

Lemma smoothGraph_series_length (g : Mock) (p : Z) :
  length (series (smoothGraph g p)) = length (series g).
Proof.
  unfold smoothGraph. destruct (p >? 2)%Z; [|done]. simpl. by rewrite length_map.
Qed.

Lemma chooseOrder_range (uo : option (list nat)) (computed : list nat) (n : nat) :
  computed ≡ₚ seq 0 n ->
  (forall u, uo = Some u -> u ≡ₚ seq 0 (length u)) ->
  chooseOrder uo computed ≡ₚ seq 0 n.
Proof.
  intros Hc Hu. unfold chooseOrder. destruct uo as [u|]; [|done].
  destruct (Nat.eqb_spec (length u) (length computed)) as [Heq|]; [|done].
  rewrite (Hu u eq_refl), Heq, Hc. by rewrite length_seq.
Qed.

Lemma render_hex_cells_valid `{Host} (page : Page) (g : Mock) (uo : option (list nat)) :
  (1 <= length (series g))%nat ->
  (forall u, uo = Some u -> u ≡ₚ seq 0 (length u)) ->
  Forall (fun c => validCell (length (series g)) c /\
                   (2 * Z.abs (samples c - 1000) <= Z.of_nat (length (series g)))%Z)
         (cells (render_hex page g uo)).
Proof.
  intros Hn Hu. unfold render_hex. cbn [cells].
  set (n := length (series g)).
  set (sg := smoothGraph g (smoothPercent page)).
  assert (Hsg : length (series sg) = n) by apply smoothGraph_series_length.
  match goal with
  | |- context [buildCellMap _ ?c _ _ _ _ _ _ _] => set (cols := c)
  end.
  set (order := chooseOrder uo _).
  assert (Horder : Forall (fun s => (s < n)%nat) order).
  { assert (Hp : order ≡ₚ seq 0 n)
      by (apply chooseOrder_range; [apply computeGlobalOrder_perm|done]).
    apply Forall_forall. intros s Hs. rewrite Hp in Hs. apply elem_of_seq in Hs. lia. }
  apply (buildHexCells_valid _ n cols).
  - apply buildCellMap_cells; intros; by apply allocAt_range.
  - by rewrite aggregateBins_closed, length_map, length_seq.
  - by rewrite aggregateBins_closed, length_map, length_seq.
  - intros b bin Hb. rewrite <- Hsg. eapply aggregateBins_distribution; [lia|done].
  - intros b bin Hb. rewrite <- Hsg. eapply aggregateBins_distribution; [lia|done].
Qed.

(** X8.  With at least one series, and a user order that is absent or a
    permutation of the series indices, every hex cell that [render] stores
    names an existing series, carries one count per series, none of them
    negative, and has [samples] equal to the total of its counts. *)
Theorem render_cells_valid `{Host} (page : Page) (st : State) (g : Mock) :
  graphData st = Some g -> (1 <= length (series g))%nat ->
  (forall u, userOrder st = Some u -> u ≡ₚ seq 0 (length u)) ->
  Forall (validCell (length (series g))) (hexCells (render page st)).
Proof.
  intros Hg Hn Hu. unfold render. rewrite Hg.
  destruct (showHex st); cbn [negb hexCells]; [|constructor].
  eapply Forall_impl; [apply render_hex_cells_valid; assumption|].
  by intros c [Hc _].
Qed.

Lemma render_cells_valid_witness :
  Forall (validCell 2) (hexCells (@render sampleHost samplePage sampleState1)) /\
  map (fun c => (hc_series c, counts c, samples c))
      (hexCells (@render sampleHost samplePage sampleState1))
  = [(0%nat, [1000; 0]%Z, 1000%Z); (1%nat, [500; 500]%Z, 1000%Z);
     (1%nat, [0; 1000]%Z, 1000%Z); (1%nat, [250; 750]%Z, 1000%Z);
     (0%nat, [750; 250]%Z, 1000%Z); (1%nat, [250; 750]%Z, 1000%Z);
     (1%nat, [125; 875]%Z, 1000%Z)].
Proof.
  split; [|lazy; reflexivity].
  apply (@render_cells_valid sampleHost samplePage sampleState1 sampleShares eq_refl).
  - simpl. lia.
  - intros u Hu. discriminate Hu.
Defined.

(** ** The tooltip *)

Lemma hitScan_Some (hexCells : list HexCell) (mx my : Q) (hit : HexCell) :
  hitScan hexCells mx my = Some hit ->
  hit ∈ hexCells /\ pointInPoly mx my (poly hit) = true.
Proof.
  induction hexCells as [|c rest IH]; simpl; [done|].
  assert (Hrest : hitScan rest mx my = Some hit ->
                  hit ∈ c :: rest /\ pointInPoly mx my (poly hit) = true).
  { intros Hr. destruct (IH Hr) as [Hin Hp]. split; [|done].
    apply elem_of_cons. by right. }
  destruct (match bbox c with Some b => bboxExcludes b mx my | None => false end);
    [done|].
  destruct (pointInPoly mx my (poly c)) eqn:Hc; [|done].
  intros [= <-]. split; [|done]. apply elem_of_cons. by left.
Qed.

Lemma clamp_index_range (len r : Z) :
  (0 <= Z.max 0 (Z.min (len - 1) r) <= Z.max 0 (len - 1))%Z.
Proof. lia. Qed.

Lemma majority_range (ct total : Z) :
  (0 <= ct <= total)%Z -> (0 < total)%Z ->
  (0 <= inject_Z ct / inject_Z total <= 1)%Q.
Proof.
  intros [H0 Hle] Hpos.
  assert (Ht : (0 < inject_Z total)%Q) by (by rewrite <- (Zlt_Qlt 0)).
  assert (Hc : (0 <= inject_Z ct)%Q) by (by rewrite <- (Zle_Qle 0)).
  assert (Hct : (inject_Z ct <= inject_Z total)%Q) by (by rewrite <- Zle_Qle).
  split.
  - apply Qle_shift_div_l; [done|]. lra.
  - apply Qle_shift_div_r; [done|]. lra.
Qed.

(** X9.  On a page whose cells are valid for [n] series, a tooltip is
    shown only for a cell of the list whose polygon contains the pointer;
    its series is below [n], the position [t] lies in [[0, 1]], the sample
    index is never negative and never past the last sample, and the hex
    majority is a number between 0 and 1. *)
Theorem tooltip_bounds (st : State) (g : Mock) (n : nat)
    (rect_width rect_height mx my : Q) (tt : Tooltip) :
  graphData st = Some g -> Forall (validCell n) (hexCells st) ->
  mousemove st rect_width rect_height mx my = Some tt ->
  (exists hit, hit ∈ hexCells st /\ pointInPoly mx my (poly hit) = true /\
               tt_series tt = hc_series hit) /\
  (tt_series tt < n)%nat /\
  (0 <= tt_t tt <= 1)%Q /\
  (0 <= tt_idx tt <= Z.max 0 (Z.of_nat (length (x g)) - 1))%Z /\
  exists m, tt_majority tt = Some m /\ (0 <= m <= 1)%Q.
Proof.
  intros Hg Hvalid. unfold mousemove. rewrite Hg.
  destruct (showHex st); simpl; [|done].
  destruct (hitScan (hexCells st) mx my) as [hit|] eqn:Hhit; [|done].
  intros [= <-]. cbn [tt_series tt_t tt_idx tt_majority].
  destruct (hitScan_Some _ _ _ _ Hhit) as [Hin Hpoly].
  destruct (proj1 (Forall_forall _ _) Hvalid hit Hin) as (Hs & Hlen & Hpos & Hsum).
  split; [by exists hit|]. split; [done|]. split; [|split].
  - split; [|apply Q.le_min_l].
    apply Q.min_glb; [lra|apply Q.le_max_l].
  - apply clamp_index_range.
  - destruct (samples hit >? 0)%Z eqn:Hsam.
    + destruct (lookup_lt_is_Some_2 (counts hit) (hc_series hit) ltac:(lia)) as [ct Hct].
      rewrite Hct. simpl. eexists. split; [done|].
      apply majority_range; [|lia]. split.
      * by apply (proj1 (Forall_forall _ _) Hpos), list_elem_of_lookup_2 with (hc_series hit).
      * rewrite Hsum. by eapply Zsum_ge_lookup.
    + exists 0%Q. split; [done|lra].
Qed.

Lemma tooltip_bounds_witness :
  exists tt, mousemove hoverState 200 120 1 1 = Some tt /\
             (tt_series tt < 2)%nat /\ tt_majority tt = Some (750 / 1000)%Q.
Proof.
  eexists. split; [reflexivity|].
  assert (Hvalid : Forall (validCell 2) (hexCells hoverState)).
  { constructor; [|constructor].
    split; [simpl; lia|]. split; [reflexivity|]. split; [|reflexivity].
    constructor; [lia|]. constructor; [lia|]. constructor. }
  destruct (tooltip_bounds hoverState sampleShares 2 200 120 1 1 _
              eq_refl Hvalid eq_refl) as (_ & Hs & _).
  split; [exact Hs|reflexivity].
Defined.

(** ** Moving an entry of the order list *)

Lemma spliceStart_nat (len k : nat) :
  (k <= len)%nat -> spliceStart len (Z.of_nat k) = k.
Proof.
  intros Hk. unfold spliceStart.
  destruct (Z.ltb_spec (Z.of_nat k) 0); [lia|]. lia.
Qed.

Lemma spliceStart_beyond (len k : nat) :
  (len <= k)%nat -> spliceStart len (Z.of_nat k) = len.
Proof.
  intros Hk. unfold spliceStart.
  destruct (Z.ltb_spec (Z.of_nat k) 0); [lia|]. lia.
Qed.

Lemma delete_beyond {A : Type} (l : list A) (i : nat) :
  (length l <= i)%nat -> delete i l = l.
Proof.
  intros Hi. rewrite delete_take_drop, take_ge, drop_ge by lia. apply app_nil_r.
Qed.

Lemma move_core {A : Type} (l : list A) (from to : nat) (a : A) :
  l !! from = Some a -> (to < length l)%nat ->
  let o := take to (delete from l) ++ a :: drop to (delete from l) in
  o ≡ₚ l /\ o !! to = Some a /\ delete to o = delete from l.
Proof.
  intros Hfrom Hto o.
  assert (Hlen : length (delete from l) = (length l - 1)%nat)
    by (apply length_delete; by eexists).
  assert (Htake : length (take to (delete from l)) = to)
    by (apply length_take_le; lia).
  split; [|split].
  - unfold o. rewrite <- Permutation_middle, take_drop.
    symmetry. by apply delete_Permutation.
  - unfold o. by apply list_lookup_middle.
  - pose proof (delete_middle (take to (delete from l)) (drop to (delete from l)) a) as Hd.
    rewrite Htake in Hd. unfold o. by rewrite Hd, take_drop.
Qed.

Lemma arrayMove_in_range {A : Type} (arr : list (option A)) (from to : nat)
    (v : option A) :
  from <> to -> arr !! from = Some v -> (to < length arr)%nat ->
  arrayMove arr (Z.of_nat from) (Z.of_nat to)
  = take to (delete from arr) ++ v :: drop to (delete from arr).
Proof.
  intros Hne Hfrom Hto. unfold arrayMove.
  destruct (Z.eqb_spec (Z.of_nat from) (Z.of_nat to)) as [Heq|_]; [lia|].
  assert (Hlt : (from < length arr)%nat) by (by eapply lookup_lt_Some).
  cbv zeta. rewrite (spliceStart_nat (length arr) from) by lia.
  rewrite Hfrom. simpl.
  rewrite length_delete by (by eexists).
  by rewrite spliceStart_nat by lia.
Qed.

(** X10.  [arrayMove] with both positions inside the array takes the entry
    at [from] out and puts it back at [to]: the array keeps its length and
    its entries, the moved entry ends up at [to], and all the others keep
    their order. *)
Theorem arrayMove_moves {A : Type} (arr : list (option A)) (from to : nat) :
  (from < length arr)%nat -> (to < length arr)%nat ->
  let moved := arrayMove arr (Z.of_nat from) (Z.of_nat to) in
  moved ≡ₚ arr /\ length moved = length arr /\
  moved !! to = arr !! from /\ delete to moved = delete from arr.
Proof.
  intros Hfrom Hto moved.
  assert (Hgoal : moved ≡ₚ arr /\ moved !! to = arr !! from /\
                  delete to moved = delete from arr).
  { destruct (decide (from = to)) as [->|Hne].
    - unfold moved, arrayMove. by rewrite Z.eqb_refl.
    - destruct (lookup_lt_is_Some_2 arr from Hfrom) as [v Hv].
      unfold moved. rewrite (arrayMove_in_range arr from to v Hne Hv Hto), Hv.
      by apply move_core. }
  destruct Hgoal as (Hperm & Hat & Hrest).
  split; [done|]. split; [by rewrite Hperm|done].
Qed.

Lemma arrayMove_moves_witness :
  arrayMove [Some 5; Some 6; Some 7; Some 8]%nat 0 2 !! 2%nat = Some (Some 5%nat).
Proof.
  apply (arrayMove_moves [Some 5; Some 6; Some 7; Some 8]%nat 0 2); simpl; lia.
Defined.

(** X11.  [arrayMove] with a [from] at or past the end of the array
    removes nothing and inserts [undefined]: the array grows by one entry,
    an empty one at [to] (at the end when [to] is past it), and the old
    entries stay in their order around it. *)
Theorem arrayMove_from_outside {A : Type} (arr : list (option A)) (from to : nat) :
  (length arr <= from)%nat -> from <> to ->
  let moved := arrayMove arr (Z.of_nat from) (Z.of_nat to) in
  let j := Nat.min to (length arr) in
  length moved = S (length arr) /\ moved !! j = Some None /\ delete j moved = arr.
Proof.
  intros Hfrom Hne moved j. unfold moved, arrayMove.
  destruct (Z.eqb_spec (Z.of_nat from) (Z.of_nat to)) as [Heq|_]; [lia|].
  cbv zeta. rewrite (spliceStart_beyond (length arr) from) by lia.
  rewrite (lookup_ge_None_2 arr (length arr)) by lia. simpl.
  rewrite delete_beyond by lia.
  assert (Hj : spliceStart (length arr) (Z.of_nat to) = j).
  { unfold j. destruct (decide (to <= length arr)%nat).
    - rewrite spliceStart_nat by lia. lia.
    - rewrite spliceStart_beyond by lia. lia. }
  rewrite Hj.
  assert (Htake : length (take j arr) = j) by (apply length_take_le; lia).
  split; [|split].
  - rewrite length_app. simpl. rewrite Htake, length_drop. lia.
  - by apply list_lookup_middle.
  - pose proof (delete_middle (take j arr) (drop j arr) None) as Hd.
    rewrite Htake in Hd. by rewrite Hd, take_drop.
Qed.

Lemma arrayMove_from_outside_witness :
  arrayMove [Some 5; Some 6]%nat 2 0 !! 0%nat = Some None.
Proof.
  apply (arrayMove_from_outside [Some 5; Some 6]%nat 2 0); simpl; lia.
Defined.

(** ** The drop handler *)

Lemma arrayMove_defined {A : Type} (base : list A) (from to : nat) :
  (from < length base)%nat -> (to < length base)%nat ->
  exists o, arrayMove (map Some base) (Z.of_nat from) (Z.of_nat to) = map Some o /\
            o ≡ₚ base /\ o !! to = base !! from /\ delete to o = delete from base.
Proof.
  intros Hfrom Hto.
  destruct (decide (from = to)) as [->|Hne].
  - exists base. unfold arrayMove. by rewrite Z.eqb_refl.
  - destruct (lookup_lt_is_Some_2 base from Hfrom) as [a Ha].
    exists (take to (delete from base) ++ a :: drop to (delete from base)).
    split.
    + rewrite (arrayMove_in_range _ from to (Some a) Hne).
      * change map with (@fmap list _). 
        by rewrite fmap_app, fmap_cons, fmap_take, fmap_drop, list_fmap_delete.
      * by rewrite list_lookup_fmap, Ha.
      * by rewrite length_map.
    + rewrite Ha. by apply move_core.
Qed.

Lemma order_drop_update_in_range (st : State) (from to : nat) :
  let base := match userOrder st with Some u => u | None => globalOrderUI st end in
  (from < length base)%nat -> (to < length base)%nat ->
  exists o, order_drop_update (Some (Z.of_nat from)) to st
            = Some (set_globalOrderUI o (set_userOrder (Some o) st)) /\
            o ≡ₚ base /\ o !! to = base !! from /\ delete to o = delete from base.
Proof.
  intros base Hfrom Hto.
  destruct (arrayMove_defined base from to Hfrom Hto) as (o & Hmove & Hprops).
  exists o. split; [|done]. unfold order_drop_update. fold base.
  rewrite Hmove. change map with (@fmap list _).
  by rewrite (mapM_fmap_Some id Some) by done.
Qed.

(** X12.  A drop of the item at position [from] on the item at position
    [to], both inside the list the handler starts from (the user order if
    there is one, the displayed order otherwise), makes the user order
    that list with the dragged entry moved to [to]: the same entries, the
    others in their old order; the new order is put on display and a
    render is queued; nothing else of the page state changes. *)
Theorem order_drop_reorders (st : State) (from to : nat) :
  let base := match userOrder st with Some u => u | None => globalOrderUI st end in
  (from < length base)%nat -> (to < length base)%nat ->
  exists o st',
    order_drop (Some (Z.of_nat from)) to st = Some st' /\
    userOrder st' = Some o /\ globalOrderUI st' = o /\ renderQueued st' = true /\
    o ≡ₚ base /\ o !! to = base !! from /\ delete to o = delete from base /\
    graphData st' = graphData st /\ rawData st' = rawData st /\
    seriesNames st' = seriesNames st /\ showHex st' = showHex st /\
    hexCells st' = hexCells st.
Proof.
  intros base Hfrom Hto.
  destruct (order_drop_update_in_range st from to Hfrom Hto) as (o & Hupd & Hp & Hat & Hrest).
  exists o. eexists. unfold order_drop. rewrite Hupd. simpl.
  split; [reflexivity|]. unfold scheduleRender.
  destruct (renderQueued _) eqn:Hq; simpl; simpl in Hq; rewrite ?Hq; auto 15.
Qed.

Lemma order_drop_reorders_witness :
  exists o st', order_drop (Some 0%Z) 1 hoverState = Some st' /\
                userOrder st' = Some o /\ o !! 1%nat = Some 1%nat.
Proof.
  destruct (order_drop_reorders hoverState 0 1) as (o & st' & Hd & Hu & _ & _ & _ & Hat & _).
  - simpl. lia.
  - simpl. lia.
  - exists o, st'. split; [exact Hd|]. split; [exact Hu|exact Hat].
Defined.

(** ** A drop and the frame after it *)

Lemma render_keeps {Hh : Host} (page : Page) (st : State) :
  userOrder (render page st) = userOrder st /\
  renderQueued (render page st) = renderQueued st /\
  graphData (render page st) = graphData st /\
  showHex (render page st) = showHex st /\
  rawData (render page st) = rawData st /\
  seriesNames (render page st) = seriesNames st.
Proof.
  unfold render. destruct (graphData st) eqn:Hg; [|by rewrite Hg].
  destruct (showHex st) eqn:Hs; simpl; by rewrite ?Hg, ?Hs.
Qed.

Lemma chooseOrder_length (uo : option (list nat)) (computed : list nat) :
  length (chooseOrder uo computed) = length computed.
Proof.
  unfold chooseOrder. destruct uo as [u|]; [|done].
  by destruct (Nat.eqb_spec (length u) (length computed)).
Qed.

(** X13.  The two positions of a drop are positions of the displayed
    list.  When the list the handler starts from (the user order if there
    is one, the displayed order otherwise) is not shorter than the
    displayed one, the drop keeps its length, and the next frame of the hex
    view shows the user's new order when that order has one entry per
    series; when it is of another length, as a user order is that was made
    for a table with more series, the frame goes on showing the computed
    order and the drag has no visible effect.  (A user order shorter than
    the displayed list can get an empty entry instead, see X11.) *)
Theorem drop_then_frame {Hh : Host} (page : Page) (st : State) (g : Mock)
    (from to : nat) :
  graphData st = Some g -> showHex st = true ->
  let base := match userOrder st with Some u => u | None => globalOrderUI st end in
  (length (globalOrderUI st) <= length base)%nat ->
  (from < length (globalOrderUI st))%nat -> (to < length (globalOrderUI st))%nat ->
  exists o st',
    order_drop (Some (Z.of_nat from)) to st = Some st' /\
    userOrder (animationFrame page st') = Some o /\
    length o = length base /\
    (length base = length (series g) ->
       globalOrderUI (animationFrame page st') = o) /\
    (length base <> length (series g) ->
       globalOrderUI (animationFrame page st')
       = computeGlobalOrder (binsEven (render_hex page g None))
                            (binsOdd (render_hex page g None))
                            (length (series g))).
Proof.
  intros Hg Hs base Hshown Hfrom' Hto'.
  assert (Hfrom : (from < length base)%nat) by lia.
  assert (Hto : (to < length base)%nat) by lia.
  destruct (order_drop_update_in_range st from to Hfrom Hto) as (o & Hupd & Hp & _).
  set (st1 := set_globalOrderUI o (set_userOrder (Some o) st)) in *.
  exists o, (scheduleRender st1).
  split; [unfold order_drop; by rewrite Hupd|].
  assert (Hst : exists q, set_renderQueued false (scheduleRender st1)
                          = set_renderQueued q st1).
  { unfold scheduleRender. destruct (renderQueued st1); eexists; reflexivity. }
  destruct Hst as [q Hst]. unfold animationFrame. rewrite Hst.
  set (st2 := set_renderQueued q st1).
  destruct (render_hex_state page st2 g Hg Hs) as (_ & Hui & Huo & _).
  rewrite Huo, Hui.
  assert (Hu2 : userOrder st2 = Some o) by reflexivity. rewrite Hu2.
  split; [done|]. split; [by rewrite Hp|].
  assert (Hlen : length o = length base) by (by rewrite Hp).
  unfold render_hex. cbn [activeOrder binsEven binsOdd]. unfold chooseOrder.
  rewrite computeGlobalOrder_length, Hlen.
  split; intros Hcase.
  - by destruct (Nat.eqb_spec (length base) (length (series g))).
  - by destruct (Nat.eqb_spec (length base) (length (series g))).
Qed.

(** A drop on the displayed order [[1; 0]] with no user order, and the
    same drop when a user order for three series is left over. *)
Lemma drop_then_frame_witness :
  (exists st',
     order_drop (Some 0%Z) 1 hoverState = Some st' /\
     userOrder (@animationFrame sampleHost samplePage st') = Some [0; 1]%nat /\
     globalOrderUI (@animationFrame sampleHost samplePage st') = [0; 1]%nat) /\
  (exists st',
     order_drop (Some 0%Z) 1 (set_userOrder (Some [2; 1; 0]%nat) hoverState) = Some st' /\
     userOrder (@animationFrame sampleHost samplePage st') = Some [1; 2; 0]%nat /\
     globalOrderUI (@animationFrame sampleHost samplePage st') = [1; 0]%nat).
Proof.
  split.
  - destruct (@drop_then_frame sampleHost samplePage hoverState sampleShares 0 1
                eq_refl eq_refl) as (o & st' & Hd & Hu & _ & Hshow & _);
      [simpl; lia..|].
    exists st'.
    assert (Ho : o = [0; 1]%nat).
    { vm_compute in Hd. injection Hd as <-. lazy in Hu. by injection Hu as <-. }
    rewrite Ho in Hu, Hshow. split; [exact Hd|]. split; [exact Hu|exact (Hshow eq_refl)].
  - destruct (@drop_then_frame sampleHost samplePage
                (set_userOrder (Some [2; 1; 0]%nat) hoverState) sampleShares 0 1
                eq_refl eq_refl) as (o & st' & Hd & Hu & _ & _ & Hkeep);
      [simpl; lia..|].
    exists st'. rewrite (Hkeep ltac:(simpl; lia)).
    assert (Ho : o = [1; 2; 0]%nat).
    { vm_compute in Hd. injection Hd as <-. lazy in Hu. by injection Hu as <-. }
    rewrite Ho in Hu. split; [exact Hd|]. split; [exact Hu|]. lazy. reflexivity.
Defined.

(** ** Loading a table *)

Lemma transformToMock_refuses (data : MockData) :
  (md_series data = [] \/
   exists ser, ser ∈ md_series data /\ length (values ser) <> length (md_values data)) ->
  exists msg, transformToMock data = Throw msg.
Proof.
  intros Hbad. destruct (transformToMock data) as [r|msg] eqn:Hok; [|by eexists].
  destruct (transformToMock_Ok_table _ _ Hok) as [(_ & _ & Hlen) Hpos].
  destruct Hbad as [Hnil|(ser & Hin & Hne)].
  - rewrite Hnil in Hpos. simpl in Hpos. lia.
  - apply list_elem_of_lookup in Hin as [s Hs]. by specialize (Hlen s ser Hs).
Qed.

Lemma transformToMock_Ok_series (data : MockData) (mock : Mock) (names : list string) :
  transformToMock data = Ok (mock, names) ->
  length (series mock) = length (md_series data) /\
  (1 <= length (md_series data))%nat /\ names = map name (md_series data).
Proof.
  intros Hok. destruct (transformToMock_Ok_table _ _ Hok) as [Htab Hpos].
  rewrite (transformToMock_closed _ _ _ Htab Hpos) in Hok.
  injection Hok as <- <-. simpl. by rewrite length_map, length_seq.
Qed.

(** X14.  When the table is refused (no series, or a series that is not
    as long as the x-axis values), [setRawDataAndRender] stops half way:
    the graph, the cells, the user order and the render flag are as
    before and no render is queued, but [rawData] and the series names
    already are those of the refused table. *)
Theorem refused_table_half_loaded (data : MockData) (st : State) :
  (md_series data = [] \/
   exists ser, ser ∈ md_series data /\ length (values ser) <> length (md_values data)) ->
  exists msg st',
    setRawDataAndRender data st = (st', Some msg) /\
    rawData st' = Some data /\ seriesNames st' = map name (md_series data) /\
    graphData st' = graphData st /\ hexCells st' = hexCells st /\
    userOrder st' = userOrder st /\ renderQueued st' = renderQueued st /\
    lastPlot st' = lastPlot st.
Proof.
  intros Hbad. destruct (transformToMock_refuses data Hbad) as [msg Hmsg].
  exists msg. eexists. unfold setRawDataAndRender, setRawData_update.
  rewrite Hmsg. split; [reflexivity|]. simpl. auto 10.
Qed.

Lemma refused_table_half_loaded_witness :
  exists msg st',
    setRawDataAndRender raggedTable sampleState1 = (st', Some msg) /\
    rawData st' = Some raggedTable /\ graphData st' = Some sampleShares.
Proof.
  destruct (refused_table_half_loaded raggedTable sampleState1)
    as (msg & st' & Hload & Hraw & _ & Hg & _).
  - right. exists {| name := "b"; values := [3]%Q |}. split.
    + apply elem_of_cons. right. apply elem_of_cons. by left.
    + simpl. lia.
  - exists msg, st'. split; [exact Hload|]. split; [exact Hraw|exact Hg].
Defined.

(** ** Drops at any position *)

Lemma arrayMove_defined_perm {A : Type} (base : list A) (from to : Z) (o : list A) :
  mapM id (arrayMove (map Some base) from to) = Some o -> o ≡ₚ base.
Proof.
  unfold arrayMove. destruct (Z.eqb_spec from to) as [_|_].
  - change map with (@fmap list _).
    rewrite (mapM_fmap_Some id Some) by done. by intros [= <-].
  - cbv zeta. rewrite length_map.
    set (i := spliceStart (length base) from).
    set (j := spliceStart _ to).
    change map with (@fmap list _). rewrite list_lookup_fmap, <- list_fmap_delete.
    rewrite <- fmap_take, <- fmap_drop.
    destruct (base !! i) as [a|] eqn:Hi; simpl.
    + change (Some a :: (Some <$> drop j (delete i base)))
        with (Some <$> (a :: drop j (delete i base))).
      rewrite <- fmap_app, (mapM_fmap_Some id Some) by done.
      intros [= <-]. rewrite <- Permutation_middle, take_drop.
      symmetry. by apply delete_Permutation.
    + intros Hm. apply mapM_Some_1 in Hm.
      assert (Hnone : ((Some <$> take j (delete i base))
                         ++ None :: (Some <$> drop j (delete i base)))
                        !! length (Some <$> take j (delete i base)) = Some None)
        by (by apply list_lookup_middle).
      destruct (Forall2_lookup_l _ _ _ _ _ Hm Hnone) as (y & _ & Hy). done.
Qed.

Lemma order_drop_update_perm (st st' : State) (from : Z) (to : nat) :
  order_drop_update (Some from) to st = Some st' ->
  exists o, st' = set_globalOrderUI o (set_userOrder (Some o) st) /\
            o ≡ₚ match userOrder st with Some u => u | None => globalOrderUI st end.
Proof.
  unfold order_drop_update.
  destruct (mapM id _) as [o|] eqn:Hm; [|done].
  intros [= <-]. exists o. split; [done|]. by eapply arrayMove_defined_perm.
Qed.

(** ** The frame queue and the reachable page states *)

Section Events.
Context {Hh : Host}.

Lemma framesMatch_schedule (b : Browser) :
  framesMatch b -> framesMatch (scheduleRender_queue b).
Proof.
  unfold framesMatch, scheduleRender_queue.
  destruct (renderQueued (page_state b)) eqn:Hq; [by rewrite Hq|].
  intros Hp. simpl. by rewrite Hp.
Qed.

Lemma framesMatch_on_state (f : State -> State) (b : Browser) :
  renderQueued (f (page_state b)) = renderQueued (page_state b) ->
  framesMatch b -> framesMatch (on_state f b).
Proof. unfold framesMatch. simpl. by intros ->. Qed.

Lemma setRawData_update_keeps (data : MockData) (st : State) :
  renderQueued (setRawData_update data st).1 = renderQueued st /\
  userOrder (setRawData_update data st).1 = userOrder st /\
  globalOrderUI (setRawData_update data st).1 = globalOrderUI st /\
  hexCells (setRawData_update data st).1 = hexCells st.
Proof.
  unfold setRawData_update. by destruct (transformToMock data) as [[mock names]|msg].
Qed.

Lemma handle_frames (ev : Event) (b b' : Browser) :
  framesMatch b -> handle ev b = Some b' -> framesMatch b'.
Proof.
  intros Hb.
  destruct ev as [| | | | |fromPos toPos|parsed|next|page]; cbn [handle].
  - intros [= <-]. by apply framesMatch_schedule.
  - intros [= <-]. by apply framesMatch_schedule.
  - intros [= <-]. by apply framesMatch_schedule, framesMatch_on_state.
  - intros [= <-]. by apply framesMatch_schedule.
  - intros [= <-]. by apply framesMatch_schedule, framesMatch_on_state.
  - destruct fromPos as [from|]; [|by intros [= <-]].
    destruct (order_drop_update _ _ _) as [st'|] eqn:Hupd; [|done].
    intros [= <-]. apply framesMatch_schedule, framesMatch_on_state; [|done].
    by destruct (order_drop_update_perm _ _ _ _ Hupd) as (o & -> & _).
  - destruct parsed as [data|]; [|by intros [= <-]].
    pose proof (setRawData_update_keeps data (page_state b)) as (Hq & _).
    destruct (setRawData_update data (page_state b)) as [st' [msg|]];
      intros [= <-]; [|apply framesMatch_schedule]; by apply framesMatch_on_state.
  - pose proof (setRawData_update_keeps next (page_state b)) as (Hq & _).
    destruct (setRawData_update next (page_state b)) as [st' [msg|]];
      intros [= <-]; [|apply framesMatch_schedule]; by apply framesMatch_on_state.
  - destruct (pendingFrames b) as [|n] eqn:Hp; intros [= <-]; [done|].
    unfold framesMatch in *. cbn [page_state pendingFrames].
    unfold animationFrame.
    destruct (render_keeps page (set_renderQueued false (page_state b))) as (_ & -> & _).
    simpl. rewrite Hp in Hb. destruct (renderQueued (page_state b)); lia.
Qed.

(** X15.  As long as no drop has put an empty entry into the order,
    renders are queued at most once however the page is used: if the frame
    queue agrees with the [renderQueued] flag before a run of events
    (inputs, toggles, resizes, drops, loads, frames, in any order), it
    agrees after it, so never more than one frame callback is waiting. *)
Theorem frames_never_pile_up (evs : list Event) (b b' : Browser) :
  framesMatch b -> run evs b = Some b' ->
  framesMatch b' /\ (pendingFrames b' <= 1)%nat.
Proof.
  intros Hb Hrun.
  assert (Hm : framesMatch b').
  { revert b Hb Hrun. induction evs as [|ev evs IH]; intros b Hb; simpl.
    - by intros [= <-].
    - destruct (handle ev b) as [b1|] eqn:Hev; [|done].
      apply IH. by eapply handle_frames. }
  split; [done|]. unfold framesMatch in Hm. rewrite Hm.
  destruct (renderQueued _); lia.
Qed.

Lemma orderly_same (st st' : State) :
  userOrder st' = userOrder st -> globalOrderUI st' = globalOrderUI st ->
  graphData st' = graphData st -> hexCells st' = hexCells st ->
  orderly st -> orderly st'.
Proof. unfold orderly. by intros -> -> -> ->. Qed.

Lemma scheduleRender_orderly (st : State) : orderly st -> orderly (scheduleRender st).
Proof.
  unfold scheduleRender. destruct (renderQueued st); [done|]. by apply orderly_same.
Qed.

Lemma scheduleRender_queue_state (b : Browser) :
  page_state (scheduleRender_queue b) = scheduleRender (page_state b).
Proof.
  unfold scheduleRender_queue, scheduleRender. by destruct (renderQueued _).
Qed.

Lemma render_orderly (page : Page) (st : State) : orderly st -> orderly (render page st).
Proof.
  intros Hst. unfold render.
  destruct (graphData st) as [g|] eqn:Hgd; [|done].
  destruct Hst as (Hu & Hui & Hg & n & Hcells).
  destruct (showHex st); cbn [negb].
  - split; [done|]. cbn [globalOrderUI graphData hexCells]. split; [|split]. 
    + unfold render_hex. cbn [activeOrder].
      rewrite chooseOrder_length, computeGlobalOrder_length.
      apply chooseOrder_range; [apply computeGlobalOrder_perm|done].
    + intros g0 [= <-]. by apply Hg.
    + exists (length (series g)).
      eapply Forall_impl; [apply render_hex_cells_valid; [by apply Hg|done]|].
      by intros c [Hc _].
  - split; [done|]. cbn [globalOrderUI graphData hexCells]. split; [done|].
    split; [intros g0 [= <-]; by apply Hg|]. exists 0%nat. constructor.
Qed.

Lemma handle_orderly (ev : Event) (b b' : Browser) :
  orderly (page_state b) -> handle ev b = Some b' -> orderly (page_state b').
Proof.
  intros Hb.
  destruct ev as [| | | | |fromPos toPos|parsed|next|page]; cbn [handle].
  - intros [= <-]. rewrite scheduleRender_queue_state. by apply scheduleRender_orderly.
  - intros [= <-]. rewrite scheduleRender_queue_state. by apply scheduleRender_orderly.
  - intros [= <-]. rewrite scheduleRender_queue_state.
    apply scheduleRender_orderly. by apply (orderly_same (page_state b)).
  - intros [= <-]. rewrite scheduleRender_queue_state. by apply scheduleRender_orderly.
  - intros [= <-]. rewrite scheduleRender_queue_state.
    apply scheduleRender_orderly. destruct Hb as (_ & Hui & Hg & Hc).
    by split.
  - destruct fromPos as [from|]; [|by intros [= <-]].
    destruct (order_drop_update _ _ _) as [st'|] eqn:Hupd; [|done].
    intros [= <-]. rewrite scheduleRender_queue_state. apply scheduleRender_orderly.
    destruct (order_drop_update_perm _ _ _ _ Hupd) as (o & -> & Hp).
    destruct Hb as (Hu & Hui & Hg & Hc).
    assert (Ho : o ≡ₚ seq 0 (length o)).
    { rewrite Hp. destruct (userOrder (page_state b)) as [u|]; [by apply Hu|done]. }
    split; [|by split]. by intros u [= <-].
  - destruct parsed as [data|]; [|by intros [= <-]].
    assert (Hload : orderly (setRawData_update data (page_state b)).1).
    { unfold setRawData_update.
      destruct (transformToMock data) as [[mock names]|msg] eqn:Hok;
        [|by apply (orderly_same (page_state b))].
      destruct Hb as (Hu & Hui & _ & Hc). split; [done|]. split; [done|].
      split; [|done]. intros g [= <-].
      destruct (transformToMock_Ok_series _ _ _ Hok) as (-> & Hpos & _). done. }
    destruct (setRawData_update data (page_state b)) as [st' [msg|]];
      intros [= <-]; [done|].
    rewrite scheduleRender_queue_state. by apply scheduleRender_orderly.
  - assert (Hload : orderly (setRawData_update next (page_state b)).1).
    { unfold setRawData_update.
      destruct (transformToMock next) as [[mock names]|msg] eqn:Hok;
        [|by apply (orderly_same (page_state b))].
      destruct Hb as (Hu & Hui & _ & Hc). split; [done|]. split; [done|].
      split; [|done]. intros g [= <-].
      destruct (transformToMock_Ok_series _ _ _ Hok) as (-> & Hpos & _). done. }
    destruct (setRawData_update next (page_state b)) as [st' [msg|]];
      intros [= <-]; [done|].
    rewrite scheduleRender_queue_state. by apply scheduleRender_orderly.
  - destruct (pendingFrames b) as [|n]; intros [= <-]; [done|].
    cbn [page_state]. unfold animationFrame. apply render_orderly.
    by apply (orderly_same (page_state b)).
Qed.

(** X16.  Every page state reached through the handlers, the frames
    included, is orderly when the first one is, as long as no drop has
    put an empty entry into the order: the user order and the displayed
    order stay permutations of their positions, the loaded graph has at
    least one series, and every stored hex cell names a series for which
    it has a count, with non-negative counts that add up to its
    [samples]. *)
Theorem reachable_states_orderly (evs : list Event) (b b' : Browser) :
  orderly (page_state b) -> run evs b = Some b' -> orderly (page_state b').
Proof.
  revert b. induction evs as [|ev evs IH]; intros b Hb; simpl.
  - by intros [= <-].
  - destruct (handle ev b) as [b1|] eqn:Hev; [|done].
    apply IH. by eapply handle_orderly.
Qed.
End Events.

Lemma frames_never_pile_up_witness :
  exists b', @run sampleHost sampleRun idleBrowser = Some b' /\
             pendingFrames b' = 1%nat /\ renderQueued (page_state b') = true /\
             (pendingFrames b' <= 1)%nat.
Proof.
  assert (Hq : (fun b => (pendingFrames b, renderQueued (page_state b)))
               <$> @run sampleHost sampleRun idleBrowser = Some (1%nat, true)).
  { lazy. reflexivity. }
  destruct (@run sampleHost sampleRun idleBrowser) as [b'|] eqn:Hrun; [|discriminate Hq].
  exists b'. injection Hq as Hp Hr.
  split; [reflexivity|]. split; [exact Hp|]. split; [exact Hr|].
  apply (@frames_never_pile_up sampleHost sampleRun idleBrowser b' eq_refl Hrun).
Defined.

Lemma sampleState1_orderly : orderly sampleState1.
Proof.
  split; [by intros u [=]|]. split; [done|]. split.
  - intros g [= <-]. simpl. lia.
  - exists 0%nat. constructor.
Defined.

Lemma reachable_states_orderly_witness :
  exists b', @run sampleHost sampleRun idleBrowser = Some b' /\
             userOrder (page_state b') = Some [0; 1]%nat /\
             globalOrderUI (page_state b') = [0; 1]%nat /\
             length (hexCells (page_state b')) = 7%nat /\
             orderly (page_state b').
Proof.
  assert (Hq : (fun b => (userOrder (page_state b), globalOrderUI (page_state b),
                          length (hexCells (page_state b))))
               <$> @run sampleHost sampleRun idleBrowser
               = Some (Some [0; 1]%nat, [0; 1]%nat, 7%nat)).
  { lazy. reflexivity. }
  destruct (@run sampleHost sampleRun idleBrowser) as [b'|] eqn:Hrun; [|discriminate Hq].
  exists b'. injection Hq as Hu Hg Hc.
  split; [reflexivity|]. split; [exact Hu|]. split; [exact Hg|]. split; [exact Hc|].
  apply (@reachable_states_orderly sampleHost sampleRun idleBrowser b'
           sampleState1_orderly Hrun).
Defined.

(** ** The hex grid *)

Lemma for_loop_invariant {S : Type} (P : nat -> S -> Prop) (lo hi : nat)
    (body : S -> nat -> S) (st : S) :
  (lo <= hi)%nat -> P lo st ->
  (forall i s, (lo <= i < hi)%nat -> P i s -> P (Datatypes.S i) (body s i)) ->
  P hi (for_loop lo hi body st).
Proof.
  intros Hle H0 Hstep. induction hi as [|hi IH].
  - assert (lo = 0)%nat as -> by lia. by rewrite for_loop_nil.
  - destruct (decide (lo = Datatypes.S hi)) as [->|Hne]; [by rewrite for_loop_nil|].
    rewrite for_loop_S by lia. apply Hstep; [lia|].
    apply IH; [lia|]. intros i s Hi. apply Hstep. lia.
Qed.

Lemma byColumn_snoc (cells : list Cell) (c : Cell) :
  byColumn cells -> Forall (fun a => (c_col a < c_col c)%nat) cells ->
  byColumn (cells ++ [c]).
Proof.
  unfold byColumn. induction 1 as [|a cells Hs IH Hall]; intros Hlt; simpl.
  - repeat constructor.
  - apply Forall_cons in Hlt as [Hac Hlt]. constructor; [by apply IH|].
    apply Forall_app. split; [done|]. by constructor.
Qed.

Lemma byColumn_count (cells : list Cell) (lo b : nat) :
  byColumn cells -> Forall (fun c => (lo <= c_col c < b)%nat) cells ->
  (length cells <= b - lo)%nat.
Proof.
  unfold byColumn. intros Hs. revert lo.
  induction Hs as [|a cells Hs IH Hall]; intros lo Hb; simpl; [lia|].
  apply Forall_cons in Hb as [Ha Hb].
  assert (Hb' : Forall (fun c => (S (c_col a) <= c_col c < b)%nat) cells).
  { apply Forall_forall. intros c Hc.
    pose proof (proj1 (Forall_forall _ _) Hall c Hc).
    pose proof (proj1 (Forall_forall _ _) Hb c Hc). simpl in *. lia. }
  specialize (IH _ Hb'). lia.
Qed.

Section Grid.
Variables (cw : Q) (cols rows : nat) (sx hw fy vs : Q) (allocEven allocOdd : AllocTable).

Lemma Qltb_false (a b : Q) : Qltb a b = false -> (b <= a)%Q.
Proof.
  unfold Qltb. intros Hf. apply negb_false_iff in Hf. by apply Qle_bool_iff.
Qed.

Lemma buildCellMap_row_loop (row : nat) (cm0 : list (list Cell)) :
  cm0 !! row = Some [] ->
  let body := fun (cellMap : list (list Cell)) (col : nat) =>
    let x := ((if (row mod 2 =? 0)%nat then sx else (sx + hw / 2)%Q)
              + num_of_nat col * hw)%Q in
    if Qltb x (20 + hw * (1 # 4))%Q || Qgtb x ((cw - 20) - hw * (1 # 4))%Q
    then cellMap
    else alter (fun cells =>
                  cells ++ [{| c_x := x; c_y := (fy + num_of_nat row * vs)%Q;
                               c_series := allocAt (if (row mod 2 =? 0)%nat
                                                    then allocEven else allocOdd)
                                                   col (row / 2);
                               c_col := col |}]) row cellMap in
  let cm := for_loop 0 cols body cm0 in
  length cm = length cm0 /\
  (forall r, r <> row -> cm !! r = cm0 !! r) /\
  exists cells, cm !! row = Some cells /\ byColumn cells /\
                Forall (gridCell cw cols sx hw fy vs allocEven allocOdd row) cells.
Proof.
  intros Hrow body cm.
  assert (Hinv : length cm = length cm0 /\
                 (forall r, r <> row -> cm !! r = cm0 !! r) /\
                 exists cells, cm !! row = Some cells /\ byColumn cells /\
                   Forall (fun c => (c_col c < cols)%nat /\
                                    gridCell cw cols sx hw fy vs allocEven allocOdd row c)
                          cells /\
                   Forall (fun c => (c_col c < cols)%nat) cells /\
                   Forall (fun c => (c_col c < cols)%nat) cells).
  { unfold cm.
    apply (for_loop_invariant
             (fun j cm => length cm = length cm0 /\
                (forall r, r <> row -> cm !! r = cm0 !! r) /\
                exists cells, cm !! row = Some cells /\ byColumn cells /\
                  Forall (fun c => (c_col c < cols)%nat /\
                                   gridCell cw cols sx hw fy vs allocEven allocOdd row c)
                         cells /\
                  Forall (fun c => (c_col c < j)%nat) cells /\
                  Forall (fun c => (c_col c < j)%nat) cells)); [lia| |].
    - split; [done|]. split; [done|]. exists []. split; [done|].
      split; [constructor|]. by repeat split.
    - intros col s Hcol (Hlen & Hother & cells & Hcells & Hsorted & Hgrid & Hbelow & _).
      unfold body.
      set (x := ((if (row mod 2 =? 0)%nat then sx else (sx + hw / 2)%Q)
                 + num_of_nat col * hw)%Q).
      destruct (Qltb x (20 + hw * (1 # 4))) eqn:Hlo; cbn [orb].
      { split; [done|]. split; [done|]. exists cells. split; [done|]. split; [done|].
        split; [done|].
        assert (Forall (fun c => (c_col c < Datatypes.S col)%nat) cells)
          by (eapply Forall_impl; [exact Hbelow|]; simpl; intros; lia).
        done. }
      destruct (Qgtb x ((cw - 20) - hw * (1 # 4))) eqn:Hhi; cbn [orb].
      { split; [done|]. split; [done|]. exists cells. split; [done|]. split; [done|].
        split; [done|].
        assert (Forall (fun c => (c_col c < Datatypes.S col)%nat) cells)
          by (eapply Forall_impl; [exact Hbelow|]; simpl; intros; lia).
        done. }
      split; [by rewrite length_alter|].
      split; [intros r Hr; rewrite list_lookup_alter_ne by done; by apply Hother|].
      eexists. split; [by rewrite list_lookup_alter_eq, Hcells|].
      split; [by apply byColumn_snoc|].
      assert (Hnew : Forall (fun c => (c_col c < Datatypes.S col)%nat)
                (cells ++ [{| c_x := x; c_y := (fy + num_of_nat row * vs)%Q;
                              c_series := allocAt (if (row mod 2 =? 0)%nat
                                                   then allocEven else allocOdd)
                                                  col (row / 2);
                              c_col := col |}])).
      { apply Forall_app. split.
        - eapply Forall_impl; [exact Hbelow|]. simpl. intros. lia.
        - constructor; [simpl; lia|constructor]. }
      split; [|done].
      apply Forall_app. split; [done|]. constructor; [|constructor].
      split; [simpl; lia|]. unfold gridCell. cbn [c_col c_x c_y c_series].
      split; [lia|]. split; [done|]. split; [done|]. split; [|done].
      apply Qltb_false in Hlo. apply Qltb_false in Hhi. fold x. by split. }
  destruct Hinv as (Hlen & Hother & cells & Hcells & Hsorted & Hgrid & _).
  split; [done|]. split; [done|]. exists cells. split; [done|]. split; [done|].
  eapply Forall_impl; [exact Hgrid|]. by intros c [_ Hc].
Qed.

Lemma buildCellMap_grid :
  let cellMap := buildCellMap cw cols rows sx hw fy vs allocEven allocOdd in
  length cellMap = rows /\
  forall r cells, cellMap !! r = Some cells ->
    byColumn cells /\ Forall (gridCell cw cols sx hw fy vs allocEven allocOdd r) cells.
Proof.
  intros cellMap.
  assert (Hinv : length cellMap = rows /\
            (forall r cells, (r < rows)%nat -> cellMap !! r = Some cells ->
               byColumn cells /\
               Forall (gridCell cw cols sx hw fy vs allocEven allocOdd r) cells) /\
            (forall r, (rows <= r < rows)%nat -> cellMap !! r = Some [])).
  { unfold cellMap, buildCellMap.
    apply (for_loop_invariant
             (fun i cm => length cm = rows /\
                (forall r cells, (r < i)%nat -> cm !! r = Some cells ->
                   byColumn cells /\
                   Forall (gridCell cw cols sx hw fy vs allocEven allocOdd r) cells) /\
                (forall r, (i <= r < rows)%nat -> cm !! r = Some []))); [lia| |].
    - split; [apply length_replicate|]. split; [intros; lia|].
      intros r Hr. apply lookup_replicate_2. lia.
    - intros row cm Hrow (Hlen & Hdone & Htodo). cbv zeta.
      destruct (buildCellMap_row_loop row cm (Htodo row ltac:(lia)))
        as (Hlen' & Hother & cells & Hcells & Hsorted & Hgrid).
      cbv zeta in Hlen', Hother, Hcells.
      split; [by rewrite Hlen'|]. split.
      + intros r cells' Hr Hr'.
        destruct (decide (r = row)) as [->|Hne].
        * rewrite Hcells in Hr'. by injection Hr' as <-.
        * rewrite Hother in Hr' by done. apply Hdone; [lia|done].
      + intros r Hr. rewrite Hother by lia. apply Htodo. lia. }
  destruct Hinv as (Hlen & Hrows & _). split; [done|].
  intros r cells Hr. apply Hrows; [|done].
  rewrite <- Hlen. by eapply lookup_lt_Some.
Qed.
End Grid.

(** X19.  [buildCellMap] returns one row per grid row.  In every row the
    cells stand in strictly increasing column order, so there is at most
    one per column; each cell has the y of its row and the x of its
    column, lies within the clip bounds of the canvas (a quarter hex width
    inside the padding on either side), and shows the series that the
    allocation table of the row's parity holds for its column and
    [floor(row / 2)], or series 0 where the table has none. *)
Theorem grid_layout (cw : Q) (cols rows : nat) (sx hw fy vs : Q)
    (allocEven allocOdd : AllocTable) :
  let cellMap := buildCellMap cw cols rows sx hw fy vs allocEven allocOdd in
  length cellMap = rows /\
  forall r cells, cellMap !! r = Some cells ->
    (length cells <= cols)%nat /\ byColumn cells /\
    Forall (gridCell cw cols sx hw fy vs allocEven allocOdd r) cells.
Proof.
  intros cellMap.
  destruct (buildCellMap_grid cw cols rows sx hw fy vs allocEven allocOdd)
    as [Hlen Hrows].
  split; [done|]. intros r cells Hr. destruct (Hrows r cells Hr) as [Hsorted Hgrid].
  split; [|by split].
  rewrite <- (Nat.sub_0_r cols). apply (byColumn_count cells 0); [done|].
  eapply Forall_impl; [exact Hgrid|]. intros c [Hc _]. lia.
Qed.

Lemma grid_layout_witness :
  length (buildCellMap 200 3 2 40 30 40 30 [] []) = 2%nat.
Proof. apply (grid_layout 200 3 2 40 30 40 30 [] []). Defined.

(** ** Tab-separated text *)

Section Tsv.
Context {Ht : TextHost}.

Lemma tsv_row_loop (f : nat -> Q) (m : nat) (sv : list (list Q)) :
  length sv = m ->
  forall s, for_loop 0 m (fun seriesValues s => alter (fun col => col ++ [f s]) s seriesValues) sv !! s
            = (fun col => col ++ [f s]) <$> sv !! s.
Proof.
  intros Hlen s.
  apply (loop_slots_all _ (fun s col => col ++ [f s])); [|done].
  intros k m' a _ _ Hk. by apply (alter_as_insert (fun col => col ++ [f k])).
Qed.

Lemma tsv_loop (tsv : string) (m n : nat) :
  (1 <= n)%nat ->
  let body := fun '(vals, seriesValues) r =>
    let cells := splitRow (cell (tsvLines tsv) r) in
    let xRaw := cell cells 0 in
    let vals' :=
      vals ++ [match Number_parseFloat xRaw with
               | Some xVal => xVal
               | None => num_of_nat r
               end] in
    let seriesValues' :=
      for_loop 0 m (fun seriesValues s =>
        let raw := cell cells (s + 1) in
        alter (fun col => col ++ [default 0%Q (Number_parseFloat raw)])
              s seriesValues) seriesValues in
    (vals', seriesValues') in
  for_loop 1 n body ([], replicate m [])
  = (map (tsvX tsv) (seq 1 (n - 1)),
     map (fun s => map (fun r => tsvValue tsv r s) (seq 1 (n - 1))) (seq 0 m)).
Proof.
  intros Hn body.
  apply (for_loop_invariant
           (fun i st => st = (map (tsvX tsv) (seq 1 (i - 1)),
                              map (fun s => map (fun r => tsvValue tsv r s) (seq 1 (i - 1)))
                                  (seq 0 m)))); [done| |].
  - simpl. f_equal. apply list_eq. intros s. rewrite list_lookup_fmap.
    destruct (decide (s < m)%nat).
    + by rewrite lookup_replicate_2, lookup_seq_lt.
    + beyond.
  - intros i st Hi ->. unfold body. cbv beta iota zeta.
    replace (S i - 1)%nat with (S (i - 1)) by lia.
    rewrite seq_S, map_app. replace (1 + (i - 1))%nat with i by lia.
    f_equal. apply list_eq. intros s.
    etransitivity;
      [apply (tsv_row_loop (fun s => tsvValue tsv i s)); by rewrite length_map, length_seq|].
    rewrite !list_lookup_fmap. destruct (seq 0 m !! s) as [s'|] eqn:Hs; [|done].
    simpl. apply lookup_seq in Hs as [-> _]. simpl.
    by rewrite map_app.
Qed.

Lemma parseTsv_closed (tsv : string) (data : MockData) :
  parseTsvToMockData tsv = Ok data ->
  let n := length (tsvLines tsv) in
  let headerCells := splitRow (cell (tsvLines tsv) 0) in
  (2 <= n)%nat /\ (2 <= length headerCells)%nat /\
  md_values data = map (tsvX tsv) (seq 1 (n - 1)) /\
  md_series data
  = imap (fun s nm => {| name := nm;
                         values := map (fun r => tsvValue tsv r s) (seq 1 (n - 1)) |})
         (map seriesNameOf (drop 1 headerCells)).
Proof.
  unfold parseTsvToMockData. cbv zeta.
  destruct (Nat.ltb_spec (length (tsvLines tsv)) 2) as [|Hn]; [done|].
  destruct (Nat.ltb_spec (length (splitRow (cell (tsvLines tsv) 0))) 2) as [|Hh]; [done|].
  rewrite (tsv_loop tsv _ (length (tsvLines tsv))) by lia.
  destruct (forallb _ _); [|done]. intros [= <-]. cbn [md_values md_series].
  split; [done|]. split; [done|]. split; [done|].
  apply list_eq. intros s. rewrite !list_lookup_imap.
  destruct (map seriesNameOf (drop 1 (splitRow (cell (tsvLines tsv) 0))) !! s)
    as [nm|] eqn:Hs; [|done].
  cbn [fmap option_fmap option_map]. do 3 f_equal.
  apply lookup_lt_Some in Hs.
  by rewrite list_lookup_fmap, lookup_seq_lt.
Qed.

Lemma parseTsv_regular (tsv : string) :
  parseTsvToMockData tsv <> Throw "Irregular row widths detected while parsing TSV.".
Proof.
  unfold parseTsvToMockData. cbv zeta.
  destruct (Nat.ltb_spec (length (tsvLines tsv)) 2) as [|Hn]; [done|].
  destruct (Nat.ltb_spec (length (splitRow (cell (tsvLines tsv) 0))) 2) as [|Hh]; [done|].
  rewrite (tsv_loop tsv _ (length (tsvLines tsv))) by lia.
  destruct (forallb _ _) eqn:Hall; [done|]. exfalso.
  apply not_true_iff_false in Hall. apply Hall. apply forallb_forall.
  intros ser Hser. apply Nat.eqb_eq.
  apply list_elem_of_In, list_elem_of_lookup in Hser as [s Hs].
  rewrite list_lookup_imap in Hs.
  destruct (map seriesNameOf (drop 1 (splitRow (cell (tsvLines tsv) 0))) !! s)
    as [nm|] eqn:Hnm; [|done].
  injection Hs as <-. cbn [values].
  apply lookup_lt_Some in Hnm.
  rewrite list_lookup_fmap, lookup_seq_lt by done.
  cbn [fmap option_fmap option_map default from_option id].
  by rewrite !length_map.
Qed.

(** X21.  [parseTsvToMockData] never reports irregular row widths: it
    fails only for fewer than two non-blank lines or fewer than two header
    cells.  What it returns has one x value per data line and one series
    per header cell after the first, each with exactly one value per data
    line: a cell that is missing or does not parse counts as 0, cells
    beyond the header are dropped, and an x cell that does not parse is
    replaced by the number of the line.  [transformToMock] accepts every
    such table. *)
Theorem parseTsv_rectangular (tsv : string) :
  parseTsvToMockData tsv <> Throw "Irregular row widths detected while parsing TSV." /\
  forall data, parseTsvToMockData tsv = Ok data ->
    let n := length (tsvLines tsv) in
    let headerCells := splitRow (cell (tsvLines tsv) 0) in
    md_values data = map (tsvX tsv) (seq 1 (n - 1)) /\
    length (md_values data) = (n - 1)%nat /\ (1 <= n - 1)%nat /\
    length (md_series data) = (length headerCells - 1)%nat /\
    (forall s ser, md_series data !! s = Some ser ->
       values ser = map (fun r => tsvValue tsv r s) (seq 1 (n - 1))) /\
    exists mock, transformToMock data = Ok (mock, map name (md_series data)).
Proof.
  split; [apply parseTsv_regular|].
  intros data Hok n headerCells.
  destruct (parseTsv_closed tsv data Hok) as (Hn & Hh & Hvals & Hser).
  fold n in Hn, Hvals, Hser. fold headerCells in Hh, Hser.
  assert (Hcount : length (md_series data) = (length headerCells - 1)%nat)
    by (by rewrite Hser, length_imap, length_map, length_drop).
  assert (Hrows : forall s ser, md_series data !! s = Some ser ->
            values ser = map (fun r => tsvValue tsv r s) (seq 1 (n - 1))).
  { intros s ser Hs. rewrite Hser, list_lookup_imap in Hs.
    destruct (map seriesNameOf (drop 1 headerCells) !! s); [|done].
    by injection Hs as <-. }
  assert (HL : length (md_values data) = (n - 1)%nat)
    by (by rewrite Hvals, length_map, length_seq).
  split; [done|]. split; [done|]. split; [lia|]. split; [done|]. split; [done|].
  eexists. apply (transformToMock_closed data (length headerCells - 1) (n - 1)); [|lia].
  split; [done|]. split; [done|].
  intros s ser Hs. by rewrite (Hrows s ser Hs), length_map, length_seq.
Qed.
End Tsv.

Lemma parseTsv_rectangular_witness :
  exists data, @parseTsvToMockData sampleText sampleTsv = Ok data /\
               md_values data = [1; 2]%Q /\
               map values (md_series data) = [[3; 4]; [5; 0]]%Q.
Proof.
  eexists. split; [reflexivity|].
  destruct (proj2 (@parseTsv_rectangular sampleText sampleTsv) _ eq_refl)
    as (Hvals & _).
  split; [exact Hvals|reflexivity].
Defined.

(** ** Axis ticks *)

Lemma Math_round_range (q : Q) (N : Z) :
  (0 <= q <= inject_Z N)%Q -> (0 <= Math_round q <= N)%Z.
Proof.
  intros [H0 HN]. split; [by apply Math_round_nonneg|].
  destruct (Math_round_near q) as [_ Hup].
  assert (Hlt : (Math_round q < N + 1)%Z); [|lia].
  rewrite Zlt_Qlt, inject_Z_plus. change (inject_Z 1) with 1%Q. lra.
Qed.

Lemma xTickIndex_range (len i : nat) :
  (1 <= len)%nat -> (i <= 5)%nat ->
  (0 <= xTickIndex len i <= Z.of_nat len - 1)%Z /\
  (i = 0%nat -> xTickIndex len i = 0%Z) /\
  (i = 5%nat -> xTickIndex len i = (Z.of_nat len - 1)%Z).
Proof.
  intros Hlen Hi. unfold xTickIndex.
  pose proof (num_of_nat_le 1 len Hlen) as H1. change (num_of_nat 1) with 1%Q in H1.
  pose proof (num_of_nat_nonneg i) as Hi0.
  pose proof (num_of_nat_le i 5 Hi) as Hi5. change (num_of_nat 5) with 5%Q in Hi5.
  assert (HN : (inject_Z (Z.of_nat len - 1) == num_of_nat len - 1)%Q).
  { unfold Z.sub. rewrite inject_Z_plus. reflexivity. }
  set (d := (num_of_nat len - 1)%Q) in *.
  assert (Hd : (0 <= d)%Q) by (unfold d; lra).
  assert (Ht : (num_of_nat i / 5 == num_of_nat i * (1 # 5))%Q) by (unfold Qdiv; reflexivity).
  assert (Hq0 : (0 <= num_of_nat i * (1 # 5) * d)%Q)
    by (apply Qmult_le_0_compat; lra).
  assert (Hq1 : (0 <= (1 - num_of_nat i * (1 # 5)) * d)%Q)
    by (apply Qmult_le_0_compat; lra).
  assert (Hq1' : ((1 - num_of_nat i * (1 # 5)) * d == d - num_of_nat i * (1 # 5) * d)%Q)
    by ring.
  split; [|split].
  - apply Math_round_range. rewrite HN, Ht. lra.
  - intros ->. reflexivity.
  - intros ->.
    assert (Heq : (num_of_nat 5 / 5 * d + (1 # 2) == inject_Z (Z.of_nat len - 1) + (1 # 2))%Q).
    { rewrite HN. change (num_of_nat 5 / 5)%Q with (5 / 5)%Q. field. }
    unfold Math_round. rewrite (Qfloor_comp _ _ Heq).
    apply Z.le_antisymm.
    + pose proof (Qfloor_le (inject_Z (Z.of_nat len - 1) + (1 # 2))) as Hle.
      assert (Hlt : (Qfloor (inject_Z (Z.of_nat len - 1) + (1 # 2)) < Z.of_nat len - 1 + 1)%Z);
        [|lia].
      rewrite Zlt_Qlt, inject_Z_plus. change (inject_Z 1) with 1%Q. lra.
    + rewrite <- (Qfloor_Z (Z.of_nat len - 1)) at 1. apply Qfloor_resp_le. lra.
Qed.

(** X22.  For a table with at least one x value and a canvas at least
    twice the padding wide, each of the six x-axis ticks of [drawAxes]
    stands between the left and the right end of the axis and is labelled
    with a value of the table, never with [undefined]; the first tick
    stands at the left end with the first value, the last one at the
    right end with the last value. *)
Theorem axis_ticks_show_values (w pad : Q) (vs : list Q) :
  (1 <= length vs)%nat -> (0 <= pad)%Q -> (pad * 2 <= w)%Q ->
  let ticks := xTicks w pad (Some vs) in
  length ticks = 6%nat /\
  Forall (fun '(x, label) =>
            (pad <= x <= w - pad)%Q /\ exists v, label = inl (Some v) /\ v ∈ vs) ticks /\
  (exists x, head ticks = Some (x, inl (head vs)) /\ (x == pad)%Q) /\
  (exists x, last ticks = Some (x, inl (last vs)) /\ (x == w - pad)%Q).
Proof.
  intros Hlen Hpad Hw ticks.
  assert (Hlabel : forall i, (i <= 5)%nat ->
            exists k, (k < length vs)%nat /\
              (match xTickIndex (length vs) i with
               | Z.neg _ => None
               | yi => vs !! Z.to_nat yi
               end) = vs !! k /\
              (i = 0%nat -> k = 0%nat) /\ (i = 5%nat -> k = (length vs - 1)%nat)).
  { intros i Hi. destruct (xTickIndex_range (length vs) i Hlen Hi) as (Hr & H0 & H5).
    exists (Z.to_nat (xTickIndex (length vs) i)). split; [lia|]. split.
    - destruct (xTickIndex (length vs) i); [done|done|lia].
    - split; [intros Hz; rewrite (H0 Hz); done|intros Hz; rewrite (H5 Hz); lia]. }
  unfold ticks, xTicks. destruct (Nat.ltb_spec 0 (length vs)) as [_|]; [|lia].
  split; [done|]. split; [|split].
  - apply Forall_forall. intros [x label] Hin.
    apply list_elem_of_fmap in Hin as (i & Heq & Hi). apply elem_of_seq in Hi.
    injection Heq as -> ->.
    destruct (Hlabel i ltac:(lia)) as (k & Hk & -> & _).
    split.
    + pose proof (num_of_nat_nonneg i) as Hi0.
      pose proof (num_of_nat_le i 5 ltac:(lia)) as Hi5.
      change (num_of_nat 5) with 5%Q in Hi5.
      assert (Ht : (num_of_nat i / 5 == num_of_nat i * (1 # 5))%Q)
        by (unfold Qdiv; reflexivity).
      rewrite Ht.
      assert (0 <= num_of_nat i * (1 # 5) * (w - pad * 2))%Q
        by (apply Qmult_le_0_compat; lra).
      assert (0 <= (1 - num_of_nat i * (1 # 5)) * (w - pad * 2))%Q
        by (apply Qmult_le_0_compat; lra).
      assert (((1 - num_of_nat i * (1 # 5)) * (w - pad * 2)
               == (w - pad * 2) - num_of_nat i * (1 # 5) * (w - pad * 2))%Q) by ring.
      lra.
    + destruct (lookup_lt_is_Some_2 vs k Hk) as [v Hv]. exists v.
      split; [by rewrite Hv|]. by eapply list_elem_of_lookup_2.
  - eexists. split.
    + cbn [seq map head]. destruct (Hlabel 0%nat ltac:(lia)) as (k & _ & Hk & Hk0 & _).
      by rewrite Hk, (Hk0 eq_refl), head_lookup.
    + change (num_of_nat 0 / 5)%Q with (0 / 5)%Q. field.
  - eexists. split.
    + change (seq 0 6) with ([0; 1; 2; 3; 4] ++ [5])%nat. rewrite map_app.
      cbn [map]. rewrite last_snoc.
      destruct (Hlabel 5%nat ltac:(lia)) as (k & _ & Hk & _ & Hk5).
      rewrite Hk, (Hk5 eq_refl), last_lookup.
      by replace (pred (length vs)) with (length vs - 1)%nat by lia.
    + change (num_of_nat 5 / 5)%Q with (5 / 5)%Q. field.
Qed.

Lemma axis_ticks_show_values_witness :
  length (xTicks 200 20 (Some [10; 20; 30]%Q)) = 6%nat.
Proof.
  apply (axis_ticks_show_values 200 20 [10; 20; 30]%Q).
  - simpl. lia.
  - unfold Qle. simpl. lia.
  - unfold Qle. simpl. lia.
Defined.

(** ** The palette *)

Lemma getColors_closed (n : nat) :
  Palette.getColors n
  = take n (Palette.stylish ++ map Palette.generated (seq 8 (n - 8))).
Proof.
  unfold Palette.getColors. change (length Palette.stylish) with 8%nat.
  destruct (Nat.leb_spec n 8) as [Hle|Hgt].
  - rewrite take_app_le; [done|]. by change (length Palette.stylish) with 8%nat.
  - rewrite take_ge
      by (rewrite length_app, length_map, length_seq;
          change (length Palette.stylish) with 8%nat; lia).
    apply (for_loop_invariant
             (fun i res => res = Palette.stylish ++ map Palette.generated (seq 8 (i - 8))));
      [lia|by rewrite Nat.sub_diag, app_nil_r|].
    intros i res Hi ->.
    replace (S i - 8)%nat with (S (i - 8)) by lia.
    rewrite seq_S, map_app, app_assoc. cbn [map].
    by replace (8 + (i - 8))%nat with i by lia.
Qed.

(** X23.  [getColors n] returns exactly [n] colours, and the colours of
    the first series do not depend on how many series there are: the
    palette for [n] series is the beginning of the palette for any larger
    number. *)
Theorem getColors_stable_prefix (n m : nat) :
  (n <= m)%nat ->
  length (Palette.getColors n) = n /\
  Palette.getColors n = take n (Palette.getColors m).
Proof.
  intros Hnm. rewrite !getColors_closed. split.
  - rewrite length_take, length_app, length_map, length_seq.
    change (length Palette.stylish) with 8%nat. lia.
  - rewrite take_take, Nat.min_l by lia.
    destruct (Nat.le_gt_cases n 8) as [Hle|Hgt].
    + rewrite !take_app_le; [done|by change (length Palette.stylish) with 8%nat..].
    + rewrite !take_app_ge by (change (length Palette.stylish) with 8%nat; lia).
      change (length Palette.stylish) with 8%nat. f_equal.
      rewrite <- !fmap_take. f_equal. rewrite !take_seq. f_equal. lia.
Qed.

Lemma getColors_stable_prefix_witness :
  length (Palette.getColors 3) = 3%nat /\
  Palette.getColors 3 = take 3 (Palette.getColors 12).
Proof. apply (getColors_stable_prefix 3 12). lia. Defined.

(** ** Well-formed colours *)

Lemma string_length_app (s1 s2 : string) :
  String.length (s1 ++ s2) = (String.length s1 + String.length s2)%nat.
Proof. induction s1 as [|a s1 IH]; simpl; [done|]. by rewrite IH. Qed.

Lemma hex2_table :
  forallb (fun n => (String.length (Palette.padStart2 (Palette.toString16 (Z.of_nat n)))
                     =? 2)%nat) (seq 0 256) = true.
Proof. vm_compute. reflexivity. Qed.

Lemma hex2_length (v : Z) :
  (0 <= v <= 255)%Z ->
  String.length (Palette.padStart2 (Palette.toString16 v)) = 2%nat.
Proof.
  intros Hv. pose proof hex2_table as Htab. rewrite forallb_forall in Htab.
  specialize (Htab (Z.to_nat v)). rewrite Z2Nat.id in Htab by lia.
  apply Nat.eqb_eq, Htab, in_seq. lia.
Qed.

Lemma Qltb_nonneg (q : Q) : (0 <= q)%Q -> Qltb q 0 = false.
Proof.
  intros Hq. unfold Qltb. apply negb_false_iff. by apply Qle_bool_iff.
Qed.

Lemma Qrem_range (a m : Q) :
  (0 <= a)%Q -> (0 < m)%Q -> (0 <= Palette.Qrem a m < m)%Q.
Proof.
  intros Ha Hm. unfold Palette.Qrem, Palette.Qtrunc.
  assert (Hq : (0 <= a / m)%Q) by (apply Qle_shift_div_l; lra).
  rewrite (Qltb_nonneg _ Hq).
  pose proof (Qfloor_le (a / m)) as Hlo. pose proof (Qlt_floor (a / m)) as Hhi.
  rewrite inject_Z_plus in Hhi. change (inject_Z 1) with 1%Q in Hhi.
  assert (Ham : (a == a / m * m)%Q) by (field; lra).
  set (q := (a / m)%Q) in *. set (f := inject_Z (Qfloor q)) in *.
  assert (H1 : (0 <= (q - f) * m)%Q) by (apply Qmult_le_0_compat; lra).
  assert (H2 : (0 < (f + 1 - q) * m)%Q) by (apply Qmult_lt_0_compat; lra).
  assert (E1 : ((q - f) * m == q * m - m * f)%Q) by ring.
  assert (E2 : ((f + 1 - q) * m == m * f + m - q * m)%Q) by ring.
  lra.
Qed.

Lemma Math_abs_cases (q : Q) :
  (0 <= Math_abs q)%Q /\ (q <= Math_abs q)%Q /\
  (- q <= Math_abs q)%Q /\
  (Math_abs q == q \/ Math_abs q == - q)%Q.
Proof.
  unfold Math_abs, Qltb.
  destruct (Qle_bool 0 q) eqn:Hq; simpl.
  - apply Qle_bool_iff in Hq. repeat split; try lra; left; reflexivity.
  - apply Qle_bool_false in Hq. repeat split; try lra; right; reflexivity.
Qed.

Lemma channel_range (s l u v : Q) :
  (0 <= s <= 1)%Q -> (0 <= l <= 1)%Q -> (0 <= u <= 1)%Q ->
  let c := ((1 - Math_abs (2 * l - 1)) * s)%Q in
  (v == 0 \/ v == c \/ v == c * (1 - u))%Q ->
  (0 <= Math_round ((v + (l - c / 2)) * 255) <= 255)%Z.
Proof.
  intros Hs Hl Hu c Hv.
  destruct (Math_abs_cases (2 * l - 1)) as (Ha0 & Ha1 & Ha2 & Ha).
  assert (Ha3 : (Math_abs (2 * l - 1) <= 1)%Q)
    by (destruct Ha as [Ha|Ha]; rewrite Ha; lra).
  clear Ha. set (a := Math_abs (2 * l - 1)) in *.
  assert (Hc0 : (0 <= c)%Q) by (apply Qmult_le_0_compat; lra).
  assert (Hc1 : (0 <= (1 - a) * (1 - s))%Q) by (apply Qmult_le_0_compat; lra).
  assert (Ec : ((1 - a) * (1 - s) == (1 - a) - c)%Q) by (unfold c; ring).
  assert (Hx0 : (0 <= c * (1 - u))%Q) by (apply Qmult_le_0_compat; lra).
  assert (Hx1 : (0 <= c * u)%Q) by (apply Qmult_le_0_compat; lra).
  assert (Ex : (c * (1 - u) == c - c * u)%Q) by ring.
  assert (Ehalf : (c / 2 == c * (1 # 2))%Q) by (unfold Qdiv; reflexivity).
  assert (Hsum : (0 <= v + (l - c / 2) <= 1)%Q).
  { rewrite Ehalf. destruct Hv as [Hv|[Hv|Hv]]; rewrite Hv; lra. }
  apply (Math_round_range _ 255). change (inject_Z 255) with 255%Q. lra.
Qed.

Lemma hslToHex_length (h s l : Q) :
  (0 <= h)%Q -> (0 <= s <= 1)%Q -> (0 <= l <= 1)%Q ->
  String.length (Palette.hslToHex h s l) = 7%nat /\
  String.get 0 (Palette.hslToHex h s l) = String.get 0 "#".
Proof.
  intros Hh Hs Hl. unfold Palette.hslToHex. cbv zeta.
  assert (Hhp : (0 <= h / 60)%Q) by (apply Qle_shift_div_l; lra).
  destruct (Qrem_range (h / 60) 2 Hhp ltac:(lra)) as [Hr0 Hr2].
  destruct (Math_abs_cases (Palette.Qrem (h / 60) 2 - 1)) as (Hu0 & _ & _ & Hu).
  assert (Hu1 : (0 <= Math_abs (Palette.Qrem (h / 60) 2 - 1) <= 1)%Q)
    by (destruct Hu as [Hu|Hu]; rewrite Hu; lra).
  set (u := Math_abs (Palette.Qrem (h / 60) 2 - 1)) in *.
  pose proof (fun v Hv => hex2_length _ (channel_range s l u v Hs Hl Hu1 Hv)) as Hch.
  cbv zeta in Hch.
  set (c := ((1 - Math_abs (2 * l - 1)) * s)%Q) in *.
  assert (H0 := Hch 0%Q ltac:(left; reflexivity)).
  assert (Hc := Hch c ltac:(right; left; reflexivity)).
  assert (Hx := Hch (c * (1 - u))%Q ltac:(right; right; reflexivity)).
  destruct (Qle_bool 0 (h / 60) && Qltb (h / 60) 1);
    [|destruct (Qltb (h / 60) 2);
      [|destruct (Qltb (h / 60) 3);
        [|destruct (Qltb (h / 60) 4); [|destruct (Qltb (h / 60) 5)]]]];
    (split; [|reflexivity]);
    rewrite !string_length_app, ?H0, ?Hc, ?Hx; reflexivity.
Qed.

Lemma generated_length (i : nat) :
  String.length (Palette.generated i) = 7%nat /\
  String.get 0 (Palette.generated i) = String.get 0 "#".
Proof.
  unfold Palette.generated. cbv zeta.
  set (idx := (i - length Palette.stylish)%nat).
  apply hslToHex_length.
  - apply Qrem_range; [|lra].
    pose proof (num_of_nat_nonneg idx).
    assert (0 <= num_of_nat idx * (137508 # 1000))%Q by (apply Qmult_le_0_compat; lra).
    lra.
  - pose proof (Nat.mod_upper_bound idx 3 ltac:(lia)) as Hm.
    change (length [60 # 100; 66 # 100; 54 # 100]%Q) with 3%nat.
    destruct (idx mod 3)%nat as [|[|[|k]]]; [| | |lia]; unfold get; simpl; lra.
  - pose proof (Nat.mod_upper_bound idx 4 ltac:(lia)) as Hm.
    change (length [52 # 100; 58 # 100; 46 # 100; 40 # 100]%Q) with 4%nat.
    destruct (idx mod 4)%nat as [|[|[|[|k]]]]; [| | | |lia]; unfold get; simpl; lra.
Qed.

(** X24.  Every colour that [getColors] returns is a [#] followed by six
    characters, and so is what [hslToHex] returns for any hue that is not
    negative with saturation and lightness between 0 and 1: each of the
    three channels rounds to an integer from 0 to 255, which prints as at
    most two hex digits. *)
Theorem colours_well_formed :
  (forall h s l, (0 <= h)%Q -> (0 <= s <= 1)%Q -> (0 <= l <= 1)%Q ->
     String.length (Palette.hslToHex h s l) = 7%nat /\
     String.get 0 (Palette.hslToHex h s l) = String.get 0 "#") /\
  (forall n colour, colour ∈ Palette.getColors n ->
     String.length colour = 7%nat /\ String.get 0 colour = String.get 0 "#").
Proof.
  split; [apply hslToHex_length|].
  intros n colour Hin. rewrite getColors_closed in Hin.
  apply elem_of_take in Hin as (k & Hin & _). apply list_elem_of_lookup_2 in Hin.
  apply elem_of_app in Hin as [Hin|Hin].
  - unfold Palette.stylish in Hin.
    repeat (apply elem_of_cons in Hin as [->|Hin]; [by split|]).
    by apply elem_of_nil in Hin.
  - apply list_elem_of_fmap in Hin as (i & -> & _). apply generated_length.
Qed.

Lemma colours_well_formed_witness :
  String.length (Palette.hslToHex 200 (1 # 2) (1 # 2))%Q = 7%nat.
Proof.
  apply (proj1 colours_well_formed 200 (1 # 2) (1 # 2))%Q.
  - unfold Qle. simpl. lia.
  - split; unfold Qle; simpl; lia.
  - split; unfold Qle; simpl; lia.
Defined.

(** ** Generated tables *)

Section Mock.
Context {Hh : Host}.

Lemma generateMock_closed (rnd : nat -> Q) (seriesCount : nat) (valuesLen : option nat) :
  exists (L : nat) (arr : nat -> list Q),
    (forall s, length (arr s) = L /\ Forall (fun v => (0 <= v)%Q) (arr s)) /\
    (forall l, valuesLen = Some l -> L = l) /\
    generateMock rnd seriesCount valuesLen
    = {| md_values := map (fun i => (1 + num_of_nat i)%Q) (seq 0 L);
         md_series := map (fun s => {| name := randomName s; values := arr s |})
                          (seq 0 seriesCount) |}.
Proof.
  unfold generateMock.
  destruct (match valuesLen with
            | Some L => (L, 0%nat)
            | None => (Z.to_nat (25 + Qfloor (rnd 0%nat * 25)), 1%nat)
            end) as [L k0] eqn:HL.
  cbv zeta.
  set (row := fun (k s : nat) =>
        map (fun i =>
               Qmax 0 (rnd k * (5 # 10) + (2 # 10) + num_of_nat s * (3 # 100)
                       + (7 # 10) * Math_abs (Math_sin
                           (num_of_nat i / num_of_nat (Nat.max 1 (L - 1))
                            * (3 + rnd (k + 2)%nat * 4) + rnd (k + 1)%nat * Math_PI * 2))
                       + (25 # 100) * (rnd (k + 3 + i)%nat - (5 # 10)))%Q)
            (seq 0 L)).
  exists L, (fun s => row (k0 + s * (3 + L))%nat s).
  split; [|split].
  - intros s. split; [unfold row; by rewrite length_map, length_seq|].
    apply Forall_forall. intros v Hv. unfold row in Hv.
    apply list_elem_of_fmap in Hv as (i & -> & _). apply Q.le_max_l.
  - intros l ->. by injection HL as ->.
  - match goal with
    | |- context [for_loop 0 seriesCount ?f ?st] =>
        assert (Hloop : for_loop 0 seriesCount f st
                        = (map (fun s => {| name := randomName s;
                                            values := row (k0 + s * (3 + L))%nat s |})
                               (seq 0 seriesCount),
                           (k0 + seriesCount * (3 + L))%nat))
    end.
    { apply (for_loop_invariant
               (fun i st => st = (map (fun s => {| name := randomName s;
                                                  values := row (k0 + s * (3 + L))%nat s |})
                                      (seq 0 i),
                                  (k0 + i * (3 + L))%nat))); [lia|by rewrite Nat.add_0_r|].
      intros i st _ ->. cbv beta iota zeta.
      rewrite seq_S, map_app. simpl. f_equal. lia. }
    by rewrite Hloop.
Qed.

(** X25.  Whatever [Math.random] returns, [generateMock] builds a table
    of [seriesCount] series named after the flowers in turn, each with
    one non-negative value per x value; with at least one series
    [transformToMock] accepts the table, so a click on the regenerate
    button always loads its table and queues a render, and with no series
    it refuses it. *)
Theorem generateMock_accepted (rnd : nat -> Q) (seriesCount : nat)
    (valuesLen : option nat) :
  let data := generateMock rnd seriesCount valuesLen in
  length (md_series data) = seriesCount /\
  (forall l, valuesLen = Some l -> length (md_values data) = l) /\
  (forall s ser, md_series data !! s = Some ser ->
     name ser = randomName s /\
     length (values ser) = length (md_values data) /\
     Forall (fun v => (0 <= v)%Q) (values ser)) /\
  ((1 <= seriesCount)%nat ->
     (exists mock, transformToMock data = Ok (mock, map name (md_series data))) /\
     forall st, exists st',
       setRawDataAndRender data st = (st', None) /\ renderQueued st' = true /\
       rawData st' = Some data) /\
  (seriesCount = 0%nat ->
     transformToMock data = Throw "Invalid MockData: missing values/series.").
Proof.
  intros data.
  destruct (generateMock_closed rnd seriesCount valuesLen) as (L & arr & Harr & HL & Heq).
  fold data in Heq.
  assert (Hn : length (md_series data) = seriesCount)
    by (by rewrite Heq; simpl; rewrite length_map, length_seq).
  assert (Hvals : length (md_values data) = L)
    by (by rewrite Heq; simpl; rewrite length_map, length_seq).
  assert (Hser : forall s ser, md_series data !! s = Some ser ->
            name ser = randomName s /\ length (values ser) = L /\
            Forall (fun v => (0 <= v)%Q) (values ser)).
  { intros s ser Hs. rewrite Heq in Hs. simpl in Hs.
    rewrite list_lookup_fmap in Hs.
    destruct (seq 0 seriesCount !! s) as [s'|] eqn:Hs'; [|done].
    apply lookup_seq in Hs' as [-> _]. injection Hs as <-. simpl.
    split; [done|]. apply Harr. }
  split; [done|]. split; [intros l Hl; by rewrite Hvals, (HL l Hl)|].
  split; [intros s ser Hs; rewrite Hvals; by apply Hser|].
  split.
  - intros Hpos.
    assert (Hok : transformToMock data
                  = Ok ({| x := map num_of_nat (seq 0 L);
                           series := map (fun s => map (fun i =>
                                        normShare (seriesVals_of data) s i) (seq 0 L))
                                      (seq 0 seriesCount) |},
                        map name (md_series data))).
    { apply transformToMock_closed; [|done].
      split; [done|]. split; [done|]. intros s ser Hs. by apply (Hser s ser Hs). }
    split; [by eexists|].
    intros st. eexists. unfold setRawDataAndRender, setRawData_update. rewrite Hok.
    split; [reflexivity|]. unfold scheduleRender.
    by destruct (renderQueued st) eqn:Hq; simpl; rewrite ?Hq.
  - intros Hz. unfold transformToMock. by rewrite Hn, Hz.
Qed.
End Mock.

Lemma generateMock_accepted_witness :
  length (md_series (@generateMock sampleHost (fun _ => 1 # 2)%Q 3 (Some 4%nat))) = 3%nat.
Proof. apply (@generateMock_accepted sampleHost (fun _ => 1 # 2)%Q 3 (Some 4%nat)). Defined.
(** * The binary64 stages *)

Import Floats.

(** ** The order of binary64 numbers *)

Lemma SFcompare_key (x y : spec_float) :
  SFcompare x y
  = if B64.SFnan x || B64.SFnan y then None
    else Some (B64.key_compare (B64.SFkey x) (B64.SFkey y)).
Proof.
  destruct x as [sx|sx| |sx mx ex], y as [sy|sy| |sy my ey];
    try destruct sx; try destruct sy; try reflexivity.
  unfold B64.key_compare. cbn -[Z.compare Z.opp Pos.compare_cont]. f_equal.
  change (Pos.compare_cont Eq mx my) with (mx ?= my)%positive.
  change (Z.neg mx ?= Z.neg my)%Z with (CompOpp (mx ?= my)%positive).
  destruct (Z.compare_spec ex ey), (Z.compare_spec (- ex) (- ey)); try lia; reflexivity.
Qed.

Lemma key_compare_Lt a b : B64.key_compare a b = Lt <-> B64.key_lt a b.
Proof.
  unfold B64.key_compare, B64.key_lt.
  destruct (Z.compare_spec a.1.1 b.1.1), (Z.compare_spec a.1.2 b.1.2),
    (Z.compare_spec a.2 b.2); split; intros; try lia; try done.
Qed.

Lemma key_compare_Eq a b : B64.key_compare a b = Eq <-> a = b.
Proof.
  unfold B64.key_compare. destruct a as [[a1 a2] a3], b as [[b1 b2] b3]. simpl.
  destruct (Z.compare_spec a1 b1), (Z.compare_spec a2 b2),
    (Z.compare_spec a3 b3); split; intros H'; try done; try (injection H'; lia).
  by subst.
Qed.

Lemma key_compare_Gt a b : B64.key_compare a b = Gt <-> B64.key_lt b a.
Proof.
  unfold B64.key_compare, B64.key_lt.
  destruct (Z.compare_spec a.1.1 b.1.1), (Z.compare_spec a.1.2 b.1.2),
    (Z.compare_spec a.2 b.2); split; intros; try lia; try done.
Qed.

Lemma is_nan_spec (x : float) : is_nan x = B64.SFnan (Prim2SF x).
Proof.
  unfold is_nan. rewrite eqb_spec. unfold SFeqb. rewrite SFcompare_key.
  destruct (B64.SFnan (Prim2SF x)); [done|]. simpl.
  by rewrite (proj2 (key_compare_Eq _ _) eq_refl).
Qed.

Lemma ltb_key (x y : float) :
  (x <? y)%float = true
  <-> is_nan x = false /\ is_nan y = false /\ B64.key_lt (B64.fkey x) (B64.fkey y).
Proof.
  rewrite ltb_spec, !is_nan_spec. unfold SFltb. rewrite SFcompare_key. unfold B64.fkey.
  destruct (B64.SFnan (Prim2SF x)), (B64.SFnan (Prim2SF y)); simpl;
    try (split; [done|intros (?&?&?); done]).
  destruct (B64.key_compare _ _) eqn:Hc; split; try done.
  - intros (_ & _ & H). apply key_compare_Lt in H. congruence.
  - intros _. by apply key_compare_Lt in Hc.
  - intros (_ & _ & H). apply key_compare_Lt in H. congruence.
Qed.

Lemma leb_key (x y : float) :
  (x <=? y)%float = true
  <-> is_nan x = false /\ is_nan y = false /\
      (B64.key_lt (B64.fkey x) (B64.fkey y) \/ B64.fkey x = B64.fkey y).
Proof.
  rewrite leb_spec, !is_nan_spec. unfold SFleb. rewrite SFcompare_key. unfold B64.fkey.
  destruct (B64.SFnan (Prim2SF x)), (B64.SFnan (Prim2SF y)); simpl;
    try (split; [done|intros (?&?&?); done]).
  destruct (B64.key_compare _ _) eqn:Hc; split; try done.
  - intros _. apply key_compare_Eq in Hc. auto.
  - intros _. apply key_compare_Lt in Hc. auto.
  - intros (_ & _ & [H|H]).
    + apply key_compare_Lt in H. congruence.
    + apply key_compare_Eq in H. congruence.
Qed.

Lemma eqb_key (x y : float) :
  (x =? y)%float = true
  <-> is_nan x = false /\ is_nan y = false /\ B64.fkey x = B64.fkey y.
Proof.
  rewrite eqb_spec, !is_nan_spec. unfold SFeqb. rewrite SFcompare_key. unfold B64.fkey.
  destruct (B64.SFnan (Prim2SF x)), (B64.SFnan (Prim2SF y)); simpl;
    try (split; [done|intros (?&?&?); done]).
  destruct (B64.key_compare _ _) eqn:Hc; split; try done.
  - intros _. by apply key_compare_Eq in Hc.
  - intros (_ & _ & H). apply key_compare_Eq in H. congruence.
  - intros (_ & _ & H). apply key_compare_Eq in H. congruence.
Qed.

Lemma key_lt_trans a b c : B64.key_lt a b -> B64.key_lt b c -> B64.key_lt a c.
Proof. unfold B64.key_lt. lia. Qed.

Lemma key_lt_irrefl a : ~ B64.key_lt a a.
Proof. unfold B64.key_lt. lia. Qed.

Lemma key_total a b : B64.key_lt a b \/ a = b \/ B64.key_lt b a.
Proof.
  destruct a as [[a1 a2] a3], b as [[b1 b2] b3]. unfold B64.key_lt. simpl.
  destruct (Z.lt_trichotomy a1 b1) as [?|[->|?]]; [lia| |lia].
  destruct (Z.lt_trichotomy a2 b2) as [?|[->|?]]; [lia| |lia].
  destruct (Z.lt_trichotomy a3 b3) as [?|[->|?]]; [lia| |lia].
  auto.
Qed.

Lemma ltb_false_leb (x y : float) :
  is_nan x = false -> is_nan y = false ->
  (x <? y)%float = false -> (y <=? x)%float = true.
Proof.
  intros Hx Hy H. apply leb_key. split; [done|]. split; [done|].
  destruct (key_total (B64.fkey x) (B64.fkey y)) as [Hlt|[Heq|Hgt]]; [|auto..].
  assert ((x <? y)%float = true) by (apply ltb_key; auto). congruence.
Qed.

Lemma ltb_leb_false (x y : float) :
  (x <? y)%float = true -> (y <=? x)%float = false.
Proof.
  intros H. apply ltb_key in H as (Hx & Hy & Hlt).
  destruct (y <=? x)%float eqn:Hle; [|done].
  apply leb_key in Hle as (_ & _ & [Hgt|Heq]).
  - destruct (key_lt_irrefl (B64.fkey x)). by eapply key_lt_trans.
  - rewrite Heq in Hlt. by destruct (key_lt_irrefl (B64.fkey x)).
Qed.

Lemma ltb_leb (x y : float) : (x <? y)%float = true -> (x <=? y)%float = true.
Proof.
  intros H. apply ltb_key in H as (Hx & Hy & Hlt). apply leb_key. auto.
Qed.

Lemma ltb_irrefl (x : float) : (x <? x)%float = false.
Proof.
  destruct (x <? x)%float eqn:H; [|done].
  apply ltb_key in H as (_ & _ & H). by destruct (key_lt_irrefl (B64.fkey x)).
Qed.


Lemma ltb_leb_trans (x y z : float) :
  (x <? y)%float = true -> (y <=? z)%float = true -> (x <? z)%float = true.
Proof.
  intros H1 H2. apply ltb_key in H1 as (Hx & Hy & H1). apply leb_key in H2 as (_ & Hz & H2).
  apply ltb_key. split; [done|]. split; [done|].
  destruct H2 as [H2|H2]; [by eapply key_lt_trans|by rewrite <- H2].
Qed.

Lemma ltb_trans (x y z : float) :
  (x <? y)%float = true -> (y <? z)%float = true -> (x <? z)%float = true.
Proof. intros H1 H2. eapply ltb_leb_trans; [exact H1|by apply ltb_leb]. Qed.



(** ** Rounding keeps the sign *)

Lemma digits2_size_nat (p : positive) :
  Zpos (digits2_pos p) = Z.of_nat (Pos.size_nat p).
Proof.
  induction p as [p IH|p IH|]; simpl digits2_pos; simpl Pos.size_nat;
    rewrite ?Pos2Z.inj_succ, ?IH; lia.
Qed.

Lemma size_nat_bounds (p : positive) :
  (2 ^ (Z.of_nat (Pos.size_nat p) - 1) <= Zpos p < 2 ^ Z.of_nat (Pos.size_nat p))%Z.
Proof.
  induction p as [p IH|p IH|]; simpl Pos.size_nat.
  - replace (Z.of_nat (S (Pos.size_nat p)) - 1)%Z with (Z.succ (Z.of_nat (Pos.size_nat p) - 1)) by lia.
    rewrite Nat2Z.inj_succ, !Z.pow_succ_r; [lia|lia|].
    destruct p; simpl Pos.size_nat; lia.
  - replace (Z.of_nat (S (Pos.size_nat p)) - 1)%Z with (Z.succ (Z.of_nat (Pos.size_nat p) - 1)) by lia.
    rewrite Nat2Z.inj_succ, !Z.pow_succ_r; [lia|lia|].
    destruct p; simpl Pos.size_nat; lia.
  - simpl. lia.
Qed.

Lemma iter_pos_nat {A : Type} (f : A -> A) (k : positive) (a : A) :
  iter_pos f k a = Nat.iter (Pos.to_nat k) f a.
Proof.
  revert a. induction k as [k IH|k IH|]; intros a; simpl iter_pos.
  - rewrite !IH, Pos2Nat.inj_xI.
    replace (S (2 * Pos.to_nat k)) with (Pos.to_nat k + (Pos.to_nat k + 1))%nat by lia.
    rewrite !Nat.iter_add. simpl. reflexivity.
  - rewrite !IH, Pos2Nat.inj_xO.
    replace (2 * Pos.to_nat k)%nat with (Pos.to_nat k + Pos.to_nat k)%nat by lia.
    by rewrite Nat.iter_add.
  - reflexivity.
Qed.

Lemma shr_1_positive (mrs : shr_record) (p : positive) :
  shr_m mrs = Zpos p -> (2 <= Pos.size_nat p)%nat ->
  exists q, shr_m (shr_1 mrs) = Zpos q /\ Pos.size_nat q = (Pos.size_nat p - 1)%nat.
Proof.
  destruct mrs as [m r s]. simpl. intros -> Hp.
  destruct p as [q|q|]; simpl in *; [exists q|exists q|lia]; split; (reflexivity || lia).
Qed.

Lemma shr_iter_positive (n : nat) (mrs : shr_record) (p : positive) :
  shr_m mrs = Zpos p -> (n < Pos.size_nat p)%nat ->
  exists q, shr_m (Nat.iter n shr_1 mrs) = Zpos q.
Proof.
  revert mrs p. induction n as [|n IH]; intros mrs p Hm Hn.
  - by exists p.
  - rewrite Nat.iter_succ_r.
    destruct (shr_1_positive mrs p Hm ltac:(lia)) as (q & Hq & Hsize).
    apply (IH _ q Hq). lia.
Qed.


Lemma shr_fexp_positive (m : positive) (e : Z) (l : location) :
  (-1074 <= e)%Z ->
  exists q, shr_m (fst (shr_fexp prec emax (Zpos m) e l)) = Zpos q /\
            (-1074 <= snd (shr_fexp prec emax (Zpos m) e l))%Z.
Proof.
  intros He. unfold shr_fexp, shr, fexp, SpecFloat.emin, Zdigits2.
  rewrite digits2_size_nat.
  pose proof (size_nat_bounds m) as Hb.
  assert (Hs : (1 <= Pos.size_nat m)%nat) by (destruct m; simpl; lia).
  assert (Hm : shr_m (shr_record_of_loc (Zpos m) l) = Zpos m).
  { destruct l as [|[]]; reflexivity. }
  change prec with 53%Z. change emax with 1024%Z.
  destruct (Z.max (Z.of_nat (Pos.size_nat m) + e - 53) (3 - 1024 - 53) - e)%Z
    as [|k|k] eqn:Hk; simpl fst; simpl snd.
  - eauto.
  - rewrite iter_pos_nat.
    destruct (shr_iter_positive (Pos.to_nat k) _ m Hm) as [q Hq]; [lia|].
    exists q. split; [done|lia].
  - eauto.
Qed.

Lemma binary_round_aux_sign (sx : bool) (m : positive) (e : Z) (l : location) :
  (-1074 <= e)%Z ->
  (exists r e', binary_round_aux prec emax sx (Zpos m) e l = S754_finite sx r e') \/
  binary_round_aux prec emax sx (Zpos m) e l = S754_infinity sx.
Proof.
  intros He. unfold binary_round_aux.
  destruct (shr_fexp_positive m e l He) as (q & Hq & He').
  destruct (shr_fexp prec emax (Zpos m) e l) as [mrs' e']. simpl in Hq, He'.
  rewrite Hq.
  assert (Hr : exists q', round_nearest_even (Zpos q) (loc_of_shr_record mrs') = Zpos q').
  { unfold round_nearest_even.
    destruct (loc_of_shr_record mrs') as [|[]]; try destruct (Z.even _); simpl; eauto. }
  destruct Hr as [q' ->].
  destruct (shr_fexp_positive q' e' loc_Exact He') as (r & Hr & _).
  destruct (shr_fexp prec emax (Zpos q') e' loc_Exact) as [mrs'' e'']. simpl in Hr.
  rewrite Hr. destruct (Z.leb e'' _); eauto.
Qed.

Lemma binary_round_sign (sx : bool) (m : positive) (e : Z) :
  (-1074 <= e)%Z ->
  (exists r e', binary_round prec emax sx m e = S754_finite sx r e') \/
  binary_round prec emax sx m e = S754_infinity sx.
Proof.
  intros He. unfold binary_round.
  destruct (shl_align m e _) as [mz ez] eqn:Hal.
  apply binary_round_aux_sign.
  unfold shl_align in Hal.
  destruct (fexp prec emax (Zpos (digits2_pos m) + e) - e)%Z eqn:Hd;
    injection Hal as <- <-; try done.
  unfold fexp, SpecFloat.emin. change prec with 53%Z. change emax with 1024%Z. lia.
Qed.

(** ** The sign of a difference *)

Lemma iter_xO_pow (m d : positive) :
  Zpos (Pos.iter xO m d) = (Zpos m * 2 ^ Zpos d)%Z.
Proof.
  induction d as [|d IH] using Pos.peano_ind.
  - simpl. lia.
  - rewrite Pos.iter_succ, Pos2Z.inj_xO, IH, Pos2Z.inj_succ, Z.pow_succ_r by lia. lia.
Qed.

Lemma shl_align_value (m : positive) (e ez : Z) :
  (ez <= e)%Z ->
  Zpos (fst (shl_align m e ez)) = (Zpos m * 2 ^ (e - ez))%Z.
Proof.
  intros Hle. unfold shl_align.
  destruct (ez - e)%Z as [|d|d] eqn:Hd; simpl fst.
  - replace (e - ez)%Z with 0%Z by lia. simpl. lia.
  - lia.
  - rewrite iter_xO_pow. do 2 f_equal. lia.
Qed.

Lemma valid_finite_bounds (s : bool) (m : positive) (e : Z) :
  valid_binary (S754_finite s m e) = true ->
  (-1074 <= e)%Z /\ (Pos.size_nat m <= 53)%nat /\
  ((-1074 < e)%Z -> Pos.size_nat m = 53%nat).
Proof.
  simpl. unfold bounded, canonical_mantissa, fexp, SpecFloat.emin.
  rewrite digits2_size_nat. change prec with 53%Z. change emax with 1024%Z.
  intros H. apply andb_prop in H as [H _]. apply Z.eqb_eq in H. lia.
Qed.

(** Two valid mantissas at a common exponent compare as their exponents
    and mantissas do, in this order. *)
Lemma aligned_lt (mx my : positive) (ex ey : Z) (sx sy : bool) :
  valid_binary (S754_finite sx mx ex) = true ->
  valid_binary (S754_finite sy my ey) = true ->
  let ez := Z.min ex ey in
  (Zpos (fst (shl_align mx ex ez)) < Zpos (fst (shl_align my ey ez))
   <-> (ex < ey \/ (ex = ey /\ Zpos mx < Zpos my)))%Z.
Proof.
  intros Hx Hy ez.
  apply valid_finite_bounds in Hx as (Hex & Hsx & Hnx), Hy as (Hey & Hsy & Hny).
  rewrite !shl_align_value by lia.
  pose proof (size_nat_bounds mx) as Hbx. pose proof (size_nat_bounds my) as Hby.
  assert (Hpow : forall k, (1 <= k)%Z -> (2 <= 2 ^ k)%Z).
  { intros k Hk. change 2%Z with (2 ^ 1)%Z at 1. apply Z.pow_le_mono_r; lia. }
  assert (H53 : forall m, (Pos.size_nat m <= 53)%nat -> (Zpos m < 2 ^ 53)%Z).
  { intros m Hm. pose proof (size_nat_bounds m) as [_ Hb].
    eapply Z.lt_le_trans; [exact Hb|]. apply Z.pow_le_mono_r; lia. }
  destruct (Z.lt_trichotomy ex ey) as [Hlt|[Heq|Hgt]].
  - replace (ex - ez)%Z with 0%Z by lia. replace (ey - ez)%Z with (ey - ex)%Z by lia.
    rewrite Hny in Hby by lia. change (Z.of_nat 53 - 1)%Z with 52%Z in Hby.
    pose proof (Hpow (ey - ex)%Z ltac:(lia)). pose proof (H53 mx Hsx).
    change (2 ^ 52)%Z with 4503599627370496%Z in Hby.
    change (2 ^ 53)%Z with 9007199254740992%Z in *.
    split; [lia|]. intros _. nia.
  - subst ey. replace (ex - ez)%Z with 0%Z by lia. simpl. lia.
  - replace (ey - ez)%Z with 0%Z by lia. replace (ex - ez)%Z with (ex - ey)%Z by lia.
    rewrite Hnx in Hbx by lia. change (Z.of_nat 53 - 1)%Z with 52%Z in Hbx.
    pose proof (Hpow (ex - ey)%Z ltac:(lia)). pose proof (H53 my Hsy).
    change (2 ^ 52)%Z with 4503599627370496%Z in Hbx.
    change (2 ^ 53)%Z with 9007199254740992%Z in *.
    split; [nia|lia].
Qed.

Lemma SFltb_zero (x : spec_float) : SFltb x (S754_zero false) = B64.SFneg x.
Proof. by destruct x as [[]|[]| |[] ? ?]. Qed.

Lemma binary_normalize_neg (d e : Z) :
  (-1074 <= e)%Z ->
  B64.SFneg (binary_normalize prec emax d e false) = (d <? 0)%Z.
Proof.
  intros He. destruct d as [|p|p]; simpl; [done| |].
  - destruct (binary_round_sign false p e He) as [(r & e' & ->)| ->]; done.
  - destruct (binary_round_sign true p e He) as [(r & e' & ->)| ->]; done.
Qed.

Lemma SFsub_neg (X Y : spec_float) :
  valid_binary X = true -> valid_binary Y = true ->
  B64.SFneg (SFsub prec emax X Y) = SFltb X Y.
Proof.
  intros HX HY.
  destruct X as [sx|sx| |sx mx ex], Y as [sy|sy| |sy my ey];
    try done; try (by destruct sx); try (by destruct sy); try (by destruct sx, sy).
  unfold SFsub.
  pose proof (valid_finite_bounds _ _ _ HX) as (Hex & _).
  pose proof (valid_finite_bounds _ _ _ HY) as (Hey & _).
  rewrite binary_normalize_neg by lia.
  pose proof (aligned_lt mx my ex ey sx sy HX HY) as H1.
  pose proof (aligned_lt my mx ey ex sy sx HY HX) as H2.
  cbv zeta in H1, H2. rewrite (Z.min_comm ey ex) in H2.
  unfold SFltb. rewrite SFcompare_key. simpl B64.SFnan. simpl orb. cbv iota.
  set (a := Zpos (fst (shl_align mx ex (Z.min ex ey)))) in *.
  set (b := Zpos (fst (shl_align my ey (Z.min ex ey)))) in *.
  assert (Ha : (0 < a)%Z) by done. assert (Hb : (0 < b)%Z) by done.
  destruct (B64.key_compare _ _) eqn:Hc.
  - apply key_compare_Eq in Hc. apply Z.ltb_ge.
    destruct sx, sy; simpl in Hc |- *; injection Hc as ? ?; try lia.
  - apply key_compare_Lt in Hc. apply Z.ltb_lt. unfold B64.key_lt in Hc.
    destruct sx, sy; simpl in Hc |- *; lia.
  - apply key_compare_Gt in Hc. apply Z.ltb_ge. unfold B64.key_lt in Hc.
    destruct sx, sy; simpl in Hc |- *; lia.
Qed.

(** The comparator of [Array.prototype.sort] in [computeGlobalOrder]:
    a difference is negative exactly when its first term is the smaller
    one. *)
Lemma sub_ltb_zero (x y : float) : ((x - y) <? 0)%float = (x <? y)%float.
Proof.
  rewrite !ltb_spec, sub_spec. unfold SF64sub.
  change (Prim2SF 0) with (S754_zero false).
  rewrite SFltb_zero. apply SFsub_neg; apply Prim2SF_valid.
Qed.

(** ** Sums of numbers that are not negative *)

Lemma notNegative_spec (v : float) :
  B64.notNegative v
  <-> B64.SFnan (Prim2SF v) = false /\ B64.SFneg (Prim2SF v) = false.
Proof.
  unfold B64.notNegative. rewrite is_nan_spec, ltb_spec.
  change (Prim2SF 0) with (S754_zero false). by rewrite SFltb_zero.
Qed.

Lemma SFadd_notNegative (X Y : spec_float) :
  valid_binary X = true -> valid_binary Y = true ->
  B64.SFnan X = false -> B64.SFneg X = false ->
  B64.SFnan Y = false -> B64.SFneg Y = false ->
  B64.SFnan (SFadd prec emax X Y) = false /\ B64.SFneg (SFadd prec emax X Y) = false.
Proof.
  intros HX HY.
  destruct X as [sx|sx| |sx mx ex], Y as [sy|sy| |sy my ey];
    try done; try (by destruct sx); try (by destruct sy); try (by destruct sx, sy).
  destruct sx; [done|]. destruct sy; [done|]. intros _ _ _ _.
  unfold SFadd. cbn [cond_Zopp].
  pose proof (valid_finite_bounds _ _ _ HX) as (Hex & _).
  pose proof (valid_finite_bounds _ _ _ HY) as (Hey & _).
  rewrite <- Pos2Z.inj_add. cbn [binary_normalize].
  destruct (binary_round_sign false
              (fst (shl_align mx ex (Z.min ex ey)) + fst (shl_align my ey (Z.min ex ey)))
              (Z.min ex ey) ltac:(lia)) as [(r & e' & ->)| ->]; done.
Qed.

Lemma add_notNegative (a b : float) :
  B64.notNegative a -> B64.notNegative b -> B64.notNegative (a + b)%float.
Proof.
  rewrite !notNegative_spec, add_spec. intros [? ?] [? ?].
  apply SFadd_notNegative; try done; apply Prim2SF_valid.
Qed.

Lemma zero_notNegative : B64.notNegative 0%float.
Proof. done. Qed.

Lemma orZero_notNegative (v : option float) :
  match v with Some v => (v <? 0)%float = false | None => True end ->
  B64.notNegative (B64.orZero v).
Proof.
  destruct v as [v|]; simpl; [|intros _; apply zero_notNegative].
  intros Hv. destruct (is_nan v) eqn:Hn; simpl; [apply zero_notNegative|].
  destruct (is_zero v); [apply zero_notNegative|done].
Qed.

(** ** Tables of binary64 numbers filled slot by slot *)

Lemma b64_for_loop_sum_from (g : nat -> float) (l : list float) (a : float) :
  (forall s v, l !! s = Some v -> g s = v) ->
  for_loop 0 (length l) (fun sum s => (sum + g s)%float) a = foldl PrimFloat.add a l.
Proof.
  induction l as [|v l IH] using rev_ind; intros Hg.
  - by rewrite for_loop_nil.
  - rewrite length_app. simpl. rewrite Nat.add_1_r, for_loop_S by lia.
    rewrite IH, foldl_snoc.
    + f_equal. apply Hg. rewrite lookup_app_r by lia.
      by rewrite Nat.sub_diag.
    + intros s w Hs. apply Hg. rewrite lookup_app_l; [done|].
      by eapply lookup_lt_Some.
Qed.

Lemma b64_set2_as_insert (m : list (list float)) (r c : nat) (v : float) (row : list float) :
  m !! r = Some row -> B64.set2 m r c v = <[r := <[c := v]> row]> m.
Proof. intros Hr. unfold B64.set2. by apply alter_as_insert. Qed.

Lemma b64_fill_row (f : nat -> float) (C : nat) :
  for_loop 0 C (fun row i => <[i := f i]> row) (replicate C 0%float) = map f (seq 0 C).
Proof.
  apply list_eq. intros i.
  rewrite (loop_slots_all _ (fun i _ => f i)); [|done|by rewrite length_replicate].
  rewrite list_lookup_fmap.
  destruct (decide (i < C)) as [Hi|Hi].
  - rewrite lookup_replicate_2, lookup_seq_lt by lia. reflexivity.
  - beyond.
Qed.

Lemma b64_fill_by_columns (f : nat -> nat -> float) (R C : nat) :
  for_loop 0 C (fun m i => for_loop 0 R (fun m s => B64.set2 m s i (f s i)) m)
    (replicate R (replicate C 0%float))
  = map (fun s => map (fun i => f s i) (seq 0 C)) (seq 0 R).
Proof.
  apply list_eq. intros s.
  rewrite (loop_pointwise _ (fun i s row => <[i := f s i]> row) R);
    [| |by rewrite length_replicate].
  - rewrite list_lookup_fmap.
    destruct (decide (s < R)) as [Hs|Hs].
    + rewrite lookup_replicate_2, lookup_seq_lt by done. simpl.
      by rewrite b64_fill_row.
    + beyond.
  - intros i m' Hlen j.
    apply (loop_slots_all _ (fun s row => <[i := f s i]> row)); [|done].
    intros k m'' a _ _ Hk. by apply b64_set2_as_insert.
Qed.

Lemma b64_get2_lookup (m : list (list float)) (r c : nat) (row : list float) :
  m !! r = Some row -> B64.get2 m r c = B64.get row c.
Proof. intros Hr. unfold B64.get2. by rewrite Hr. Qed.

Lemma b64_column_sum_loop (m : list (list float)) (i : nat) :
  for_loop 0 (length m) (fun sum s => (sum + B64.get2 m s i)%float) 0%float
  = B64.Fsum (B64.column m i).
Proof.
  unfold B64.Fsum.
  rewrite <- (b64_for_loop_sum_from (fun s => B64.get2 m s i) (B64.column m i)).
  - unfold B64.column. by rewrite length_map.
  - intros s v. unfold B64.column. rewrite list_lookup_fmap.
    destruct (m !! s) as [row|] eqn:Hs; [|done].
    simpl. intros [= <-]. by apply b64_get2_lookup.
Qed.

Lemma b64_get_map_seq (f : nat -> float) (n i : nat) :
  (i < n)%nat -> B64.get (map f (seq 0 n)) i = f i.
Proof.
  intros Hi. unfold B64.get. by rewrite list_lookup_fmap, lookup_seq_lt.
Qed.

(** ** Normalizer *)

Lemma b64_transformToMock_closed (data : B64.MockData) (sCount L : nat) :
  B64.seriesTable data sCount L -> (1 <= sCount)%nat ->
  B64.transformToMock data
  = Ok ({| B64.x := map B64.num_of_nat (seq 0 L);
           B64.series :=
             map (fun s => map (fun i => B64.normShare (B64.seriesVals_of data) s i)
                               (seq 0 L)) (seq 0 sCount) |},
        map B64.name (B64.md_series data)).
Proof.
  intros (Hs & Hl & Hlen) Hpos. unfold B64.transformToMock.
  rewrite Hs, Hl.
  destruct (Nat.eqb_spec sCount 0) as [?|_]; [lia|].
  assert (Hall : forallb (fun s => (length (B64.values s) =? L)%nat)
                   (B64.md_series data) = true).
  { apply forallb_forall. intros ser Hin. apply Nat.eqb_eq.
    apply list_elem_of_In, list_elem_of_lookup in Hin as [s Hin]. eauto. }
  rewrite Hall. simpl. do 3 f_equal.
  rewrite <- b64_fill_by_columns. apply for_loop_ext. intros m i _.
  fold (B64.seriesVals_of data).
  assert (Hn : length (B64.seriesVals_of data) = sCount).
  { unfold B64.seriesVals_of. by rewrite length_map. }
  assert (Hsum : for_loop 0 sCount
                    (fun sum s => (sum + B64.get2 (B64.seriesVals_of data) s i)%float) 0%float
                  = B64.Fsum (B64.column (B64.seriesVals_of data) i)).
  { rewrite <- Hn. apply b64_column_sum_loop. }
  rewrite !Hsum. unfold B64.normShare. rewrite Hn.
  destruct (B64.Fsum (B64.column (B64.seriesVals_of data) i) <=? 0)%float; done.
Qed.

Lemma b64_get_map_clamp0 (l : list float) (i : nat) :
  B64.get (map B64.clamp0 l) i = B64.clamp0 (B64.get l i).
Proof.
  unfold B64.get. rewrite list_lookup_fmap. destruct (l !! i); [done|].
  simpl. reflexivity.
Qed.

Lemma b64_column_seriesVals (data : B64.MockData) (i : nat) :
  B64.column (B64.seriesVals_of data) i
  = map (fun ser => B64.clampedValue ser i) (B64.md_series data).
Proof.
  unfold B64.column, B64.seriesVals_of. rewrite map_map. apply map_ext.
  intros ser. apply b64_get_map_clamp0.
Qed.

Lemma b64_get2_seriesVals (data : B64.MockData) (s i : nat) (ser : B64.MockSeries) :
  B64.md_series data !! s = Some ser ->
  B64.get2 (B64.seriesVals_of data) s i = B64.clampedValue ser i.
Proof.
  intros Hs. unfold B64.get2, B64.seriesVals_of.
  rewrite list_lookup_fmap, Hs. simpl. apply b64_get_map_clamp0.
Qed.

(** [Math.max(0, v)] is not below zero unless [v] is [NaN]. *)
Lemma clamp0_ge (v : float) : is_nan v = false -> (0 <=? B64.clamp0 v)%float = true.
Proof.
  intros Hv. unfold B64.clamp0, B64.Math_max.
  change (is_nan 0) with false. rewrite Hv. cbn [orb].
  destruct (0 <? v)%float eqn:H1; [by apply ltb_leb|].
  destruct (v <? 0)%float eqn:H2; [done|].
  cbn. done.
Qed.

(** C2.  The Normalizer accepts every table of [sCount >= 1] series of a
    common length and clamps each value to [>= 0]; at every sample a
    series' share is the binary64 quotient of its clamped value by the
    clamped sum (added up in series order) where that sum is positive, and
    [1 / sCount] for every series where the sum is [<= 0].  When the sum
    is neither (it is [NaN]) the share is the quotient as well. *)
Theorem normalizer_shares (data : B64.MockData) (sCount L : nat) :
  B64.seriesTable data sCount L -> (1 <= sCount)%nat ->
  exists mock names,
    B64.transformToMock data = Ok (mock, names) /\
    length (B64.series mock) = sCount /\
    forall i, (i < L)%nat ->
      forall s ser, B64.md_series data !! s = Some ser ->
        exists row,
          B64.series mock !! s = Some row /\ length row = L /\
          (is_nan (B64.get (B64.values ser) i) = false ->
             (0 <=? B64.clampedValue ser i)%float = true) /\
          ((0 <? B64.sampleSum data i)%float = true ->
             B64.get row i = (B64.clampedValue ser i / B64.sampleSum data i)%float) /\
          ((B64.sampleSum data i <=? 0)%float = true ->
             B64.get row i = (1 / B64.num_of_nat sCount)%float) /\
          ((B64.sampleSum data i <=? 0)%float = false ->
             B64.get row i = (B64.clampedValue ser i / B64.sampleSum data i)%float).
Proof.
  intros Htab Hpos. rewrite (b64_transformToMock_closed data sCount L) by done.
  destruct Htab as (Hs & Hl & Hlen).
  assert (Hn : length (B64.seriesVals_of data) = sCount).
  { unfold B64.seriesVals_of. by rewrite length_map. }
  eexists _, _. split; [reflexivity|]. cbn [B64.series].
  split; [by rewrite length_map, length_seq|].
  intros i Hi s ser Hser.
  assert (Hslt : (s < sCount)%nat) by (rewrite <- Hs; by eapply lookup_lt_Some).
  eexists. split.
  { rewrite list_lookup_fmap, lookup_seq_lt by done. reflexivity. }
  split; [by rewrite length_map, length_seq|].
  rewrite b64_get_map_seq by done. unfold B64.normShare. cbv zeta.
  change (0 + s)%nat with s.
  rewrite b64_column_seriesVals, (b64_get2_seriesVals data s i ser Hser), Hn.
  fold (B64.sampleSum data i).
  split; [apply clamp0_ge|]. split; [|split].
  - intros Hlt. by rewrite (ltb_leb_false _ _ Hlt).
  - by intros ->.
  - by intros ->.
Qed.

(** The raw values [1], [4], [1] of one sample: the second series gets
    the share [4 / 6]. *)
Lemma normalizer_shares_witness :
  B64.seriesTable B64.sampleTable 3 1 /\
  exists mock names row,
    B64.transformToMock B64.sampleTable = Ok (mock, names) /\
    length (B64.series mock) = 3%nat /\
    B64.series mock !! 1%nat = Some row /\
    B64.get row 0 = 0x1.5555555555555p-1%float.
Proof.
  assert (Htab : B64.seriesTable B64.sampleTable 3 1).
  { split; [done|]. split; [done|].
    intros [|[|[|s]]] ser; simpl; intros [= <-]; done. }
  split; [exact Htab|].
  destruct (normalizer_shares B64.sampleTable 3 1 Htab ltac:(lia))
    as (mock & names & Hok & Hlen & Hshares).
  destruct (Hshares 0%nat ltac:(lia) 1%nat _ eq_refl) as (row & Hrow & _ & _ & Hq & _).
  exists mock, names, row. split; [exact Hok|]. split; [exact Hlen|].
  split; [exact Hrow|]. rewrite Hq by (vm_compute; reflexivity).
  vm_compute. reflexivity.
Defined.

(** The shares the Normalizer gives three series with the raw values
    [0.1], [0.2] and [0.3] do not add up to one: neither their binary64
    sum nor the sum of their exact values is [1]. *)
Lemma normalizer_sum_below_one :
  B64.transformToMock B64.sampleTenths
  = Ok ({| B64.x := [0%float];
           B64.series := [[0x1.5555555555555p-3]; [0x1.5555555555555p-2];
                          [0x1.ffffffffffffep-2]]%float |},
        ["a"; "b"; "c"]%string) /\
  B64.Fsum [0x1.5555555555555p-3; 0x1.5555555555555p-2; 0x1.ffffffffffffep-2]%float
  = 0x1.fffffffffffffp-1%float /\
  (0x1.fffffffffffffp-1 <? 1)%float = true /\
  (Qsum (map B64.exact [0x1.5555555555555p-3; 0x1.5555555555555p-2;
                        0x1.ffffffffffffep-2]%float) < 1)%Q.
Proof. repeat split; vm_compute; reflexivity. Qed.

(** ** Binning Engine over binary64 numbers *)

Lemma b64_set2_self (m : list (list float)) (b s : nat) (sum : float) :
  B64.set2 m b s (B64.get2 m b s / sum)%float
  = alter (fun row => <[s := (B64.get row s / sum)%float]> row) b m.
Proof.
  unfold B64.set2, B64.get2. apply list_eq. intros j. rewrite !list_lookup_alter.
  case_decide; [|done]. by destruct (m !! b).
Qed.

Lemma b64_accumulate_row (v : nat -> nat -> float) (sCount lo hi : nat)
    (row : list float) (s : nat) :
  length row = sCount ->
  for_loop lo hi (fun row i =>
    for_loop 0 sCount (fun row s => alter (fun x => (x + v s i)%float) s row) row) row !! s
  = (fun x => for_loop lo hi (fun x i => (x + v s i)%float) x) <$> row !! s.
Proof.
  intros Hlen.
  apply (loop_pointwise _ (fun i s x => (x + v s i)%float) sCount); [|done].
  intros i row' Hlen' j.
  apply (loop_slots_all _ (fun s x => (x + v s i)%float)); [|done].
  intros k row'' a _ _ Hk.
  by apply (alter_as_insert (fun x => (x + v k i)%float)).
Qed.

Lemma b64_normalize_row (sum : float) (sCount : nat) (row : list float) (s : nat) :
  length row = sCount ->
  for_loop 0 sCount (fun row s => <[s := (B64.get row s / sum)%float]> row) row !! s
  = (fun x => (x / sum)%float) <$> row !! s.
Proof.
  intros Hlen. apply (loop_slots_all _ (fun _ x => (x / sum)%float)); [|done].
  intros k row' a _ _ Hk. unfold B64.get. by rewrite Hk.
Qed.

Lemma b64_uniform_row (v : float) (sCount : nat) (row : list float) (s : nat) :
  length row = sCount ->
  for_loop 0 sCount (fun row s => <[s := v]> row) row !! s
  = (fun _ => v) <$> row !! s.
Proof.
  intros Hlen. by apply (loop_slots_all _ (fun _ _ => v)).
Qed.

(** One turn of the outer loop of [aggregateBins], for a table that has a
    row of zeros at [b]. *)
Lemma b64_aggregateBins_turn (data : B64.Mock) (lo hi b : nat) (bins : list (list float)) :
  let sCount := length (B64.series data) in
  bins !! b = Some (replicate sCount 0%float) ->
  (let bins1 :=
     for_loop lo hi (fun bins i =>
       for_loop 0 sCount (fun bins s =>
         let v := B64.clamp0 (B64.get2 (B64.series data) s i) in
         B64.add2 bins b s v) bins) bins in
   let sum := for_loop 0 sCount (fun sum s => (sum + B64.get2 bins1 b s)%float) 0%float in
   if (sum <=? 0)%float then
     let v := (1 / B64.num_of_nat sCount)%float in
     for_loop 0 sCount (fun bins s => B64.set2 bins b s v) bins1
   else
     for_loop 0 sCount (fun bins s => B64.set2 bins b s (B64.get2 bins b s / sum)%float) bins1)
  = <[b := B64.binRow data lo hi]> bins.
Proof.
  intros sCount Hb. cbv zeta.
  set (v := fun s i => B64.clamp0 (B64.get2 (B64.series data) s i)).
  set (acc := fun row : list float =>
         for_loop lo hi (fun row i =>
           for_loop 0 sCount (fun row s => alter (fun x => (x + v s i)%float) s row) row) row).
  assert (Hbins1 :
    for_loop lo hi (fun bins i =>
      for_loop 0 sCount (fun bins s =>
        B64.add2 bins b s (B64.clamp0 (B64.get2 (B64.series data) s i))) bins)
      bins
    = <[b := acc (replicate sCount 0%float)]> bins).
  { transitivity (alter acc b bins); [|by apply alter_as_insert].
    unfold acc.
    rewrite <- (loop_alter_row (fun i row =>
      for_loop 0 sCount (fun row s => alter (fun x => (x + v s i)%float) s row) row)).
    apply for_loop_ext. intros m i _.
    apply (loop_alter_row (fun s row => alter (fun x => (x + v s i)%float) s row)). }
  rewrite Hbins1.
  assert (Hacc : forall s, (s < sCount)%nat ->
            acc (replicate sCount 0%float) !! s = Some (B64.binRaw data lo hi s)).
  { intros s Hs. unfold acc.
    rewrite (b64_accumulate_row v sCount) by (by rewrite length_replicate).
    by rewrite lookup_replicate_2. }
  assert (Hlen : length (acc (replicate sCount 0%float)) = sCount).
  { unfold acc.
    erewrite (lookup_fmap_length
                (fun s x => for_loop lo hi (fun x i => (x + v s i)%float) x)).
    - apply length_replicate.
    - intros j. apply b64_accumulate_row, length_replicate. }
  assert (Hin : (b < length bins)%nat) by (by eapply lookup_lt_Some).
  assert (Hrow1 : <[b := acc (replicate sCount 0%float)]> bins !! b
                  = Some (acc (replicate sCount 0%float))).
  { by apply list_lookup_insert_eq. }
  assert (Hsum :
    for_loop 0 sCount (fun sum s =>
      (sum + B64.get2 (<[b := acc (replicate sCount 0%float)]> bins) b s)%float) 0%float
    = for_loop 0 sCount (fun sum s => (sum + B64.binRaw data lo hi s)%float) 0%float).
  { apply for_loop_ext. intros sum s [_ Hs]. f_equal.
    rewrite (b64_get2_lookup _ _ _ _ Hrow1). unfold B64.get. by rewrite Hacc. }
  rewrite Hsum.
  set (sum := for_loop 0 sCount (fun sum s => (sum + B64.binRaw data lo hi s)%float) 0%float).
  assert (Hfinal : forall F : list float -> list float,
    (forall s, F (acc (replicate sCount 0%float)) !! s
               = (B64.binRow data lo hi) !! s) ->
    alter F b (<[b := acc (replicate sCount 0%float)]> bins)
    = <[b := B64.binRow data lo hi]> bins).
  { intros F HF. rewrite (alter_as_insert F _ b _ Hrow1).
    rewrite list_insert_insert_eq. f_equal. apply list_eq, HF. }
  destruct (sum <=? 0)%float eqn:Hle.
  - rewrite (for_loop_ext _ _ _
       (fun bins s => alter (fun row => <[s := (1 / B64.num_of_nat sCount)%float]> row) b bins))
      by done.
    rewrite (loop_alter_row (fun s row => <[s := (1 / B64.num_of_nat sCount)%float]> row)).
    apply Hfinal. intros s. rewrite b64_uniform_row by done.
    unfold B64.binRow. fold sCount. fold sum. rewrite Hle, list_lookup_fmap.
    destruct (decide (s < sCount)%nat) as [Hs|Hs].
    + by rewrite Hacc, lookup_seq_lt.
    + beyond.
  - rewrite (for_loop_ext _ _ _
       (fun bins s => alter (fun row => <[s := (B64.get row s / sum)%float]> row) b bins))
      by (intros; apply b64_set2_self).
    rewrite (loop_alter_row (fun s row => <[s := (B64.get row s / sum)%float]> row)).
    apply Hfinal. intros s. rewrite b64_normalize_row by done.
    unfold B64.binRow. fold sCount. fold sum. rewrite Hle, list_lookup_fmap.
    destruct (decide (s < sCount)%nat) as [Hs|Hs].
    + by rewrite Hacc, lookup_seq_lt.
    + beyond.
Qed.

Lemma b64_aggregateBins_closed (data : B64.Mock) (columns : nat) (shiftHalfBin : bool) :
  B64.aggregateBins data columns shiftHalfBin
  = map (fun b => B64.binRow data
                    (B64.binStart (length (B64.x data)) columns shiftHalfBin b)
                    (B64.binEnd (length (B64.x data)) columns shiftHalfBin b))
        (seq 0 columns).
Proof.
  unfold B64.aggregateBins. apply list_eq. intros b.
  rewrite (loop_slots_all _ (fun b _ => B64.binRow data
                    (B64.binStart (length (B64.x data)) columns shiftHalfBin b)
                    (B64.binEnd (length (B64.x data)) columns shiftHalfBin b)));
    [| |by rewrite length_replicate].
  - rewrite list_lookup_fmap.
    destruct (decide (b < columns)%nat) as [Hb|Hb].
    + by rewrite lookup_replicate_2, lookup_seq_lt.
    + beyond.
  - intros k bins a Hk Ha Hbins.
    apply lookup_replicate in Ha as [-> _].
    by apply b64_aggregateBins_turn.
Qed.

(** *** The window of a bin *)









(** ** Global order over binary64 numbers: the sort *)

Lemma eqb_sym (x y : float) : (x =? y)%float = true -> (y =? x)%float = true.
Proof. rewrite !eqb_key. intros (? & ? & ?). done. Qed.

Lemma eqb_trans (x y z : float) :
  (x =? y)%float = true -> (y =? z)%float = true -> (x =? z)%float = true.
Proof. rewrite !eqb_key. intros (? & ? & ?) (? & ? & ?). split_and!; congruence. Qed.

Lemma ltb_eqb_trans (x y z : float) :
  (x <? y)%float = true -> (y =? z)%float = true -> (x <? z)%float = true.
Proof.
  rewrite !ltb_key, eqb_key. intros (? & ? & ?) (? & ? & Heq).
  split_and!; try done. by rewrite <- Heq.
Qed.

Lemma eqb_ltb_trans (x y z : float) :
  (x =? y)%float = true -> (y <? z)%float = true -> (x <? z)%float = true.
Proof.
  rewrite !ltb_key, eqb_key. intros (? & ? & Heq) (? & ? & ?).
  split_and!; try done. by rewrite Heq.
Qed.

Lemma leb_cases (x y : float) :
  (x <=? y)%float = true -> (x <? y)%float = true \/ (x =? y)%float = true.
Proof.
  rewrite leb_key, ltb_key, eqb_key. intros (? & ? & [?|?]); [left|right]; done.
Qed.

Section B64Sort.
Variable t : nat -> float.
Hypothesis t_number : forall a, is_nan (t a) = false.
Let cmp (a b : nat) : float := (t b - t a)%float.

Lemma b64_cmp_neg (a b : nat) : (cmp a b <? 0)%float = (t b <? t a)%float.
Proof. apply sub_ltb_zero. Qed.

Lemma b64_sort_insert_perm (v : nat) (l : list nat) : B64.sort_insert cmp v l ≡ₚ v :: l.
Proof.
  induction l as [|u l IH]; simpl; [done|].
  destruct (cmp v u <? 0)%float; [done|].
  rewrite IH. apply Permutation_swap.
Qed.

Lemma b64_Array_sort_perm (l : list nat) : B64.Array_sort cmp l ≡ₚ l.
Proof.
  unfold B64.Array_sort.
  enough (H : forall acc,
             foldl (fun sorted v => B64.sort_insert cmp v sorted) acc l ≡ₚ l ++ acc).
  { rewrite H. by rewrite app_nil_r. }
  induction l as [|v l IH]; intros acc; simpl; [done|].
  rewrite IH, b64_sort_insert_perm. by rewrite Permutation_middle.
Qed.

Lemma b64_ranksBefore_trans (a b c : nat) :
  B64.ranksBefore t a b -> B64.ranksBefore t b c -> B64.ranksBefore t a c.
Proof.
  unfold B64.ranksBefore. intros [Hab|[Hab Hab']] [Hbc|[Hbc Hbc']].
  - left. by eapply ltb_trans.
  - left. eapply eqb_ltb_trans; [apply eqb_sym, Hbc|done].
  - left. eapply ltb_eqb_trans; [exact Hbc|by apply eqb_sym].
  - right. split; [by eapply eqb_trans|lia].
Qed.

(** Inserting an index larger than all those already placed keeps the
    list ranked. *)
Lemma b64_sort_insert_sorted (v : nat) (l : list nat) :
  StronglySorted (B64.ranksBefore t) l ->
  Forall (fun u => (u < v)%nat) l ->
  StronglySorted (B64.ranksBefore t) (B64.sort_insert cmp v l).
Proof.
  induction 1 as [|u l Hl IH Hu]; intros Hlt; simpl.
  - repeat constructor.
  - apply Forall_cons in Hlt as [Huv Hlt].
    destruct (cmp v u <? 0)%float eqn:Hc.
    + rewrite b64_cmp_neg in Hc.
      assert (Hvu : B64.ranksBefore t v u) by (by left).
      constructor; [by constructor|].
      constructor; [done|].
      eapply Forall_impl; [exact Hu|]. intros w Hw.
      by eapply b64_ranksBefore_trans.
    + constructor; [by apply IH|].
      rewrite b64_sort_insert_perm. constructor; [|done].
      rewrite b64_cmp_neg in Hc.
      apply ltb_false_leb in Hc; [|apply t_number..].
      unfold B64.ranksBefore.
      destruct (leb_cases _ _ Hc) as [Hlt'|Heq]; [by left|].
      right. split; [by apply eqb_sym|done].
Qed.

Lemma b64_Array_sort_sorted (n : nat) :
  StronglySorted (B64.ranksBefore t) (B64.Array_sort cmp (seq 0 n)).
Proof.
  unfold B64.Array_sort. induction n as [|n IH].
  - constructor.
  - rewrite seq_S, foldl_snoc. simpl. apply b64_sort_insert_sorted; [done|].
    fold (B64.Array_sort cmp (seq 0 n)). rewrite b64_Array_sort_perm.
    apply Forall_forall. intros u Hu. apply elem_of_seq in Hu. lia.
Qed.
End B64Sort.

(** ** Global order over binary64 numbers: the totals *)

Lemma for_loop_foldl {A B : Type} (f : A -> B -> A) (d : B) (l : list B) (a : A) :
  for_loop 0 (length l) (fun acc c => f acc (default d (l !! c))) a = foldl f a l.
Proof.
  induction l as [|v l IH] using rev_ind.
  - by rewrite for_loop_nil.
  - rewrite length_app. simpl. rewrite Nat.add_1_r, for_loop_S by lia.
    rewrite foldl_snoc, <- IH.
    rewrite lookup_app_r, Nat.sub_diag by lia. simpl. f_equal.
    apply for_loop_ext. intros acc c [_ Hc]. by rewrite lookup_app_l.
Qed.

Lemma b64_addBins_lookup (sCount : nat) (bins : list (list float)) (totals : list float)
    (s : nat) :
  length totals = sCount ->
  B64.addBins sCount bins totals !! s
  = (fun t => foldl (fun t col => (t + B64.orZero (col !! s))%float) t bins)
      <$> totals !! s.
Proof.
  intros Hlen. unfold B64.addBins.
  rewrite (loop_pointwise _
             (fun c s t => (t + B64.orZero (default [] (bins !! c) !! s))%float) sCount);
    [| |done].
  - destruct (totals !! s) as [t|]; [|done]. simpl. f_equal.
    apply (for_loop_foldl (fun t col => (t + B64.orZero (col !! s))%float) []).
  - intros c totals' Hlen' j.
    apply (loop_slots_all _
             (fun s t => (t + B64.orZero (default [] (bins !! c) !! s))%float)); [|done].
    intros k m' a _ _ Hk.
    by apply (alter_as_insert
                (fun t => (t + B64.orZero (default [] (bins !! c) !! k))%float)).
Qed.

Lemma b64_addBins_length (sCount : nat) (bins : list (list float)) (totals : list float) :
  length totals = sCount -> length (B64.addBins sCount bins totals) = sCount.
Proof.
  intros Hlen. rewrite <- Hlen.
  apply (lookup_fmap_length
           (fun s t => foldl (fun t col => (t + B64.orZero (col !! s))%float) t bins)).
  intros j. by apply b64_addBins_lookup.
Qed.

Lemma b64_globalTotals_total (binsEven binsOdd : list (list float)) (sCount s : nat) :
  (s < sCount)%nat ->
  B64.get (B64.globalTotals binsEven binsOdd sCount) s
  = B64.totalShare binsEven binsOdd s.
Proof.
  intros Hs. unfold B64.globalTotals, B64.get, B64.totalShare.
  rewrite b64_addBins_lookup by (apply b64_addBins_length, length_replicate).
  rewrite b64_addBins_lookup by apply length_replicate.
  by rewrite lookup_replicate_2.
Qed.

Lemma b64_globalTotals_length (binsEven binsOdd : list (list float)) (sCount : nat) :
  length (B64.globalTotals binsEven binsOdd sCount) = sCount.
Proof.
  unfold B64.globalTotals. apply b64_addBins_length, b64_addBins_length, length_replicate.
Qed.

Lemma foldl_orZero_notNegative (bins : list (list float)) (s : nat) (t : float) :
  B64.noNegativeEntry bins -> B64.notNegative t ->
  B64.notNegative (foldl (fun t col => (t + B64.orZero (col !! s))%float) t bins).
Proof.
  revert t. induction bins as [|col bins IH]; intros t Hbins Ht; simpl; [done|].
  apply IH.
  - intros col' v Hcol Hv. apply (Hbins col' v); [by right|done].
  - apply add_notNegative; [done|]. apply orZero_notNegative.
    destruct (col !! s) as [v|] eqn:Hv; [|done].
    apply (Hbins col v); [by left|]. by eapply list_elem_of_lookup_2.
Qed.

Lemma totalShare_number (binsEven binsOdd : list (list float)) (s : nat) :
  B64.noNegativeEntry binsEven -> B64.noNegativeEntry binsOdd ->
  is_nan (B64.totalShare binsEven binsOdd s) = false.
Proof.
  intros He Ho. unfold B64.totalShare.
  apply (foldl_orZero_notNegative binsOdd s); [done|].
  apply foldl_orZero_notNegative; [done|apply zero_notNegative].
Qed.

Lemma b64_computeGlobalOrder_perm (binsEven binsOdd : list (list float)) (sCount : nat) :
  B64.computeGlobalOrder binsEven binsOdd sCount ≡ₚ seq 0 sCount.
Proof. unfold B64.computeGlobalOrder. apply b64_Array_sort_perm. Qed.

Lemma b64_computeGlobalOrder_range (binsEven binsOdd : list (list float))
    (sCount i a : nat) :
  B64.computeGlobalOrder binsEven binsOdd sCount !! i = Some a -> (a < sCount)%nat.
Proof.
  intros Hi. apply list_elem_of_lookup_2 in Hi.
  rewrite b64_computeGlobalOrder_perm in Hi. apply elem_of_seq in Hi. lia.
Qed.

Lemma b64_ranksBefore_ext (t t' : nat -> float) (a b : nat) :
  t a = t' a -> t b = t' b -> B64.ranksBefore t a b -> B64.ranksBefore t' a b.
Proof. unfold B64.ranksBefore. by intros -> ->. Qed.

Lemma b64_computeGlobalOrder_pair (binsEven binsOdd : list (list float)) :
  B64.totalShare binsEven binsOdd 0 = B64.totalShare binsEven binsOdd 1 ->
  B64.computeGlobalOrder binsEven binsOdd 2 = [0; 1]%nat.
Proof.
  intros Heq. unfold B64.computeGlobalOrder, B64.Array_sort.
  cbn [seq foldl B64.sort_insert].
  rewrite sub_ltb_zero, !b64_globalTotals_total, Heq by lia.
  by rewrite ltb_irrefl.
Qed.

(** ** Global order: two series with the same values *)

Lemma b64_transformToMock_Ok_table (data : B64.MockData) (r : B64.Mock * list string) :
  B64.transformToMock data = Ok r ->
  B64.seriesTable data (length (B64.md_series data)) (length (B64.md_values data))
  /\ (1 <= length (B64.md_series data))%nat.
Proof.
  unfold B64.transformToMock.
  destruct (Nat.eqb_spec (length (B64.md_series data)) 0) as [?|Hne]; [done|].
  destruct (forallb _ (B64.md_series data)) eqn:Hall; simpl; [|done].
  intros _. split; [|lia]. split; [done|]. split; [done|].
  intros s ser Hs. rewrite forallb_forall in Hall.
  apply Nat.eqb_eq, Hall, list_elem_of_In. by eapply list_elem_of_lookup_2.
Qed.

Lemma b64_twin_series_norm (data : B64.MockData) (mock : B64.Mock) (names : list string)
    (a b : B64.MockSeries) :
  B64.md_series data = [a; b] -> B64.values a = B64.values b ->
  B64.transformToMock data = Ok (mock, names) ->
  exists r, B64.series mock = [r; r].
Proof.
  intros Hser Hab Hok.
  destruct (b64_transformToMock_Ok_table _ _ Hok) as [Htab Hpos].
  rewrite (b64_transformToMock_closed _ _ _ Htab Hpos) in Hok.
  injection Hok as <- _. simpl. rewrite Hser. simpl.
  eexists. f_equal. f_equal. apply map_ext. intros i.
  unfold B64.normShare, B64.get2, B64.seriesVals_of. rewrite Hser. simpl. by rewrite Hab.
Qed.

Lemma b64_twin_series_smooth (g : B64.Mock) (r : list float) (smoothPercent : Z) :
  B64.series g = [r; r] ->
  exists r', B64.series (B64.smoothGraph g smoothPercent) = [r'; r'].
Proof.
  intros Hg. unfold B64.smoothGraph. destruct (smoothPercent >? 2)%Z; simpl.
  - rewrite Hg. simpl. eauto.
  - eauto.
Qed.

Lemma b64_twin_series_bins (g : B64.Mock) (r : list float) (columns : nat) (odd : bool)
    (col : list float) :
  B64.series g = [r; r] ->
  col ∈ B64.aggregateBins g columns odd -> col !! 0%nat = col !! 1%nat.
Proof.
  intros Hg. rewrite b64_aggregateBins_closed.
  intros Hcol. apply list_elem_of_fmap in Hcol as (b & -> & _).
  unfold B64.binRow. rewrite Hg. simpl.
  assert (Hraw : forall lo hi, B64.binRaw g lo hi 0 = B64.binRaw g lo hi 1).
  { intros lo hi. unfold B64.binRaw, B64.get2. by rewrite Hg. }
  by rewrite Hraw.
Qed.

Lemma b64_twin_totals (binsEven binsOdd : list (list float)) :
  (forall col, col ∈ binsEven -> col !! 0%nat = col !! 1%nat) ->
  (forall col, col ∈ binsOdd -> col !! 0%nat = col !! 1%nat) ->
  B64.totalShare binsEven binsOdd 0 = B64.totalShare binsEven binsOdd 1.
Proof.
  intros He Ho. unfold B64.totalShare.
  assert (H : forall (bins : list (list float)) (t : float),
            (forall col, col ∈ bins -> col !! 0%nat = col !! 1%nat) ->
            foldl (fun t col => (t + B64.orZero (col !! 0%nat))%float) t bins
            = foldl (fun t col => (t + B64.orZero (col !! 1%nat))%float) t bins).
  { induction bins as [|col bins IH]; intros t Hb; simpl; [done|].
    rewrite (Hb col) by (by left). apply IH. intros col' Hc. apply Hb. by right. }
  rewrite (H binsEven) by done. by apply H.
Qed.

(** C4.  The computed Global Order is a permutation of the series
    indices.  For tables without an entry below zero it is sorted by the
    totals as the code adds them up in binary64 (for each series the
    entries of the even table, then of the odd one, in bin order):
    a series with a larger rounded total comes first, and series whose
    rounded totals are equal keep their index order.  Two series with the
    same values come out as [[0; 1]]. *)
Theorem computeGlobalOrder_ranked (binsEven binsOdd : list (list float)) (sCount : nat) :
  let order := B64.computeGlobalOrder binsEven binsOdd sCount in
  order ≡ₚ seq 0 sCount /\
  (B64.noNegativeEntry binsEven -> B64.noNegativeEntry binsOdd ->
   forall i j a b, (i < j)%nat -> order !! i = Some a -> order !! j = Some b ->
     B64.ranksBefore (B64.totalShare binsEven binsOdd) a b) /\
  (forall data mock names a b smoothPercent columns,
     B64.md_series data = [a; b] -> B64.values a = B64.values b ->
     B64.transformToMock data = Ok (mock, names) ->
     let g := B64.smoothGraph mock smoothPercent in
     B64.computeGlobalOrder (B64.aggregateBins g columns false)
                            (B64.aggregateBins g columns true) 2
     = [0; 1]%nat).
Proof.
  intros order. split; [apply b64_computeGlobalOrder_perm|]. split.
  - intros He Ho i j a b Hij Hi Hj.
    pose proof (b64_computeGlobalOrder_range _ _ _ _ _ Hi).
    pose proof (b64_computeGlobalOrder_range _ _ _ _ _ Hj).
    apply (b64_ranksBefore_ext (B64.get (B64.globalTotals binsEven binsOdd sCount)));
      [by apply b64_globalTotals_total..|].
    eapply StronglySorted_lookup; [|exact Hij|exact Hi|exact Hj].
    apply b64_Array_sort_sorted. intros s.
    destruct (decide (s < sCount)%nat) as [Hs|Hs].
    + rewrite b64_globalTotals_total by done. by apply totalShare_number.
    + unfold B64.get. rewrite lookup_ge_None_2; [done|].
      rewrite b64_globalTotals_length. lia.
  - intros data mock names a b smoothPercent columns Hser Hab Hok g.
    destruct (b64_twin_series_norm _ _ _ _ _ Hser Hab Hok) as [r Hr].
    destruct (b64_twin_series_smooth mock r smoothPercent Hr) as [r' Hr'].
    apply b64_computeGlobalOrder_pair, b64_twin_totals; intros col Hcol;
      by eapply b64_twin_series_bins.
Qed.

Lemma noNegativeEntry_forallb (bins : list (list float)) :
  forallb (forallb (fun v => negb (v <? 0)%float)) bins = true ->
  B64.noNegativeEntry bins.
Proof.
  intros H col v Hcol Hv. rewrite forallb_forall in H.
  specialize (H col ltac:(by apply list_elem_of_In)). rewrite forallb_forall in H.
  specialize (H v ltac:(by apply list_elem_of_In)). by apply negb_true_iff.
Qed.

(** Over [sampleTies] the rounded totals of series 0 and 1 are [0.6] and
    [0.6000000000000001]: series 1 is ranked first. *)
Lemma computeGlobalOrder_ranked_witness :
  B64.computeGlobalOrder B64.sampleTies [] 3 = [2; 1; 0]%nat /\
  B64.ranksBefore (B64.totalShare B64.sampleTies []) 1 0.
Proof.
  split; [vm_compute; reflexivity|].
  destruct (computeGlobalOrder_ranked B64.sampleTies [] 3) as (_ & Hrank & _).
  apply (Hrank (noNegativeEntry_forallb B64.sampleTies eq_refl)
           (noNegativeEntry_forallb [] eq_refl)
           1%nat 2%nat 1%nat 0%nat); [lia|vm_compute; reflexivity..].
Defined.

(** Series 0 and 1 of [sampleTies] have the same three shares in opposite
    orders, so their totals are equal as exact numbers, and an order
    sorted by the totals with ties broken by index would have series 0
    before series 1.  The code adds [0.3 + 0.2 + 0.1 = 0.6] and
    [0.1 + 0.2 + 0.3 = 0.6000000000000001] and puts series 1 first. *)
Lemma computeGlobalOrder_rounds_totals :
  let order := B64.computeGlobalOrder B64.sampleTies [] 3 in
  let total := B64.exactTotal B64.sampleTies [] in
  order = [2; 1; 0]%nat /\
  (total 0%nat == total 1%nat)%Q /\
  B64.totalShare B64.sampleTies [] 0 = 0x1.3333333333333p-1%float /\
  B64.totalShare B64.sampleTies [] 1 = 0x1.3333333333334p-1%float /\
  ~ (forall i j a b, (i < j)%nat -> order !! i = Some a -> order !! j = Some b ->
       (total b < total a)%Q \/ ((total a == total b)%Q /\ (a < b)%nat)).
Proof.
  intros order total.
  assert (Heq : (total 0%nat == total 1%nat)%Q) by (vm_compute; reflexivity).
  split; [vm_compute; reflexivity|]. split; [exact Heq|].
  split; [vm_compute; reflexivity|]. split; [vm_compute; reflexivity|].
  intros Hsorted.
  destruct (Hsorted 1%nat 2%nat 1%nat 0%nat ltac:(lia)
              ltac:(vm_compute; reflexivity) ltac:(vm_compute; reflexivity))
    as [Hlt|[_ Hlt]]; [|lia].
  rewrite Heq in Hlt. by apply Qlt_irrefl in Hlt.
Qed.

(** ** Allocation Engine over binary64 numbers *)


(** *** The cumulative vector *)



(** *** The tables [buildAllocations] returns *)








(** ** Hit test over binary64 numbers: one edge *)


(** ** Hit test over binary64 numbers: the ray-casting loop *)





(** ** Hit test over binary64 numbers: the bounding box *)








(** *** The vertical bounds *)


(** *** The horizontal bounds *)









